(** * GeminiReceiptOCR: the batch OCR orchestrator of
      [src/2_jpg_to_json_byGeminiOCR.py], embedded in Rocq.

    The script walks a directory of receipt images, sends each image to a
    hosted model under a requests-per-minute budget, parses the (loosely
    structured) reply into a JSON value, retries a bounded number of times
    and finally dumps the list of collected records to a timestamp-named
    file.

    Conventions of the embedding.
    - Python [str] is [string]: the UTF-8 bytes of the text.  Byte-wise
      lexicographic order on UTF-8 coincides with Python's code-point order.
      [lower], [strip] and the regular-expression class [\s] are modelled on
      the ASCII range; non-ASCII case folding and non-ASCII white space are
      outside the model.
    - [time.time()] yields a [Z], a whole number of seconds; the rounding
      of Python's floats is outside the model.  How much time passes
      around each request is chosen by the environment, see [timing].
    - Reading an attribute of the reply may raise, and so may [str] of
      an object; an exception is represented by its text.
    - The remote service, the JSON library and the local calendar are the
      environment [env]; every function that talks to them takes it as an
      argument.
    - Side effects (printing, sleeping, network calls, the file dump) are
      appended to the [trace] of the [world], which is threaded through
      the stateful functions together with the clock and the module-level
      deque [request_times]. *)

From Stdlib Require Import ZArith NArith List String Ascii Bool Lia.
From Stdlib Require Import Sorting.Sorted Sorting.Permutation.
From Stdlib Require Import DecimalString.
From Stdlib Require DecimalFacts DecimalPos DecimalN.
Import ListNotations.

Local Open Scope string_scope.
Local Open Scope list_scope.
Local Open Scope Z_scope.

(* ================================================================== *)
(** ** Strings as Python uses them                                     *)
(* ================================================================== *)

Module PyStr.

Definition code (c : ascii) : nat := nat_of_ascii c.

(** [str.isspace] restricted to the ASCII range: TAB, LF, VT, FF, CR,
    the four separators 0x1c-0x1f and the blank. *)
Definition is_space (c : ascii) : bool :=
  let n := code c in
  ((9 <=? n) && (n <=? 13) || (28 <=? n) && (n <=? 32))%nat.

Definition lower_char (c : ascii) : ascii :=
  let n := code c in
  if ((65 <=? n) && (n <=? 90))%nat then ascii_of_nat (n + 32) else c.

(** [s.lower()] *)
Fixpoint lower (s : string) : string :=
  match s with
  | EmptyString => EmptyString
  | String c s' => String (lower_char c) (lower s')
  end.

Fixpoint lstrip (s : string) : string :=
  match s with
  | EmptyString => EmptyString
  | String c s' => if is_space c then lstrip s' else s
  end.

Fixpoint rstrip (s : string) : string :=
  match s with
  | EmptyString => EmptyString
  | String c s' =>
      match rstrip s' with
      | EmptyString => if is_space c then EmptyString else String c EmptyString
      | r => String c r
      end
  end.

(** [s.strip()] *)
Definition strip (s : string) : string := rstrip (lstrip s).

(** Python truthiness of a [str]. *)
Definition nonempty (s : string) : bool :=
  match s with EmptyString => false | _ => true end.

(** [sub in s] *)
Fixpoint contains (sub s : string) : bool :=
  if String.prefix sub s then true
  else match s with
       | EmptyString => false
       | String _ s' => contains sub s'
       end.

(** [s.find(sub)], counted from offset [i]; -1 when absent. *)
Fixpoint find_from (sub s : string) (i : Z) : Z :=
  if String.prefix sub s then i
  else match s with
       | EmptyString => -1
       | String _ s' => find_from sub s' (i + 1)
       end.

Definition find (s sub : string) : Z := find_from sub s 0.

(** [s.rfind(sub)], counted from offset [i]; -1 when absent. *)
Fixpoint rfind_from (sub s : string) (i : Z) : Z :=
  match s with
  | EmptyString => if String.prefix sub s then i else -1
  | String _ s' =>
      let r := rfind_from sub s' (i + 1) in
      if 0 <=? r then r
      else if String.prefix sub s then i else -1
  end.

Definition rfind (s sub : string) : Z := rfind_from sub s 0.

(** [s[a:b]] for indices [0 <= a <= b]. *)
Definition slice (s : string) (a b : Z) : string :=
  String.substring (Z.to_nat a) (Z.to_nat (b - a)) s.

Fixpoint drop (n : nat) (s : string) : string :=
  match n, s with
  | O, _ => s
  | S _, EmptyString => EmptyString
  | S k, String _ s' => drop k s'
  end.

(** [str(n).zfill(w)] for a natural number [n]. *)
Definition decimal (n : N) : string :=
  NilEmpty.string_of_uint (N.to_uint n).

Fixpoint zeros (k : nat) : string :=
  match k with O => EmptyString | S k' => String "0"%char (zeros k') end.

Definition zfill (w : nat) (s : string) : string :=
  (zeros (w - String.length s) ++ s)%string.

(** [f] holds of the [fuel] numbers from [n] on. *)
Fixpoint all_from (f : N -> bool) (fuel : nat) (n : N) : bool :=
  match fuel with
  | O => true
  | S k => f n && all_from f k (N.succ n)
  end.

End PyStr.

(* ================================================================== *)
(** ** Values                                                          *)
(* ================================================================== *)

#[local] Set Warnings "-register-all,-abstract-large-number".

(** What [json.loads] can return.  Python's [None] is [JNull]; a [dict]
    keeps its items in insertion order. *)
Inductive json : Type :=
| JNull
| JBool (b : bool)
| JInt (z : Z)
| JFloat (repr : string)
| JStr (s : string)
| JArr (items : list json)
| JObj (items : list (string * json)).

(** An [OrderedDict] with string keys. *)
Definition record : Type := list (string * json).

Module OD.

Fixpoint get (k : string) (od : record) : option json :=
  match od with
  | [] => None
  | (k', v) :: od' => if String.eqb k k' then Some v else get k od'
  end.

(** [od[k] = v]: an existing key keeps its position and takes the new
    value, a new key goes to the end. *)
Fixpoint set (k : string) (v : json) (od : record) : record :=
  match od with
  | [] => [(k, v)]
  | (k', v') :: od' =>
      if String.eqb k k' then (k', v) :: od' else (k', v') :: set k v od'
  end.

Definition keys (od : record) : list string := map fst od.

(** [for k, v in items: od[k] = v] *)
Definition update (items : list (string * json)) (od : record) : record :=
  fold_left (fun acc kv => set (fst kv) (snd kv) acc) items od.

End OD.

(** The key every record starts with, "ファイル名" (file name),
    as UTF-8. *)
Definition FILENAME_KEY : string := "ファイル名".
Definition DATA_KEY : string := "data".
Definition ERROR_KEY : string := "error".
Definition ERROR_REASON : string := "Invalid or no JSON".

(* ================================================================== *)
(** ** Module-level configuration                                      *)
(* ================================================================== *)

Definition MAX_RPM : nat := 4.
Definition WINDOW_SECONDS : Z := 60.
Definition MAX_RETRIES : nat := 3.

Definition IMAGE_SUFFIXES : list string :=
  [".jpg"; ".jpeg"; ".png"; ".webp"; ".bmp"; ".tiff"].

(* ================================================================== *)
(** ** The reply of the service and its text                           *)
(* ================================================================== *)

(** The result of [getattr(x, "text", None)]: missing or [None], a value
    that is not a [str], a [str], or an exception other than
    [AttributeError] raised by the attribute (a property that raises),
    represented by [str(e)]. *)
Inductive text_attr : Type :=
| NoText
| NotAStr
| Text (s : string)
| TextRaises (e : string).

(** Reading an attribute that holds a value of type [A]: it is missing
    or [None], it holds a value, or reading it raises an exception other
    than [AttributeError].  For a sequence, [Raising] also stands for a
    value on which [len] or the index [0] raises. *)
Inductive attr (A : Type) : Type :=
| Missing
| Holds (a : A)
| Raising (e : string).

Arguments Missing {A}.
Arguments Holds {A} a.
Arguments Raising {A} e.

(** [parts[0]] of a candidate's content. *)
Record part : Type := mkPart { part_text : text_attr }.

(** [first.content], with its attribute [parts]. *)
Record content : Type := mkContent { content_parts : attr (list part) }.

(** One entry of [resp.candidates]: its attribute [content], [Missing]
    when [hasattr(first, "content")] is false; [cand_str] is
    [str(first)], [None] when [__str__] raises. *)
Record candidate : Type := mkCandidate {
  cand_content : attr content;
  cand_str : option string
}.

(** The reply object: its attribute [text], its attribute [candidates]
    and [str(resp)] ([None] when it raises). *)
Record response : Type := mkResponse {
  resp_text : text_attr;
  resp_candidates : attr (list candidate);
  resp_str : option string
}.

(** What a call of [extract_text_from_response] comes to: it returns a
    text or [None], or the exception [e] leaves it. *)
Inductive extraction : Type :=
| Extracted (text : option string)
| ExtractRaises (e : string).

(** The candidate branch of [extract_text_from_response], lines 103-119:
    [Some r] when the branch returns [r], [None] when it falls through:
    no candidates, or an exception, which [except Exception] swallows
    wherever in the block it is raised. *)
Definition from_candidates (cands : attr (list candidate))
  : option (option string) :=
  match cands with
  | Holds (first :: _) =>
      let by_str :=
        match cand_str first with
        | Some s => Some (Some s)
        | None => None
        end in
      match cand_content first with
      | Holds c =>
          match content_parts c with
          | Holds (p0 :: _) =>
              match part_text p0 with
              | Text t => Some (Some (PyStr.strip t))
              | TextRaises _ => None
              | NoText | NotAStr => by_str
              end
          | Raising _ => None
          | Holds [] | Missing => by_str
          end
      | Raising _ => None
      | Missing => by_str
      end
  | _ => None
  end.

(** [extract_text_from_response(resp)]; the argument is [None] for
    Python's [None].  Line 99 reads [resp.text] outside any [try]: an
    exception raised there leaves the function. *)
Definition extract_text_from_response (resp : option response)
  : extraction :=
  match resp with
  | None => Extracted None
  | Some r =>
      let fallback :=
        match from_candidates (resp_candidates r) with
        | Some res => res
        | None =>
            match resp_str r with
            | Some s => Some (PyStr.strip s)
            | None => None
            end
        end in
      match resp_text r with
      | TextRaises e => ExtractRaises e
      | Text t =>
          if PyStr.nonempty (PyStr.strip t) then Extracted (Some (PyStr.strip t))
          else Extracted fallback
      | NoText | NotAStr => Extracted fallback
      end
  end.

(* ================================================================== *)
(** ** Loose JSON extraction                                           *)
(* ================================================================== *)

Module Loose.

Definition FENCE : string := "```".

(** The optional tag of [(?:json)?] under [re.IGNORECASE]. *)
Definition skip_tag (s : string) : string :=
  if String.eqb (PyStr.lower (String.substring 0 4 s)) "json"
  then PyStr.drop 4 s else s.

(** The lazy group [(.*?)] followed by the closing fence: the text up
    to the first fence, [None] when there is no fence. *)
Fixpoint until_fence (s : string) : option string :=
  if String.prefix FENCE s then Some EmptyString
  else match s with
       | EmptyString => None
       | String c s' =>
           match until_fence s' with
           | Some g => Some (String c g)
           | None => None
           end
       end.

(** [re.search(r"```(?:json)?\s*(.*?)```", text, DOTALL | IGNORECASE)]:
    [group(1)] of the leftmost match.  At an opening fence the greedy
    choices (tag taken, all white space skipped) are tried; giving
    characters back cannot reach a closing fence that the greedy
    choice misses, since neither the tag nor white space contains a
    backquote. *)
Fixpoint search_fenced (s : string) : option string :=
  match s with
  | EmptyString => None
  | String _ s' =>
      if String.prefix FENCE s then
        match until_fence (PyStr.lstrip (skip_tag (PyStr.drop 3 s))) with
        | Some g => Some g
        | None => search_fenced s'
        end
      else search_fenced s'
  end.

(** [re.sub(r",\s*}", "}", s)].  [skip] counts the characters of the
    current match that are still to be dropped. *)
Fixpoint sub_trailing_commas (skip : nat) (s : string) : string :=
  match s with
  | EmptyString => EmptyString
  | String c s' =>
      match skip with
      | S k => sub_trailing_commas k s'
      | O =>
          if Ascii.eqb c ","%char && String.prefix "}" (PyStr.lstrip s')
          then String "}"%char
                 (sub_trailing_commas
                    (S (String.length s' - String.length (PyStr.lstrip s')))
                    s')
          else String c (sub_trailing_commas 0 s')
      end
  end.

Definition fix_commas (s : string) : string := sub_trailing_commas 0 s.

(** The substring from the first opening to the last closing bracket,
    lines 152-161; the object form is preferred. *)
Definition bracketed (text : string) : option string :=
  let start_obj := PyStr.find text "{" in
  let end_obj := PyStr.rfind text "}" in
  let start_arr := PyStr.find text "[" in
  let end_arr := PyStr.rfind text "]" in
  if negb (start_obj =? -1) && negb (end_obj =? -1) && (start_obj <? end_obj)
  then Some (PyStr.slice text start_obj (end_obj + 1))
  else if negb (start_arr =? -1) && negb (end_arr =? -1) && (start_arr <? end_arr)
  then Some (PyStr.slice text start_arr (end_arr + 1))
  else None.

End Loose.

(** [is_rate_limit_error(exc)], on [str(exc)]. *)
Definition RATE_MARKERS : list string :=
  ["429"; "rate limit"; "quota"; "resource_exhausted"; "too many requests"].

Definition is_rate_limit_error (exc : string) : bool :=
  let text := PyStr.lower exc in
  existsb (fun m => PyStr.contains m text) RATE_MARKERS.

(* ================================================================== *)
(** ** The environment and the world                                   *)
(* ================================================================== *)

(** [datetime.now()], as far as [strftime] looks at it. *)
Record datetime : Type := mkDatetime {
  dt_year : N; dt_month : N; dt_day : N;
  dt_hour : N; dt_minute : N; dt_second : N
}.

(** [dt.strftime("%Y%m%d_%H%M")] *)
Definition strftime_YmdHM (d : datetime) : string :=
  (PyStr.zfill 4 (PyStr.decimal (dt_year d))
   ++ PyStr.zfill 2 (PyStr.decimal (dt_month d))
   ++ PyStr.zfill 2 (PyStr.decimal (dt_day d))
   ++ "_"
   ++ PyStr.zfill 2 (PyStr.decimal (dt_hour d))
   ++ PyStr.zfill 2 (PyStr.decimal (dt_minute d)))%string.

(** How much time passes around one attempt: before [wait_for_rate_slot]
    reads the clock, between its two readings on top of the requested
    sleep, and during the two calls to the service. *)
Record timing : Type := mkTiming {
  t_before : Z;
  t_oversleep : Z;
  t_call : Z
}.

(** What the two calls to the service do on one attempt:
    [client.files.upload] raises, [client.models.generate_content]
    raises, or a reply object comes back ([None] for Python's [None]).
    An exception is represented by [str(e)]. *)
Inductive call_result : Type :=
| UploadRaises (e : string)
| GenerateRaises (e : string)
| Replies (resp : option response).

(** Everything outside the script.  [api name attempt] is the behaviour
    of the service on the given attempt for the given image; each pair is
    asked at most once in a run, so this covers any sequence of
    behaviours.  [json_dump out_file results] is what
    [json.dump(results, f, ensure_ascii=False, indent=2)] into the
    freshly opened [out_file] comes to: [None] when it completes, else
    the text of the exception it raises, the file being left cut off
    (a string with an unpaired surrogate, which [json.loads] accepts in
    escaped form, cannot be encoded as UTF-8; the disk may be full). *)
Record env : Type := mkEnv {
  json_loads : string -> option json;
  api : string -> nat -> timing * call_result;
  localtime : Z -> datetime;
  json_dump : string -> list record -> option string
}.

(** The messages of the script, by the place that prints them. *)
Inductive log_msg : Type :=
| MsgRateWait (wait_time : Z)
| MsgEmptyText (name : string) (attempt max_retries : nat)
| MsgJsonFailed (name : string) (attempt max_retries : nat)
| MsgRateLimit (e : string)
| MsgException (name e : string) (attempt max_retries : nat)
| MsgRetriesExceeded (name : string) (max_retries : nat)
| MsgNoImages
| MsgProcessing (idx total : nat) (name : string)
| MsgFatal
| MsgSaved (out_file : string)
| MsgNothingToSave
| MsgDone.

(** What the script does to the outside, and to its deque: a line
    printed by [log], [time.sleep], the two calls to the service,
    [request_times.append(t)], [ensure_folders], [json.dump] called on
    a freshly opened file, and an exception that leaves [main] (the
    interpreter prints its traceback and the script ends there). *)
Inductive event : Type :=
| EvLog (level : string) (msg : log_msg)
| EvSleep (secs : Z)
| EvUpload (name : string)
| EvGenerate (name : string)
| EvStamp (t : Z)
| EvMkdirs
| EvDump (out_file : string) (results : list record)
| EvRaise (e : string).

(** The state the script runs in: the wall clock, the deque
    [request_times] (oldest entry first) and what has happened so far. *)
Record world : Type := mkWorld {
  clock : Z;
  request_times : list Z;
  trace : list event
}.

Definition initial_world (t0 : Z) : world := mkWorld t0 [] [].

Definition emit (e : event) (w : world) : world :=
  mkWorld (clock w) (request_times w) (trace w ++ [e]).

Definition log (level : string) (msg : log_msg) (w : world) : world :=
  emit (EvLog level msg) w.

Definition elapse (d : Z) (w : world) : world :=
  mkWorld (clock w + d) (request_times w) (trace w).

Definition set_request_times (q : list Z) (w : world) : world :=
  mkWorld (clock w) q (trace w).

(** [time.sleep(secs)] *)
Definition sleep (secs : Z) (w : world) : world :=
  emit (EvSleep secs) (elapse secs w).

(** [request_times.append(time.time())] *)
Definition stamp (w : world) : world :=
  emit (EvStamp (clock w)) (set_request_times (request_times w ++ [clock w]) w).

(* ================================================================== *)
(** ** Rate control                                                    *)
(* ================================================================== *)

(** [while request_times and now - request_times[0] > WINDOW_SECONDS:
       request_times.popleft()] *)
Fixpoint purge (now : Z) (q : list Z) : list Z :=
  match q with
  | [] => []
  | t :: q' => if WINDOW_SECONDS <? now - t then purge now q' else q
  end.

(** [wait_for_rate_slot()] *)
Definition wait_for_rate_slot (tm : timing) (w : world) : world :=
  let w := elapse (t_before tm) w in
  let now := clock w in
  let w := set_request_times (purge now (request_times w)) w in
  if (MAX_RPM <=? List.length (request_times w))%nat then
    let wait_time := WINDOW_SECONDS - (now - hd 0 (request_times w)) in
    let w :=
      if 0 <? wait_time
      then sleep wait_time (log "INFO" (MsgRateWait wait_time) w)
      else w in
    let w := elapse (t_oversleep tm) w in
    let now2 := clock w in
    set_request_times (purge now2 (request_times w)) w
  else w.

(* ================================================================== *)
(** ** One image                                                       *)
(* ================================================================== *)

(** [extract_json_loose(text)]; [None] is [JNull]. *)
Definition extract_json_loose (E : env) (text : string) : json :=
  match json_loads E text with
  | Some v => v
  | None =>
      let fenced :=
        match Loose.search_fenced text with
        | Some g => json_loads E (Loose.fix_commas (PyStr.strip g))
        | None => None
        end in
      match fenced with
      | Some v => v
      | None =>
          match Loose.bracketed text with
          | Some cand =>
              match json_loads E (Loose.fix_commas cand) with
              | Some v => v
              | None => JNull
              end
          | None => JNull
          end
      end
  end.

(** Lines 231-238: the record of a successfully parsed reply. *)
Definition build_record (name : string) (parsed : json) : record :=
  let od := OD.set FILENAME_KEY (JStr name) [] in
  match parsed with
  | JObj items => OD.update items od
  | _ => OD.set DATA_KEY parsed od
  end.

(** How [process_image] ends: it returns a record or [None], or the
    rate-limit exception [e] leaves it. *)
Inductive outcome : Type :=
| Returns (od : option record)
| Raises (e : string).

(** What one pass through the body of the retry loop decides. *)
Inductive step : Type :=
| Continue
| Done (o : outcome).

(** The [except Exception as e] handler, lines 240-245. *)
Definition handle_exception (name e : string) (attempt max_retries : nat)
  (w : world) : step * world :=
  if is_rate_limit_error e
  then (Done (Raises e), log "ERROR" (MsgRateLimit e) w)
  else (Continue, log "ERROR" (MsgException name e attempt max_retries) w).

(** The body of the retry loop, lines 207-245. *)
Definition attempt_once (E : env) (name : string) (attempt max_retries : nat)
  (w : world) : step * world :=
  let (tm, res) := api E name attempt in
  let w := wait_for_rate_slot tm w in
  let w := elapse (t_call tm) (emit (EvUpload name) w) in
  match res with
  | UploadRaises e => handle_exception name e attempt max_retries w
  | GenerateRaises e =>
      handle_exception name e attempt max_retries (emit (EvGenerate name) w)
  | Replies resp =>
      let w := stamp (emit (EvGenerate name) w) in
      match extract_text_from_response resp with
      | ExtractRaises e => handle_exception name e attempt max_retries w
      | Extracted None | Extracted (Some EmptyString) =>
          (Continue, log "ERROR" (MsgEmptyText name attempt max_retries) w)
      | Extracted (Some text) =>
          match extract_json_loose E text with
          | JNull =>
              (Continue, log "ERROR" (MsgJsonFailed name attempt max_retries) w)
          | parsed => (Done (Returns (Some (build_record name parsed))), w)
          end
      end
  end.

(** [for attempt in range(1, max_retries + 1)], with [remaining]
    iterations to go, followed by lines 247-249. *)
Fixpoint retry_loop (E : env) (name : string) (max_retries remaining : nat)
  (w : world) : outcome * world :=
  match remaining with
  | O => (Returns None, log "ERROR" (MsgRetriesExceeded name max_retries) w)
  | S k =>
      match attempt_once E name (max_retries - k) max_retries w with
      | (Done o, w') => (o, w')
      | (Continue, w') => retry_loop E name max_retries k w'
      end
  end.

(** [process_image(image_path, max_retries)] *)
Definition process_image (E : env) (name : string) (max_retries : nat)
  (w : world) : outcome * world :=
  retry_loop E name max_retries max_retries w.

(* ================================================================== *)
(** ** The batch                                                       *)
(* ================================================================== *)

(** [PurePath.suffix] of a file name: the last dot and what follows,
    unless that dot is the first or the last character. *)
Definition suffix (name : string) : string :=
  let i := PyStr.rfind name "." in
  if (0 <? i) && (i <? Z.of_nat (String.length name) - 1)
  then PyStr.drop (Z.to_nat i) name
  else EmptyString.

(** [p.suffix.lower() in (".jpg", ".jpeg", ".png", ".webp", ".bmp", ".tiff")] *)
Definition is_image (name : string) : bool :=
  existsb (String.eqb (PyStr.lower (suffix name))) IMAGE_SUFFIXES.

(** [sorted(...)] on the paths of one directory, which compare as their
    names do (POSIX flavour).  A stable insertion sort. *)
Fixpoint insert (x : string) (l : list string) : list string :=
  match l with
  | [] => [x]
  | y :: l' => if String.leb x y then x :: l else y :: insert x l'
  end.

Fixpoint sorted (l : list string) : list string :=
  match l with
  | [] => []
  | x :: l' => insert x (sorted l')
  end.

(** Line 255; [listing] is what [INPUT_DIR.iterdir()] yields, in the
    order the file system gives. *)
Definition image_files (listing : list string) : list string :=
  sorted (filter is_image listing).

(** The entry appended when [process_image] returned [None], line 273. *)
Definition failure_record (name : string) : record :=
  [(FILENAME_KEY, JStr name); (ERROR_KEY, JStr ERROR_REASON)].

(** The loop of lines 262-275 over the images still to do; [idx] is the
    position of the first of them, [results] what has been collected. *)
Fixpoint batch_loop (E : env) (todo : list string) (idx total : nat)
  (results : list record) (w : world) : list record * world :=
  match todo with
  | [] => (results, w)
  | name :: rest =>
      let w := log "INFO" (MsgProcessing idx total name) w in
      match process_image E name MAX_RETRIES w with
      | (Raises _, w') => (results, log "ERROR" MsgFatal w')
      | (Returns None, w') =>
          batch_loop E rest (S idx) total (results ++ [failure_record name]) w'
      | (Returns (Some od), w') =>
          batch_loop E rest (S idx) total (results ++ [od]) w'
      end
  end.

(** The [finally] block, lines 277-286: [Some e] when the exception
    [e] of [json.dump] leaves it, before the line that reports the
    file. *)
Definition persist (E : env) (results : list record) (w : world)
  : option string * world :=
  match results with
  | [] => (None, log "INFO" MsgNothingToSave w)
  | _ =>
      let ts_str := strftime_YmdHM (localtime E (clock w)) in
      let out_file := (ts_str ++ ".json")%string in
      let w := emit (EvDump out_file results) w in
      match json_dump E out_file results with
      | Some e => (Some e, w)
      | None => (None, log "INFO" (MsgSaved out_file) w)
      end
  end.

(** [main()] on a directory listing.  An exception of the [finally]
    block leaves [main], which then does not print its last line. *)
Definition main (E : env) (listing : list string) (w : world) : world :=
  let w := emit EvMkdirs w in
  match image_files listing with
  | [] => log "INFO" MsgNoImages w
  | files =>
      let (results, w) := batch_loop E files 1 (List.length files) [] w in
      match persist E results w with
      | (Some e, w) => emit (EvRaise e) w
      | (None, w) => log "INFO" MsgDone w
      end
  end.

(** The list [results] of a run, as the [finally] block finds it. *)
Definition batch_results (E : env) (listing : list string) (w : world)
  : list record :=
  fst (batch_loop E (image_files listing) 1
         (List.length (image_files listing)) [] (emit EvMkdirs w)).

(* ================================================================== *)
(** ** Observations used in the statements                             *)
(* ================================================================== *)

(** The order of [sorted]: byte-wise lexicographic. *)
Definition le_name (a b : string) : Prop := String.leb a b = true.

(** The name of the file [persist] writes at time [t]. *)
Definition out_file_at (E : env) (t : Z) : string :=
  (strftime_YmdHM (localtime E t) ++ ".json")%string.

(** The timestamps appended to [request_times], in order. *)
Definition stamps (tr : list event) : list Z :=
  flat_map (fun e => match e with EvStamp t => [t] | _ => [] end) tr.

(** The files opened for writing, with what [json.dump] was given to
    write into them. *)
Definition dumps (tr : list event) : list (string * list record) :=
  flat_map (fun e => match e with EvDump f rs => [(f, rs)] | _ => [] end) tr.

(** The files reported as saved: their [json.dump] completed. *)
Definition saved (tr : list event) : list string :=
  flat_map (fun e => match e with
                     | EvLog _ (MsgSaved f) => [f]
                     | _ => []
                     end) tr.

(** The exceptions that left [main]. *)
Definition raised (tr : list event) : list string :=
  flat_map (fun e => match e with EvRaise e => [e] | _ => [] end) tr.

(** How [main] ends after the [finally] block: with the exception that
    left the block, or with its closing line. *)
Definition last_event (r : option string) : event :=
  match r with
  | Some e => EvRaise e
  | None => EvLog "INFO" MsgDone
  end.

(** The images for which an upload was started. *)
Definition uploads (tr : list event) : list string :=
  flat_map (fun e => match e with EvUpload n => [n] | _ => [] end) tr.

(** An event that only the [finally] block of [main] produces: the dump
    of the first branch or the message of the second. *)
Definition is_persist_step (e : event) : bool :=
  match e with
  | EvDump _ _ => true
  | EvLog _ MsgNothingToSave => true
  | _ => false
  end.

Definition persist_steps (tr : list event) : nat :=
  List.length (filter is_persist_step tr).


(** No more than [MAX_RPM] entries of [l] lie less than [WINDOW_SECONDS]
    apart: an entry and one [MAX_RPM] or more places later are at least
    a window apart. *)
Definition spaced (l : list Z) : Prop :=
  forall i j a b,
    (i + MAX_RPM <= j)%nat ->
    nth_error l i = Some a -> nth_error l j = Some b ->
    a + WINDOW_SECONDS <= b.

(** A clock that does not run backwards, a sleep that lasts at least as
    long as asked, a round trip to the service that takes time. *)
Definition sane (tm : timing) : Prop :=
  0 <= t_before tm /\ 0 <= t_oversleep tm /\ 0 < t_call tm.

Definition sane_env (E : env) : Prop :=
  forall name attempt, sane (fst (api E name attempt)).

Definition replied (res : call_result) : bool :=
  match res with Replies _ => true | _ => false end.

(** What one attempt of [process_image] does to the rate window, lines
    208-218: ask for a slot, call the service, and record the time when
    both calls returned ([ok]). *)
Definition request (tm : timing) (ok : bool) (w : world) : world :=
  let w := elapse (t_call tm) (wait_for_rate_slot tm w) in
  if ok then stamp w else w.

(** A sequence of attempts. *)
Definition serve (reqs : list (timing * bool)) (w : world) : world :=
  fold_left (fun w r => request (fst r) (snd r) w) reqs w.



(** The outcome of [process_image] for an image; it depends on the
    service only (see [process_image_outcome]). *)
Definition outcome_of (E : env) (name : string) : outcome :=
  fst (process_image E name MAX_RETRIES (initial_world 0)).

(** The entry [main] appends for an image, [None] when the fatal
    exception leaves [process_image]. *)
Definition record_of (E : env) (name : string) : option record :=
  match outcome_of E name with
  | Returns (Some od) => Some od
  | Returns None => Some (failure_record name)
  | Raises _ => None
  end.

(** The images up to the first fatal one. *)
Fixpoint processed (E : env) (todo : list string) : list string :=
  match todo with
  | [] => []
  | name :: rest =>
      match record_of E name with
      | Some _ => name :: processed E rest
      | None => []
      end
  end.

(** The entries collected for the images up to the first fatal one. *)
Fixpoint collected (E : env) (todo : list string) : list record :=
  match todo with
  | [] => []
  | name :: rest =>
      match record_of E name with
      | Some r => r :: collected E rest
      | None => []
      end
  end.

(** [w'] is [w] after some more events, none of them of the [finally]
    block or of the end of [main]. *)
Definition quiet (e : event) : Prop :=
  is_persist_step e = false /\ saved [e] = [] /\ raised [e] = [].

Definition grows (w w' : world) : Prop :=
  exists evs, trace w' = trace w ++ evs /\ Forall quiet evs.

Definition fatal (E : env) (name : string) : bool :=
  match record_of E name with Some _ => false | None => true end.


(** An attempt that ends in [continue]: an exception that is not a rate
    limit (of a call to the service or of reading the text of the
    reply), an empty text, or a text from which no JSON value comes. *)
Definition attempt_fails (E : env) (name : string) (attempt : nat) : bool :=
  match snd (api E name attempt) with
  | UploadRaises e | GenerateRaises e => negb (is_rate_limit_error e)
  | Replies resp =>
      match extract_text_from_response resp with
      | ExtractRaises e => negb (is_rate_limit_error e)
      | Extracted None | Extracted (Some EmptyString) => true
      | Extracted (Some text) =>
          match extract_json_loose E text with JNull => true | _ => false end
      end
  end.

(** The four ways to a text as the specification lists them, (a) to (d);
    [None] where a way does not apply. *)
Module Paths.

Definition first_candidate (r : response) : option candidate :=
  match resp_candidates r with
  | Holds (first :: _) => Some first
  | _ => None
  end.

(** An exception is raised while the first candidate is looked into,
    lines 109-115: by [hasattr(first, "content")], by reading
    [first.content.parts], by [len(parts)] or [parts[0]], or by reading
    the text of the part.  [except Exception] swallows it, and with it
    the rest of the block. *)
Definition swallowed (first : candidate) : bool :=
  match cand_content first with
  | Raising _ => true
  | Holds c =>
      match content_parts c with
      | Raising _ => true
      | Holds (p0 :: _) =>
          match part_text p0 with TextRaises _ => true | _ => false end
      | _ => false
      end
  | Missing => false
  end.

(** (a) the attribute [text], when it is a string that is not blank. *)
Definition direct (r : response) : option string :=
  match resp_text r with
  | Text t => if PyStr.nonempty (PyStr.strip t) then Some (PyStr.strip t) else None
  | _ => None
  end.

(** (b) [candidates[0].content.parts[0].text], when it is a string. *)
Definition first_part (r : response) : option string :=
  match first_candidate r with
  | Some first =>
      match cand_content first with
      | Holds c =>
          match content_parts c with
          | Holds (p0 :: _) =>
              match part_text p0 with
              | Text t => Some (PyStr.strip t)
              | _ => None
              end
          | _ => None
          end
      | _ => None
      end
  | None => None
  end.

(** (c) [str(candidates[0])], when there is a candidate, no exception
    was swallowed while it was looked into, and [str] does not raise. *)
Definition candidate_str (r : response) : option string :=
  match first_candidate r with
  | Some first => if swallowed first then None else cand_str first
  | None => None
  end.

(** (d) [str(resp).strip()], when [str] does not raise. *)
Definition whole_str (r : response) : option string :=
  match resp_str r with
  | Some s => Some (PyStr.strip s)
  | None => None
  end.

Fixpoint first_some {A : Type} (l : list (option A)) : option A :=
  match l with
  | [] => None
  | Some a :: _ => Some a
  | None :: l' => first_some l'
  end.

End Paths.

(* ================================================================== *)
(** ** The invariant of the rate window                                *)
(* ================================================================== *)


(** When a slot has been granted: the deque holds at most [MAX_RPM]
    entries, and when it is full its oldest entry is a window old. *)
Record Granted (w : world) : Prop := mkGranted {
  adm_hist : exists dropped,
      stamps (trace w) = dropped ++ request_times w /\
      Forall (fun t => t + WINDOW_SECONDS < clock w) dropped;
  adm_len : (List.length (request_times w) <= MAX_RPM)%nat;
  adm_old : forall t,
      List.length (request_times w) = MAX_RPM ->
      hd_error (request_times w) = Some t ->
      t + WINDOW_SECONDS <= clock w;
  adm_spaced : spaced (stamps (trace w))
}.

(* ================================================================== *)
(** ** Sample environments                                             *)
(* ================================================================== *)

Module Sample.

Definition tick : timing := mkTiming 0 0 1.
Definition frozen : timing := mkTiming 0 0 0.

(** The double quote, and a text between double quotes. *)
Definition dq : string := String (ascii_of_nat 34) EmptyString.
Definition quoted (s : string) : string := (dq ++ s ++ dq)%string.

(** The texts [{"a": 1}] and [{"ファイル名": "x.jpg"}]. *)
Definition text_a : string :=
  Eval cbv in ("{" ++ quoted "a" ++ ": 1}")%string.
Definition text_echo : string :=
  Eval cbv in ("{" ++ quoted FILENAME_KEY ++ ": " ++ quoted "x.jpg" ++ "}")%string.

(** A toy [json.loads] that knows three texts. *)
Definition loads (s : string) : option json :=
  if String.eqb s text_a then Some (JObj [("a", JInt 1)])
  else if String.eqb s "[1]" then Some (JArr [JInt 1])
  else if String.eqb s text_echo
       then Some (JObj [(FILENAME_KEY, JStr "x.jpg")])
  else None.

Definition calendar (t : Z) : datetime :=
  mkDatetime 2024 1 2 3 (Z.to_N (t / 60)) (Z.to_N (t mod 60)).

Definition reply (s : string) : call_result :=
  Replies (Some (mkResponse (Text s) Missing None)).

(** A disk that takes every dump. *)
Definition disk (out_file : string) (results : list record) : option string :=
  None.

(** Every attempt answers [{"a": 1}]. *)
Definition good : env :=
  mkEnv loads (fun _ _ => (tick, reply text_a)) calendar disk.

(** Every attempt answers with text that is not JSON. *)
Definition garbage : env :=
  mkEnv loads (fun _ _ => (tick, reply "sorry")) calendar disk.



(** The service echoes a file name of its own. *)
Definition echo : env :=
  mkEnv loads (fun _ _ => (tick, reply text_echo))
    calendar disk.

(** Every attempt fails with a connection error. *)
Definition offline : env :=
  mkEnv loads (fun _ _ => (tick, UploadRaises "connection reset")) calendar
    disk.

(** A reply whose direct text is missing and whose first part holds a
    blank string. *)
Definition blank_part : response :=
  mkResponse NoText
    (Holds [mkCandidate (Holds (mkContent (Holds [mkPart (Text "  ")])))
              (Some "Candidate(...)")])
    (Some "GenerateContentResponse(...)").

(** A reply whose attribute [text] is a property that raises, as the
    reply of a blocked request does. *)
Definition no_valid_part : response :=
  mkResponse (TextRaises "ValueError: the response holds no valid part")
    Missing (Some "GenerateContentResponse(...)").

(** A reply whose first part raises when its text is read. *)
Definition broken_part : response :=
  mkResponse NoText
    (Holds [mkCandidate
              (Holds (mkContent (Holds [mkPart (TextRaises "RuntimeError")])))
              (Some "Candidate(...)")])
    (Some " GenerateContentResponse(...) ").

(** Every attempt is answered with a reply whose text cannot be read. *)
Definition blocked : env :=
  mkEnv loads (fun _ _ => (tick, Replies (Some no_valid_part))) calendar disk.

(** Every attempt answers [{"a": 1}], and the dump fails on a string
    that cannot be encoded. *)
Definition unencodable : env :=
  mkEnv loads (fun _ _ => (tick, reply text_a)) calendar
    (fun _ _ => Some "UnicodeEncodeError: surrogates not allowed").

Definition five : list string :=
  ["e.jpg"; "b.jpg"; "notes.txt"; "a.jpg"; "d.jpg"; "c.jpg"].

End Sample.

(* ================================================================== *)
(** ** Characters of a text                                            *)
(* ================================================================== *)

Module Chars.

(** [c in s] for a character [c]. *)
Fixpoint has (c : ascii) (s : string) : bool :=
  match s with
  | EmptyString => false
  | String d s' => Ascii.eqb c d || has c s'
  end.

(** [s] is white space throughout ([s.strip() == ""]). *)
Fixpoint blank (s : string) : bool :=
  match s with
  | EmptyString => true
  | String d s' => PyStr.is_space d && blank s'
  end.

Abbreviation BACKQUOTE := ("`"%char).
Abbreviation COMMA := (","%char).
Abbreviation LBRACE := ("{"%char).
Abbreviation RBRACE := ("}"%char).
Abbreviation LBRACKET := ("["%char).
Abbreviation RBRACKET := ("]"%char).

End Chars.

(* ================================================================== *)
(** ** Further samples                                                 *)
(* ================================================================== *)

Module Demo.

Definition nl : string := String (ascii_of_nat 10) EmptyString.

(** The inside of a fenced block: the tag, a line break, the object
    [{"a": 1,}] with its trailing comma, a line break. *)
Definition fenced_inner : string :=
  Eval cbv in ("json" ++ nl ++ "{" ++ Sample.quoted "a" ++ ": 1,}" ++ nl)%string.

(** A toy [json.loads] that also knows [null]. *)
Definition loads (s : string) : option json :=
  if String.eqb s "null" then Some JNull else Sample.loads s.

(** The service answers [null] every time. *)
Definition null_reply : env :=
  mkEnv loads (fun _ _ => (Sample.tick, Sample.reply "null")) Sample.calendar
    Sample.disk.

(** Two attempts fail with a connection error, the third is answered. *)
Definition third_time_lucky : env :=
  mkEnv Sample.loads
    (fun _ attempt =>
       if (attempt <? 3)%nat
       then (Sample.tick, UploadRaises "connection reset")
       else (Sample.tick, Sample.reply Sample.text_a))
    Sample.calendar Sample.disk.

(** One attempt fails with a connection error, the second is refused
    with a quota error. *)
Definition refused_on_retry : env :=
  mkEnv Sample.loads
    (fun _ attempt =>
       if (attempt <? 2)%nat
       then (Sample.tick, UploadRaises "connection reset")
       else (Sample.tick, GenerateRaises "Quota exceeded"))
    Sample.calendar Sample.disk.

End Demo.

(* ================================================================== *)
(** ** Further observations                                            *)
(* ================================================================== *)

(** The lengths of the sleeps, in order. *)
Definition sleeps (tr : list event) : list Z :=
  flat_map (fun e => match e with EvSleep d => [d] | _ => [] end) tr.

(** No entry of the deque lies in the future, no sleep was longer than
    the window, and there were no more sleeps than uploads. *)
Record Timely (w : world) : Prop := mkTimely {
  timely_past : Forall (fun t => t <= clock w) (request_times w);
  timely_sleeps : Forall (fun d => 0 < d <= WINDOW_SECONDS) (sleeps (trace w));
  timely_count :
    (List.length (sleeps (trace w)) <= List.length (uploads (trace w)))%nat
}.

(** As [Timely], after a slot was granted and before the upload. *)
Record Waited (w : world) : Prop := mkWaited {
  waited_past : Forall (fun t => t <= clock w) (request_times w);
  waited_sleeps : Forall (fun d => 0 < d <= WINDOW_SECONDS) (sleeps (trace w));
  waited_count :
    (List.length (sleeps (trace w)) <= S (List.length (uploads (trace w))))%nat
}.

(** The uploads of a run that reaches the images [files] in order and
    uploads the [i]-th of them [nth i counts] times. *)
Definition uploads_by (files : list string) (counts : list nat) : list string :=
  flat_map (fun p => repeat (fst p) (snd p)) (combine files counts).

(* ================================================================== *)
(** ** [os.path], POSIX flavour                                        *)
(* ================================================================== *)

Module PosixPath.

Fixpoint all_char (c : ascii) (s : string) : bool :=
  match s with
  | EmptyString => true
  | String d s' => Ascii.eqb d c && all_char c s'
  end.

(** [s.rstrip('/')] *)
Fixpoint rstrip_slash (s : string) : string :=
  match s with
  | EmptyString => EmptyString
  | String c s' =>
      match rstrip_slash s' with
      | EmptyString => if Ascii.eqb c "/" then EmptyString else String c EmptyString
      | r => String c r
      end
  end.

(** [os.path.basename(p)]: [i = p.rfind('/') + 1; return p[i:]] *)
Definition basename (p : string) : string :=
  PyStr.drop (Z.to_nat (PyStr.rfind p "/" + 1)) p.

(** [os.path.dirname(p)]: the part up to the last slash, without its
    trailing slashes unless it consists of slashes. *)
Definition dirname (p : string) : string :=
  let i := PyStr.rfind p "/" + 1 in
  let head := PyStr.slice p 0 i in
  if PyStr.nonempty head && negb (all_char "/" head)
  then rstrip_slash head
  else head.

(** [os.path.splitext(p)]: the extension starts at the last dot that
    comes after the last slash and after a character of the file name
    that is not a dot. *)
Definition splitext (p : string) : string * string :=
  let sepIndex := PyStr.rfind p "/" in
  let dotIndex := PyStr.rfind p "." in
  if (sepIndex <? dotIndex)
     && negb (all_char "." (PyStr.slice p (sepIndex + 1) dotIndex))
  then (PyStr.slice p 0 dotIndex, PyStr.drop (Z.to_nat dotIndex) p)
  else (p, EmptyString).

(** [os.path.join(a, b)] *)
Definition join (a b : string) : string :=
  if String.prefix "/" b then b
  else if negb (PyStr.nonempty a) || (PyStr.rfind a "/" =? Z.of_nat (String.length a) - 1)
       then (a ++ b)%string
       else (a ++ "/" ++ b)%string.

End PosixPath.

(* ================================================================== *)
(** ** [src/3_json_to_csv.py]: from the dumped records to a table     *)
(* ================================================================== *)

Module Csv.

(** What opening and parsing a JSON file comes to: [FileNotFoundError],
    [json.JSONDecodeError], any other exception, or the value. *)
Inductive loaded : Type :=
| NotFound
| DecodeError (e : string)
| OtherError (e : string)
| Loaded (data : json).

(** The file system and the libraries the script relies on.  The two
    folders are module constants computed from the place of the script;
    [makedirs], [open_w] and [writerow] give the text of the exception
    they raise, if any: [writer.writerow] raises on a row that the
    file cannot take (a cell with an unpaired surrogate, which
    [json.load] accepts in escaped form, cannot be encoded; the disk may
    be full), and then nothing of the row is written. *)
Record fs : Type := mkFs {
  INPUT_FOLDER : string;
  OUTPUT_FOLDER : string;
  load : string -> loaded;
  path_exists : string -> bool;
  glob : string -> list string;
  makedirs : string -> option string;
  open_w : string -> option string;
  writerow : string -> list string -> option string;
  json_dumps : json -> string
}.

(** The lines of the script, by the place that prints them; [MsgRule]
    is a line of [n] copies of one character. *)
Inductive msg : Type :=
| MsgKeys (all_keys : list string)
| MsgLoadStart (json_file_path : string)
| MsgEmptyData
| MsgWrapped
| MsgLoaded (n : nat)
| MsgDirCreated (output_dir : string)
| MsgWriteStart (csv_file_path : string)
| MsgHeaderDone (headers : list string)
| MsgProgress (i total : nat)
| MsgConverted (csv_file_path : string)
| MsgNotFound (json_file_path : string)
| MsgDecodeFailed (e : string)
| MsgUnexpected (e : string)
| MsgRule (c : ascii) (n : nat)
| MsgBatchStart
| MsgNoFolder (input_folder : string)
| MsgHintFolder
| MsgNoFiles (input_folder : string)
| MsgHintFiles
| MsgCount (n : nat)
| MsgSummary
| MsgSucceeded (n : nat)
| MsgFailed (n : nat)
| MsgTotal (n : nat)
| MsgBoot
| MsgUsage
| MsgUsage1 (input_folder : string)
| MsgUsage2
| MsgUsage3 (output_folder : string)
| MsgBlank.

(** What the script does to the outside: a line of [log_message] (the
    time of day it prints is left out), [os.makedirs], a file opened
    for writing (and so emptied), and [writer.writerow] on it. *)
Inductive event : Type :=
| EvLog (level : string) (m : msg)
| EvMkdirs (dir : string)
| EvOpen (path : string)
| EvRow (path : string) (row : list string).

(** The directories created so far and what has happened so far. *)
Record world : Type := mkWorld {
  made : list string;
  trace : list event
}.

Definition initial_world : world := mkWorld [] [].

Definition emit (e : event) (w : world) : world :=
  mkWorld (made w) (trace w ++ [e]).

Definition log_message (message : msg) (level : string) (w : world) : world :=
  emit (EvLog level message) w.

(** [os.path.exists(p)] after the directories made so far. *)
Definition exists_now (F : fs) (p : string) (w : world) : bool :=
  path_exists F p || existsb (String.eqb p) (made w).

(** [ord(char) >= 32 or char in '\t\n'].  A character of 32 or more has
    only bytes of 32 or more in UTF-8, so the test is made byte by
    byte. *)
Definition keeps (c : ascii) : bool :=
  ((32 <=? PyStr.code c) || (PyStr.code c =? 9) || (PyStr.code c =? 10))%nat.

Fixpoint clean (s : string) : string :=
  match s with
  | EmptyString => EmptyString
  | String c s' => if keeps c then String c (clean s') else clean s'
  end.

(** [str(z)] for an [int]. *)
Definition str_int (z : Z) : string :=
  if z <? 0 then ("-" ++ PyStr.decimal (Z.to_N (- z)))%string
  else PyStr.decimal (Z.to_N z).

Definition normalize_value (F : fs) (value : json) : string :=
  match value with
  | JNull => EmptyString
  | JArr _ | JObj _ => json_dumps F value
  | JStr s => clean s
  | JBool true => "True"
  | JBool false => "False"
  | JInt z => str_int z
  | JFloat r => r
  end.

(** [for key in item.keys(): if key not in all_keys: all_keys.append(key)] *)
Fixpoint add_keys (keys all_keys : list string) : list string :=
  match keys with
  | [] => all_keys
  | key :: rest =>
      add_keys rest
        (if existsb (String.eqb key) all_keys then all_keys
         else all_keys ++ [key])
  end.

(** The outer loop of [extract_all_keys]; items that are not a [dict]
    are passed over. *)
Fixpoint collect_keys (json_data : list json) (all_keys : list string)
  : list string :=
  match json_data with
  | [] => all_keys
  | JObj items :: rest => collect_keys rest (add_keys (OD.keys items) all_keys)
  | _ :: rest => collect_keys rest all_keys
  end.

Definition extract_all_keys (json_data : list json) (w : world)
  : list string * world :=
  let all_keys := collect_keys json_data [] in
  (all_keys, log_message (MsgKeys all_keys) "INFO" w).

(** Python's truth value of what [json.load] returns. *)
Definition truthy (data : json) : bool :=
  match data with
  | JNull => false
  | JBool b => b
  | JInt z => negb (z =? 0)
  | JFloat r => negb (String.eqb r "0.0" || String.eqb r "-0.0")
  | JStr s => PyStr.nonempty s
  | JArr items => match items with [] => false | _ => true end
  | JObj items => match items with [] => false | _ => true end
  end.

(** [item.get(header) if isinstance(item, dict) else ""] *)
Definition value_at (item : json) (header : string) : json :=
  match item with
  | JObj items =>
      match OD.get header items with Some v => v | None => JNull end
  | _ => JStr EmptyString
  end.

Definition row_of (F : fs) (headers : list string) (item : json) : list string :=
  map (fun header => normalize_value F (value_at item header)) headers.

(** The loop of lines 150-162; [i] counts the rows written before.
    [Some e] when the exception [e] of a [writerow] ends it. *)
Fixpoint write_rows (F : fs) (path : string) (headers : list string)
  (data : list json) (i total : nat) (w : world) : option string * world :=
  match data with
  | [] => (None, w)
  | item :: rest =>
      let row := row_of F headers item in
      match writerow F path row with
      | Some e => (Some e, w)
      | None =>
          let w := emit (EvRow path row) w in
          let w :=
            if (((i + 1) mod 100 =? 0) || (i + 1 =? total))%nat
            then log_message (MsgProgress (i + 1) total) "INFO" w
            else w in
          write_rows F path headers rest (i + 1) total w
      end
  end.

Definition json_to_csv (F : fs) (json_file_path : string)
  (csv_file_path : option string) (w : world) : bool * world :=
  let w := log_message (MsgLoadStart json_file_path) "INFO" w in
  match load F json_file_path with
  | NotFound => (false, log_message (MsgNotFound json_file_path) "ERROR" w)
  | DecodeError e => (false, log_message (MsgDecodeFailed e) "ERROR" w)
  | OtherError e => (false, log_message (MsgUnexpected e) "ERROR" w)
  | Loaded data =>
      if negb (truthy data)
      then (false, log_message MsgEmptyData "WARNING" w)
      else
        let (data, w) :=
          match data with
          | JArr items => (items, w)
          | _ => ([data], log_message MsgWrapped "INFO" w)
          end in
        let w := log_message (MsgLoaded (List.length data)) "INFO" w in
        let (headers, w) := extract_all_keys data w in
        let csv_file_path :=
          match csv_file_path with
          | Some p => p
          | None =>
              let base_name :=
                fst (PosixPath.splitext (PosixPath.basename json_file_path)) in
              PosixPath.join (OUTPUT_FOLDER F) (base_name ++ ".csv")%string
          end in
        let output_dir := PosixPath.dirname csv_file_path in
        let made_dir :=
          if PyStr.nonempty output_dir && negb (exists_now F output_dir w)
          then match makedirs F output_dir with
               | Some e => inl e
               | None =>
                   inr (log_message (MsgDirCreated output_dir) "INFO"
                          (mkWorld (output_dir :: made w)
                             (trace w ++ [EvMkdirs output_dir])))
               end
          else inr w in
        match made_dir with
        | inl e => (false, log_message (MsgUnexpected e) "ERROR" w)
        | inr w =>
            let w := log_message (MsgWriteStart csv_file_path) "INFO" w in
            match open_w F csv_file_path with
            | Some e => (false, log_message (MsgUnexpected e) "ERROR" w)
            | None =>
                let w := emit (EvOpen csv_file_path) w in
                match writerow F csv_file_path headers with
                | Some e => (false, log_message (MsgUnexpected e) "ERROR" w)
                | None =>
                    let w := emit (EvRow csv_file_path headers) w in
                    let w := log_message (MsgHeaderDone headers) "INFO" w in
                    match write_rows F csv_file_path headers data 0
                            (List.length data) w with
                    | (Some e, w) =>
                        (false, log_message (MsgUnexpected e) "ERROR" w)
                    | (None, w) =>
                        (true,
                         log_message (MsgConverted csv_file_path) "INFO" w)
                    end
                end
            end
        end
  end.

(** The loop of lines 211-222. *)
Fixpoint convert_all (F : fs) (output_folder : string) (json_files : list string)
  (success_count error_count : nat) (w : world) : nat * nat * world :=
  match json_files with
  | [] => (success_count, error_count, w)
  | json_file :: rest =>
      let w := log_message (MsgRule "-" 30) "INFO" w in
      let base_name :=
        fst (PosixPath.splitext (PosixPath.basename json_file)) in
      let csv_file := PosixPath.join output_folder (base_name ++ ".csv")%string in
      let (ok, w) := json_to_csv F json_file (Some csv_file) w in
      if ok
      then convert_all F output_folder rest (success_count + 1) error_count w
      else convert_all F output_folder rest success_count (error_count + 1) w
  end.

Definition process_folder (F : fs) (input_folder output_folder : string)
  (w : world) : world :=
  let w := log_message (MsgRule "=" 50) "INFO" w in
  let w := log_message MsgBatchStart "INFO" w in
  let w := log_message (MsgRule "=" 50) "INFO" w in
  if negb (path_exists F input_folder)
  then log_message MsgHintFolder "INFO"
         (log_message (MsgNoFolder input_folder) "ERROR" w)
  else
    let json_files := glob F (PosixPath.join input_folder "*.json") in
    match json_files with
    | [] => log_message MsgHintFiles "INFO"
              (log_message (MsgNoFiles input_folder) "WARNING" w)
    | _ =>
        let w := log_message (MsgCount (List.length json_files)) "INFO" w in
        let '(success_count, error_count, w) :=
          convert_all F output_folder json_files 0 0 w in
        let w := log_message (MsgRule "=" 50) "INFO" w in
        let w := log_message MsgSummary "INFO" w in
        let w := log_message (MsgSucceeded success_count) "INFO" w in
        let w := log_message (MsgFailed error_count) "INFO" w in
        let w := log_message (MsgTotal (List.length json_files)) "INFO" w in
        log_message (MsgRule "=" 50) "INFO" w
    end.

Definition main (F : fs) (w : world) : world :=
  let w := log_message MsgBoot "INFO" w in
  let w := log_message MsgUsage "INFO" w in
  let w := log_message (MsgUsage1 (INPUT_FOLDER F)) "INFO" w in
  let w := log_message MsgUsage2 "INFO" w in
  let w := log_message (MsgUsage3 (OUTPUT_FOLDER F)) "INFO" w in
  let w := log_message MsgBlank "INFO" w in
  process_folder F (INPUT_FOLDER F) (OUTPUT_FOLDER F) w.

(** The rows written to [path] since it was last opened. *)
Fixpoint rows_after (path : string) (tr : list event) (acc : list (list string))
  : list (list string) :=
  match tr with
  | [] => acc
  | EvOpen p :: tr' =>
      rows_after path tr' (if String.eqb p path then [] else acc)
  | EvRow p row :: tr' =>
      rows_after path tr' (if String.eqb p path then acc ++ [row] else acc)
  | _ :: tr' => rows_after path tr' acc
  end.

Definition content (path : string) (w : world) : list (list string) :=
  rows_after path (trace w) [].

(** The files opened for writing. *)
Definition opened (tr : list event) : list string :=
  flat_map (fun e => match e with EvOpen p => [p] | _ => [] end) tr.

Definition written (tr : list event) : list string :=
  flat_map (fun e => match e with EvRow p _ => [p] | _ => [] end) tr.

(** The list the rows are made from. *)
Definition items_of (data : json) : list json :=
  match data with JArr items => items | _ => [data] end.

(** The table made from [data]: the header, then one row for each
    item. *)
Definition table_of (F : fs) (data : json) : list (list string) :=
  let headers := collect_keys (items_of data) [] in
  headers :: map (row_of F headers) (items_of data).

(** The rows up to the first one that cannot be written. *)
Fixpoint until_failure (F : fs) (path : string) (rows : list (list string))
  : list (list string) :=
  match rows with
  | [] => []
  | row :: rest =>
      match writerow F path row with
      | Some _ => []
      | None => row :: until_failure F path rest
      end
  end.

Definition writable (F : fs) (path : string) (row : list string) : bool :=
  match writerow F path row with Some _ => false | None => true end.

(** Whether [json_to_csv] gets as far as opening the target: the file
    holds a value that counts as true, the directory of the target
    exists or can be made, and the target can be opened. *)
Definition target_opens (F : fs) (json_file_path csv_file_path : string)
  (w : world) : bool :=
  match load F json_file_path with
  | Loaded data =>
      truthy data
      && (let output_dir := PosixPath.dirname csv_file_path in
          if PyStr.nonempty output_dir && negb (exists_now F output_dir w)
          then match makedirs F output_dir with Some _ => false | None => true end
          else true)
      && match open_w F csv_file_path with Some _ => false | None => true end
  | _ => false
  end.

(** Whether [json_to_csv] gets to its end: the target opens and every
    row of the table can be written. *)
Definition convertible (F : fs) (json_file_path csv_file_path : string)
  (w : world) : bool :=
  target_opens F json_file_path csv_file_path w
  && match load F json_file_path with
     | Loaded data => forallb (writable F csv_file_path) (table_of F data)
     | _ => false
     end.

(** The tables reported as converted. *)
Definition converted (tr : list event) : list string :=
  flat_map (fun e => match e with
                     | EvLog _ (MsgConverted p) => [p]
                     | _ => []
                     end) tr.

(** The files [json_to_csv] was started on, by its first line. *)
Definition attempts (tr : list event) : list string :=
  flat_map (fun e => match e with
                     | EvLog _ (MsgLoadStart p) => [p]
                     | _ => []
                     end) tr.

(** The three counts of the summary of [process_folder]. *)
Definition summary (tr : list event) : list msg :=
  flat_map (fun e => match e with
                     | EvLog _ (MsgSucceeded n) => [MsgSucceeded n]
                     | EvLog _ (MsgFailed n) => [MsgFailed n]
                     | EvLog _ (MsgTotal n) => [MsgTotal n]
                     | _ => []
                     end) tr.

(** An event that is neither the first line of [json_to_csv] nor a line
    of the summary. *)
Definition inner (e : event) : bool :=
  match e with
  | EvLog _ (MsgLoadStart _) => false
  | EvLog _ (MsgSucceeded _) => false
  | EvLog _ (MsgFailed _) => false
  | EvLog _ (MsgTotal _) => false
  | _ => true
  end.

End Csv.

(** A folder with one file of two records, as the OCR step leaves them,
    and the name of a file that is not there. *)
Module CsvDemo.

Definition receipts : json :=
  JArr [JObj [(FILENAME_KEY, JStr "r1.jpg"); ("total", JInt 120)];
        JObj [(FILENAME_KEY, JStr "r2.jpg"); (ERROR_KEY, JStr ERROR_REASON)]].

Definition source : string := "/repo/data/json/202601010000.json".
Definition target : string := "/repo/data/csv/202601010000.csv".

(** A disk on which every JSON file holds [data]. *)
Definition disk_of (data : json) : Csv.fs :=
  Csv.mkFs "/repo/data/json" "/repo/data/csv"
    (fun _ => Csv.Loaded data)
    (fun _ => true)
    (fun _ => [source])
    (fun _ => None)
    (fun _ => None)
    (fun _ _ => None)
    (fun _ => "[]").

Definition disk : Csv.fs :=
  Csv.mkFs "/repo/data/json" "/repo/data/csv"
    (fun p => if String.eqb p source then Csv.Loaded receipts else Csv.NotFound)
    (fun p => String.eqb p "/repo/data/json")
    (fun _ => [source; "/repo/data/json/gone.json"])
    (fun _ => None)
    (fun _ => None)
    (fun _ _ => None)
    (fun _ => "[]").

(** A disk on which every JSON file holds [data] and a row with the
    cell [bad] cannot be written. *)
Definition picky_disk (data : json) (bad : string) : Csv.fs :=
  Csv.mkFs "/repo/data/json" "/repo/data/csv"
    (fun _ => Csv.Loaded data)
    (fun _ => true)
    (fun _ => [source])
    (fun _ => None)
    (fun _ => None)
    (fun _ row =>
       if existsb (String.eqb bad) row
       then Some "UnicodeEncodeError: surrogates not allowed"
       else None)
    (fun _ => "[]").

End CsvDemo.

(* ================================================================== *)
(** ** [src/1_pdf_to_jpg.py]: one image for each page                  *)
(* ================================================================== *)

Module Pdf.

(** The file system and the two libraries.  [convert_from_path] gives
    the number of pages of the document, or the text of the exception
    it raises; [save] gives the text of the exception [image.save]
    raises for a path, if any.  [os.makedirs] does not raise. *)
Record env : Type := mkEnv {
  input_folder : string;
  output_folder : string;
  libraries : bool;
  path_exists : string -> bool;
  glob : string -> list string;
  convert_from_path : string -> string + nat;
  save : string -> option string
}.

Inductive msg : Type :=
| MsgBanner
| MsgIntro
| MsgTarget
| MsgMissingLibraries
| MsgNoInput (input_folder : string)
| MsgOutput (output_folder : string)
| MsgNoPdf (input_folder : string)
| MsgCount (n : nat)
| MsgProcessing (base_name : string)
| MsgPages (total_pages : nat)
| MsgSaved (output_filename : string)
| MsgError (name e : string)
| MsgDone (output_folder : string).

Inductive event : Type :=
| EvPrint (m : msg)
| EvMkdirs (dir : string)
| EvSave (output_path : string).

(** [len(str(total_pages))] *)
Definition digits (total_pages : nat) : nat :=
  String.length (PyStr.decimal (N.of_nat total_pages)).

(** Lines 67-73: the name of the image of page [i]. *)
Definition output_filename (base_name : string) (total_pages i : nat) : string :=
  if (total_pages =? 1)%nat
  then (base_name ++ ".jpg")%string
  else (base_name ++ "_"
        ++ PyStr.zfill (digits total_pages) (PyStr.decimal (N.of_nat i))
        ++ ".jpg")%string.

(** The loop of lines 65-86 over the [todo] pages from page [i] on; it
    ends early with the exception of a [save]. *)
Fixpoint save_pages (V : env) (base_name : string) (total_pages todo i : nat)
  (tr : list event) : option string * list event :=
  match todo with
  | O => (None, tr)
  | S todo' =>
      let output_filename := output_filename base_name total_pages i in
      let output_path := PosixPath.join (output_folder V) output_filename in
      match save V output_path with
      | Some e => (Some e, tr)
      | None =>
          save_pages V base_name total_pages todo' (i + 1)
            (tr ++ [EvSave output_path; EvPrint (MsgSaved output_filename)])
      end
  end.

(** The body of the loop of lines 43-90 for one document. *)
Definition convert_one (V : env) (pdf_path : string) (tr : list event)
  : list event :=
  let base_name := fst (PosixPath.splitext (PosixPath.basename pdf_path)) in
  let tr := tr ++ [EvPrint (MsgProcessing base_name)] in
  match convert_from_path V pdf_path with
  | inl e => tr ++ [EvPrint (MsgError (PosixPath.basename pdf_path) e)]
  | inr total_pages =>
      let tr := tr ++ [EvPrint (MsgPages total_pages)] in
      match save_pages V base_name total_pages total_pages 1 tr with
      | (Some e, tr) => tr ++ [EvPrint (MsgError (PosixPath.basename pdf_path) e)]
      | (None, tr) => tr
      end
  end.

Definition pdf_to_jpg_converter (V : env) (tr : list event) : list event :=
  if negb (path_exists V (input_folder V))
  then tr ++ [EvPrint (MsgNoInput (input_folder V))]
  else
    let tr := tr ++ [EvMkdirs (output_folder V);
                     EvPrint (MsgOutput (output_folder V))] in
    match glob V (PosixPath.join (input_folder V) "*.pdf") with
    | [] => tr ++ [EvPrint (MsgNoPdf (input_folder V))]
    | pdf_files =>
        let tr := tr ++ [EvPrint (MsgCount (List.length pdf_files))] in
        let tr := fold_left (fun tr pdf_path => convert_one V pdf_path tr)
                    pdf_files tr in
        tr ++ [EvPrint (MsgDone (output_folder V))]
    end.

Definition main (V : env) : list event :=
  let tr := [EvPrint MsgBanner; EvPrint MsgIntro; EvPrint MsgTarget] in
  if libraries V
  then pdf_to_jpg_converter V tr
  else tr ++ [EvPrint MsgMissingLibraries].

(** The images written, and the documents the loop came to. *)
Definition saves (tr : list event) : list string :=
  flat_map (fun e => match e with EvSave p => [p] | _ => [] end) tr.

Definition started (tr : list event) : list string :=
  flat_map (fun e => match e with
                     | EvPrint (MsgProcessing b) => [b]
                     | _ => []
                     end) tr.

(** The names of the images of a document of [total_pages] pages. *)
Definition page_files (base_name : string) (total_pages : nat) : list string :=
  map (output_filename base_name total_pages) (seq 1 total_pages).

(** The paths up to the first one that cannot be saved. *)
Fixpoint until_failure (V : env) (paths : list string) : list string :=
  match paths with
  | [] => []
  | p :: rest =>
      match save V p with
      | Some _ => []
      | None => p :: until_failure V rest
      end
  end.

(** The images a document leaves: none when its conversion fails, else
    its pages from the first one up to the first that cannot be
    saved. *)
Definition images_of (V : env) (pdf_path : string) : list string :=
  match convert_from_path V pdf_path with
  | inl _ => []
  | inr total_pages =>
      until_failure V
        (map (PosixPath.join (output_folder V))
           (page_files (fst (PosixPath.splitext (PosixPath.basename pdf_path)))
              total_pages))
  end.

End Pdf.

(* ================================================================== *)
(** ** [src/続けて実行.py]: the three steps in a row                   *)
(* ================================================================== *)

Module Runner.

(** Whether a script is there, and the exit status of running it. *)
Record env : Type := mkEnv {
  script_exists : string -> bool;
  exit_status : string -> Z
}.

Inductive event : Type :=
| EvHeading (name script_path : string)
| EvRun (script_path : string)
| EvMissing (script_path : string)
| EvAllDone.

(** How [main] ends: it returns, [sys.exit(1)] ends it, or the
    [CalledProcessError] of [subprocess.run(..., check=True)] leaves
    it. *)
Inductive ending : Type :=
| Returned
| Exited (code : Z)
| Failed (script_path : string) (returncode : Z).

Definition steps (src_dir : string) : list (string * string) :=
  [("PDF -> JPG", PosixPath.join src_dir "1_pdf_to_jpg.py");
   ("JPG -> JSON (OCR)", PosixPath.join src_dir "2_jpg_to_json_byGeminiOCR.py");
   ("JSON -> CSV", PosixPath.join src_dir "3_json_to_csv.py")].

(** [run_step]: the heading, then the script; a status other than 0
    raises. *)
Definition run_step (V : env) (script_path name : string) (tr : list event)
  : option ending * list event :=
  let tr := tr ++ [EvHeading name script_path; EvRun script_path] in
  if exit_status V script_path =? 0
  then (None, tr)
  else (Some (Failed script_path (exit_status V script_path)), tr).

(** The loop of lines 20-24. *)
Fixpoint run_steps (V : env) (todo : list (string * string)) (tr : list event)
  : ending * list event :=
  match todo with
  | [] => (Returned, tr ++ [EvAllDone])
  | (name, script) :: rest =>
      if negb (script_exists V script)
      then (Exited 1, tr ++ [EvMissing script])
      else match run_step V script name tr with
           | (Some stop, tr) => (stop, tr)
           | (None, tr) => run_steps V rest tr
           end
  end.

Definition main (V : env) (src_dir : string) : ending * list event :=
  run_steps V (steps src_dir) [].

(** The scripts run. *)
Definition runs (tr : list event) : list string :=
  flat_map (fun e => match e with EvRun p => [p] | _ => [] end) tr.

End Runner.

(* ================================================================== *)
(** ** Facts about traces and the deque                                *)
(* ================================================================== *)

Section TraceFacts.

Lemma stamps_app (a b : list event) : stamps (a ++ b) = stamps a ++ stamps b.
Proof. unfold stamps. now rewrite flat_map_app. Qed.

Lemma dumps_app (a b : list event) : dumps (a ++ b) = dumps a ++ dumps b.
Proof. unfold dumps. now rewrite flat_map_app. Qed.

Lemma uploads_app (a b : list event) : uploads (a ++ b) = uploads a ++ uploads b.
Proof. unfold uploads. now rewrite flat_map_app. Qed.

Lemma persist_steps_app (a b : list event) :
  persist_steps (a ++ b) = (persist_steps a + persist_steps b)%nat.
Proof. unfold persist_steps. now rewrite filter_app, length_app. Qed.

Lemma clock_emit e w : clock (emit e w) = clock w.
Proof. reflexivity. Qed.

Lemma request_times_emit e w : request_times (emit e w) = request_times w.
Proof. reflexivity. Qed.

Lemma trace_emit e w : trace (emit e w) = trace w ++ [e].
Proof. reflexivity. Qed.

Lemma stamps_log level msg w :
  stamps (trace (log level msg w)) = stamps (trace w).
Proof. unfold log. rewrite trace_emit, stamps_app. simpl. apply app_nil_r. Qed.

End TraceFacts.

Section Purge.

Variable now : Z.

(** [purge] drops a prefix of entries, each older than the window. *)
Lemma purge_split (q : list Z) :
  exists dropped,
    q = dropped ++ purge now q /\
    Forall (fun t => t + WINDOW_SECONDS < now) dropped.
Proof.
  induction q as [|t q IH]; simpl.
  - exists []. split; [reflexivity | constructor].
  - destruct (WINDOW_SECONDS <? now - t) eqn:Hold.
    + destruct IH as [d [Heq Hd]].
      exists (t :: d). split.
      * simpl. now rewrite <- Heq.
      * constructor; [apply Z.ltb_lt in Hold; lia | exact Hd].
    + exists []. split; [reflexivity | constructor].
Qed.

Lemma purge_length (q : list Z) :
  (List.length (purge now q) <= List.length q)%nat.
Proof.
  destruct (purge_split q) as [d [Heq _]].
  rewrite Heq at 2. rewrite length_app. lia.
Qed.

(** What is left starts with an entry inside the window. *)
Lemma purge_head (q : list Z) (t : Z) :
  hd_error (purge now q) = Some t -> now - t <= WINDOW_SECONDS.
Proof.
  induction q as [|u q IH]; simpl; [discriminate|].
  destruct (WINDOW_SECONDS <? now - u) eqn:Hold; [exact IH|].
  simpl. intros [= ->]. apply Z.ltb_ge in Hold. exact Hold.
Qed.


(** Nothing is dropped from a deque whose first entry is inside the
    window. *)
Lemma purge_fresh (t : Z) (q : list Z) :
  now - t <= WINDOW_SECONDS -> purge now (t :: q) = t :: q.
Proof.
  intros H. simpl.
  assert (Hb : (WINDOW_SECONDS <? now - t) = false) by (apply Z.ltb_ge; lia).
  now rewrite Hb.
Qed.

End Purge.

(** The two ways through [wait_for_rate_slot]: a free slot, or a full
    window, in which case the function returns no earlier than a window
    after the oldest entry it kept. *)
Lemma wait_for_rate_slot_cases (tm : timing) (w : world) :
  let now := clock w + t_before tm in
  let q := purge now (request_times w) in
  let w' := wait_for_rate_slot tm w in
  ((List.length q < MAX_RPM)%nat /\
   clock w' = now /\ request_times w' = q /\ trace w' = trace w)
  \/
  ((MAX_RPM <= List.length q)%nat /\
   clock w' = Z.max now (hd 0 q + WINDOW_SECONDS) + t_oversleep tm /\
   request_times w' = purge (clock w') q /\
   stamps (trace w') = stamps (trace w)).
Proof.
  intros now q w'. subst w'. unfold wait_for_rate_slot.
  cbn [clock request_times elapse set_request_times].
  fold now. fold q.
  destruct (MAX_RPM <=? List.length q)%nat eqn:Hfull.
  - right. apply Nat.leb_le in Hfull. split; [exact Hfull|].
    destruct (0 <? WINDOW_SECONDS - (now - hd 0 q)) eqn:Hwait.
    + apply Z.ltb_lt in Hwait. cbn.
      rewrite stamps_app, stamps_app. cbn. rewrite !app_nil_r.
      replace (Z.max now (hd 0 q + WINDOW_SECONDS))
        with (now + (WINDOW_SECONDS - (now - hd 0 q))) by lia.
      fold now. auto.
    + apply Z.ltb_ge in Hwait. cbn.
      replace (Z.max now (hd 0 q + WINDOW_SECONDS)) with now by lia.
      fold now. auto.
  - left. apply Nat.leb_gt in Hfull. cbn. auto.
Qed.

(** [wait_for_rate_slot] prints and sleeps, nothing else. *)
Lemma wait_for_rate_slot_trace (tm : timing) (w : world) :
  exists evs,
    trace (wait_for_rate_slot tm w) = trace w ++ evs /\
    stamps evs = [] /\ uploads evs = [] /\ dumps evs = [].
Proof.
  unfold wait_for_rate_slot.
  cbn [clock request_times elapse set_request_times].
  destruct (MAX_RPM <=? _)%nat.
  - destruct (0 <? _).
    + eexists [_; _]. unfold sleep, log, emit, elapse, set_request_times.
      cbn [clock request_times trace]. rewrite <- app_assoc. cbn [app].
      repeat split; reflexivity.
    + exists []. cbn [trace]. rewrite app_nil_r. repeat split; reflexivity.
  - exists []. cbn [trace]. rewrite app_nil_r. repeat split; reflexivity.
Qed.

(** What [wait_for_rate_slot] leaves in the deque is the old deque
    without some expired entries at its front. *)
Lemma wait_for_rate_slot_drops (tm : timing) (w : world) :
  exists dropped,
    request_times w = dropped ++ request_times (wait_for_rate_slot tm w).
Proof.
  pose proof (wait_for_rate_slot_cases tm w) as Hc. cbn zeta in Hc.
  destruct (purge_split (clock w + t_before tm) (request_times w))
    as (d1 & Hq & _).
  destruct Hc as [(_ & _ & Hrt & _) | (_ & _ & Hrt & _)].
  - exists d1. now rewrite Hrt.
  - destruct (purge_split (clock (wait_for_rate_slot tm w))
                (purge (clock w + t_before tm) (request_times w)))
      as (d2 & Hq2 & _).
    exists (d1 ++ d2). rewrite Hrt, <- app_assoc, <- Hq2. exact Hq.
Qed.

(* ================================================================== *)
(** ** The rate window keeps its invariant                             *)
(* ================================================================== *)

Section Invariant.




Lemma Granted_emit (e : event) (w : world) :
  stamps [e] = [] -> Granted w -> Granted (emit e w).
Proof.
  intros He [Hh Hl Ho Hs].
  constructor; rewrite ?trace_emit, ?stamps_app, ?He, ?app_nil_r; auto.
Qed.








End Invariant.

(* ================================================================== *)
(** ** The script keeps the invariant                                  *)
(* ================================================================== *)

Section ScriptInvariant.

Variable E : env.



Hypothesis Hsane : sane_env E.







End ScriptInvariant.

(* ================================================================== *)
(** ** A run is a sequence of requests                                 *)
(* ================================================================== *)

Section RunsAreRequests.

Variable E : env.










End RunsAreRequests.

(* ================================================================== *)
(** ** Rate control: what is guaranteed                                *)
(* ================================================================== *)

Lemma filter_length_bound {A : Type} (f : A -> bool) (l : list A) :
  (List.length (filter f l) <= List.length l)%nat.
Proof.
  induction l as [|a l IH]; cbn; [lia|]. destruct (f a); cbn; lia.
Qed.



(** The assumption on the calls cannot be dropped: were the clock to
    read the same before and after nine calls in a row, five timestamps
    would be recorded at the same instant. *)
Lemma call_latency_needed :
  stamps (trace (serve (repeat (Sample.frozen, true) 9) (initial_world 0))) =
    [0; 0; 0; 0; 60; 60; 60; 60; 60].
Proof. reflexivity. Qed.

(** The deque and the clock after one pass through the retry loop. *)
Lemma attempt_once_window (E : env) (name : string) (attempt m : nat) (w : world) :
  let tm := fst (api E name attempt) in
  let res := snd (api E name attempt) in
  let wa := wait_for_rate_slot tm w in
  let w' := snd (attempt_once E name attempt m w) in
  clock w' = clock wa + t_call tm /\
  request_times w' =
    request_times wa ++ (if replied res then [clock wa + t_call tm] else []) /\
  stamps (trace w') =
    stamps (trace w) ++ (if replied res then [clock wa + t_call tm] else []) /\
  uploads (trace w') = uploads (trace w) ++ [name].
Proof.
  intros tm res wa w'.
  destruct (wait_for_rate_slot_trace tm w) as (evs & Htr & Hst & Hup & _).
  fold wa in Htr.
  subst w'. unfold attempt_once, handle_exception.
  subst tm res wa. destruct (api E name attempt) as [tm res]. cbn [fst snd] in *.
  set (wa := wait_for_rate_slot tm w) in *.
  destruct res as [e|e|resp]; cbn [replied].
  - destruct (is_rate_limit_error e); cbn -[Z.add wait_for_rate_slot];
      rewrite Htr, !stamps_app, !uploads_app, Hst, Hup; cbn;
      rewrite ?app_nil_r; auto.
  - destruct (is_rate_limit_error e); cbn -[Z.add wait_for_rate_slot];
      rewrite Htr, !stamps_app, !uploads_app, Hst, Hup; cbn;
      rewrite ?app_nil_r; auto.
  - destruct (extract_text_from_response resp) as [[[|c text]|]|e'];
      [| destruct (extract_json_loose E (String c text)) |
       | destruct (is_rate_limit_error e')];
      cbn -[Z.add wait_for_rate_slot];
      rewrite Htr, !stamps_app, !uploads_app, Hst, Hup; cbn;
      rewrite ?app_nil_r; auto.
Qed.



(** C9. On one attempt a timestamp is appended exactly when both calls
    to the service return: an attempt on which the upload or the
    generation raises ends with the deque as [wait_for_rate_slot] left
    it, which is the old deque without expired entries (the old deque
    itself when it is not full and nothing in it has expired), and
    records nothing, although the upload was started. *)
Theorem failed_call_takes_no_slot
  (E : env) (name : string) (attempt m : nat) (w : world) :
  let tm := fst (api E name attempt) in
  let res := snd (api E name attempt) in
  let wa := wait_for_rate_slot tm w in
  let w' := snd (attempt_once E name attempt m w) in
  match res with
  | Replies _ =>
      request_times w' = request_times wa ++ [clock w'] /\
      stamps (trace w') = stamps (trace w) ++ [clock w']
  | UploadRaises _ | GenerateRaises _ =>
      request_times w' = request_times wa /\
      stamps (trace w') = stamps (trace w) /\
      (exists dropped, request_times w = dropped ++ request_times w') /\
      (List.length (request_times w') <= List.length (request_times w))%nat /\
      ((List.length (request_times w) < MAX_RPM)%nat ->
       (forall t, hd_error (request_times w) = Some t ->
                  clock w + t_before tm - t <= WINDOW_SECONDS) ->
       request_times w' = request_times w)
  end
  /\ uploads (trace w') = uploads (trace w) ++ [name].
Proof.
  intros tm res wa w'.
  pose proof (attempt_once_window E name attempt m w) as H. cbn zeta in H.
  fold tm res wa w' in H. destruct H as (Hc & Hq & Hs & Hu).
  split; [|exact Hu].
  destruct (wait_for_rate_slot_drops tm w) as (dr & Hdr). fold wa in Hdr.
  assert (Hfree : (List.length (request_times w) < MAX_RPM)%nat ->
                  (forall t, hd_error (request_times w) = Some t ->
                             clock w + t_before tm - t <= WINDOW_SECONDS) ->
                  request_times wa = request_times w).
  { intros Hlen Hfresh. subst wa. unfold wait_for_rate_slot.
    cbn [clock request_times elapse set_request_times].
    assert (Hp : purge (clock w + t_before tm) (request_times w) = request_times w).
    { destruct (request_times w) as [|t q]; [reflexivity|].
      apply purge_fresh. apply Hfresh. reflexivity. }
    rewrite Hp. apply Nat.leb_gt in Hlen. now rewrite Hlen. }
  destruct res as [e|e|resp]; cbn [replied] in Hq, Hs;
    rewrite ?app_nil_r in Hq, Hs.
  - repeat split; auto.
    + exists dr. now rewrite Hq.
    + rewrite Hq, Hdr, length_app. lia.
    + intros Hlen Hfresh. rewrite Hq. now apply Hfree.
  - repeat split; auto.
    + exists dr. now rewrite Hq.
    + rewrite Hq, Hdr, length_app. lia.
    + intros Hlen Hfresh. rewrite Hq. now apply Hfree.
  - rewrite Hc. auto.
Qed.

(** When the service cannot be reached, a run uploads three times per
    image without ever waiting and leaves the deque empty. *)
Lemma offline_run_never_waits :
  let w' := main Sample.offline ["a.jpg"; "b.jpg"] (initial_world 0) in
  uploads (trace w') = ["a.jpg"; "a.jpg"; "a.jpg"; "b.jpg"; "b.jpg"; "b.jpg"] /\
  request_times w' = [] /\ clock w' = 6.
Proof. repeat split. Qed.

(* ================================================================== *)
(** ** The text of a reply                                             *)
(* ================================================================== *)

(** C7, as the code has it.  [extract_text_from_response] raises
    exactly when reading the attribute [text] of the reply raises: line
    99 reads it outside any [try], so the exception leaves the function
    (and is handled by [process_image]).  Every other exception, raised
    while the candidates are looked into or while the candidate or the
    reply is turned into a string, is swallowed.  When it does not
    raise, it returns [None] on [None], and otherwise the result of the
    first way that applies, in the order (a) the direct text when it is
    a string that is not blank, (b) the text of the first part of the
    first candidate when it is a string, blank or not, (c) the first
    candidate as a string, unless an exception was swallowed while the
    candidate was looked into, (d) the whole reply as a string.  The
    result is [None] exactly when the reply is [None] or no way applies;
    it is empty when the way that wins yields an empty string, whatever
    the later ways would give. *)
Theorem extract_text_first_applicable (resp : option response) :
  extract_text_from_response resp =
    match resp with
    | None => Extracted None
    | Some r =>
        match resp_text r with
        | TextRaises e => ExtractRaises e
        | _ =>
            Extracted
              (Paths.first_some
                 [Paths.direct r; Paths.first_part r;
                  Paths.candidate_str r; Paths.whole_str r])
        end
    end
  /\ (forall e,
        extract_text_from_response resp = ExtractRaises e <->
        exists r, resp = Some r /\ resp_text r = TextRaises e)
  /\ (extract_text_from_response resp = Extracted None <->
      match resp with
      | None => True
      | Some r =>
          (forall e, resp_text r <> TextRaises e) /\
          Paths.direct r = None /\ Paths.first_part r = None /\
          Paths.candidate_str r = None /\ Paths.whole_str r = None
      end)
  /\ (forall r first rest,
        resp = Some r ->
        (forall e, resp_text r <> TextRaises e) ->
        resp_candidates r = Holds (first :: rest) ->
        Paths.swallowed first = true ->
        extract_text_from_response resp =
          Extracted (Paths.first_some [Paths.direct r; Paths.whole_str r])).
Proof.
  assert (Heq : extract_text_from_response resp =
                match resp with
                | None => Extracted None
                | Some r =>
                    match resp_text r with
                    | TextRaises e => ExtractRaises e
                    | _ =>
                        Extracted
                          (Paths.first_some
                             [Paths.direct r; Paths.first_part r;
                              Paths.candidate_str r; Paths.whole_str r])
                    end
                end).
  { destruct resp as [[txt cands str]|]; [|reflexivity].
    unfold extract_text_from_response, from_candidates, Paths.direct,
      Paths.first_part, Paths.candidate_str, Paths.whole_str,
      Paths.first_candidate, Paths.swallowed.
    cbn [resp_text resp_candidates resp_str Paths.first_some].
    destruct txt as [| |t|e]; [| |destruct (PyStr.nonempty (PyStr.strip t))|];
      try reflexivity;
      destruct cands as [|[|[cc cs] rest]|e']; cbn [cand_content cand_str];
      try (destruct str; reflexivity);
      destruct cc as [|[pp]|e'']; cbn [content_parts];
      try (destruct cs, str; reflexivity);
      destruct pp as [|[|[pt] ps]|e3]; cbn [part_text];
      try (destruct cs, str; reflexivity);
      destruct pt, cs, str; reflexivity. }
  split; [exact Heq|]. split; [|split].
  - intros e. rewrite Heq. destruct resp as [r|].
    + destruct (resp_text r) eqn:Ht.
      1-3: (split; [discriminate
                   | intros (r' & [= <-] & Hr); rewrite Ht in Hr; discriminate]).
      split.
      * intros [= <-]. now exists r.
      * intros (r' & [= <-] & Hr). rewrite Ht in Hr. now injection Hr as ->.
    + split; [discriminate | intros (r & Hr & _); discriminate].
  - rewrite Heq. destruct resp as [r|]; [|tauto].
    cbn [Paths.first_some].
    destruct (resp_text r) eqn:Ht;
      destruct (Paths.direct r), (Paths.first_part r), (Paths.candidate_str r),
        (Paths.whole_str r); split; try discriminate; try tauto;
      try (intros (_ & H1 & H2 & H3 & H4); discriminate);
      try (intros _; repeat split; intros e'; discriminate);
      try (intros (H & _); exfalso; eapply H; reflexivity).
  - intros r first rest -> Hno Hc Hsw. rewrite Heq.
    assert (H1 : Paths.first_part r = None).
    { unfold Paths.first_part, Paths.first_candidate. rewrite Hc.
      unfold Paths.swallowed in Hsw.
      destruct (cand_content first) as [|c|e]; try reflexivity.
      destruct (content_parts c) as [|[|p0 ps]|e]; try reflexivity.
      destruct (part_text p0); try reflexivity. discriminate Hsw. }
    assert (H2 : Paths.candidate_str r = None).
    { unfold Paths.candidate_str, Paths.first_candidate. now rewrite Hc, Hsw. }
    cbn [Paths.first_some]. rewrite H1, H2.
    destruct (resp_text r) eqn:Ht; try reflexivity.
    exfalso. eapply Hno. reflexivity.
Qed.

(** C7, as the specification words it, fails twice.  The first part of
    the first candidate holds a blank string, so the text returned is
    empty, although the candidate and the reply as strings are not
    blank.  And a reply whose attribute [text] raises makes the function
    raise, while an exception inside the candidates is swallowed and
    the reply as a string is returned. *)
Lemma extract_text_blank_part_wins :
  extract_text_from_response (Some Sample.blank_part) =
    Extracted (Some EmptyString) /\
  Paths.candidate_str Sample.blank_part = Some "Candidate(...)" /\
  Paths.whole_str Sample.blank_part = Some "GenerateContentResponse(...)" /\
  extract_text_from_response (Some Sample.no_valid_part) =
    ExtractRaises "ValueError: the response holds no valid part" /\
  extract_text_from_response (Some Sample.broken_part) =
    Extracted (Some "GenerateContentResponse(...)").
Proof. repeat split. Qed.

(* ================================================================== *)
(** ** Loose extraction on valid JSON                                  *)
(* ================================================================== *)

(** C8. On a text that [json.loads] accepts, [extract_json_loose]
    returns the value [json.loads] gives, with no repair. *)
Theorem extract_json_loose_valid (E : env) (text : string) (v : json) :
  json_loads E text = Some v -> extract_json_loose E text = v.
Proof.
  intros H. unfold extract_json_loose. now rewrite H.
Qed.

Lemma extract_json_loose_valid_witness :
  extract_json_loose Sample.good "[1]" = JArr [JInt 1].
Proof.
  apply (extract_json_loose_valid Sample.good "[1]" (JArr [JInt 1])).
  reflexivity.
Defined.

(* ================================================================== *)
(** ** Facts about one image                                           *)
(* ================================================================== *)

Section OneImage.

Variable E : env.

(** The decision of an attempt depends on the service alone. *)
Lemma attempt_once_indep name attempt m m' w w' :
  fst (attempt_once E name attempt m w) = fst (attempt_once E name attempt m' w').
Proof.
  unfold attempt_once, handle_exception.
  destruct (api E name attempt) as [tm [e|e|resp]].
  - destruct (is_rate_limit_error e); reflexivity.
  - destruct (is_rate_limit_error e); reflexivity.
  - destruct (extract_text_from_response resp) as [[[|c text]|]|e];
      [| destruct (extract_json_loose E (String c text)) |
       | destruct (is_rate_limit_error e)]; reflexivity.
Qed.

Lemma retry_loop_outcome name m k w w' :
  fst (retry_loop E name m k w) = fst (retry_loop E name m k w').
Proof.
  revert w w'. induction k as [|k IH]; intros w w'; cbn [retry_loop]; [reflexivity|].
  pose proof (attempt_once_indep name (m - k) m m w w') as H.
  destruct (attempt_once E name (m - k) m w) as [s1 w1],
           (attempt_once E name (m - k) m w') as [s2 w2].
  cbn [fst] in H. subst s2. destruct s1; [apply IH | reflexivity].
Qed.

(** The outcome of [process_image] does not depend on the world. *)
Lemma process_image_outcome name w :
  fst (process_image E name MAX_RETRIES w) = outcome_of E name.
Proof. apply retry_loop_outcome. Qed.

(** An attempt that fails is followed by the next one. *)
Lemma attempt_fails_continue name attempt m w :
  attempt_fails E name attempt = true ->
  fst (attempt_once E name attempt m w) = Continue.
Proof.
  unfold attempt_fails, attempt_once, handle_exception.
  destruct (api E name attempt) as [tm [e|e|resp]]; cbn [snd].
  - destruct (is_rate_limit_error e); [discriminate | reflexivity].
  - destruct (is_rate_limit_error e); [discriminate | reflexivity].
  - destruct (extract_text_from_response resp) as [[[|c text]|]|e];
      [| destruct (extract_json_loose E (String c text)) |
       | destruct (is_rate_limit_error e)];
      try reflexivity; discriminate.
Qed.

(** When the attempts [m - k + 1 .. m] all fail, the loop runs out. *)
Lemma retry_loop_exhausted name m k w :
  (k <= m)%nat ->
  (forall a, (m - k < a <= m)%nat -> attempt_fails E name a = true) ->
  fst (retry_loop E name m k w) = Returns None.
Proof.
  revert w. induction k as [|k IH]; intros w Hk Hall; cbn [retry_loop]; [reflexivity|].
  assert (H1 : attempt_fails E name (m - k) = true) by (apply Hall; lia).
  pose proof (attempt_fails_continue name (m - k) m w H1) as Hc.
  destruct (attempt_once E name (m - k) m w) as [s1 w1]. cbn [fst] in Hc. subst s1.
  apply IH; [lia|]. intros a Ha. apply Hall. lia.
Qed.


(** A record that [process_image] returns was built by [build_record]. *)
Lemma retry_loop_returns name m k w od :
  fst (retry_loop E name m k w) = Returns (Some od) ->
  exists parsed, od = build_record name parsed.
Proof.
  revert w. induction k as [|k IH]; intros w; cbn [retry_loop]; [discriminate|].
  destruct (attempt_once E name (m - k) m w) as [s1 w1] eqn:Ha.
  destruct s1 as [|o]; [apply IH|]. cbn [fst]. intros ->.
  revert Ha. unfold attempt_once, handle_exception.
  destruct (api E name (m - k)) as [tm [e|e|resp]].
  - destruct (is_rate_limit_error e); discriminate.
  - destruct (is_rate_limit_error e); discriminate.
  - destruct (extract_text_from_response resp) as [[[|c text]|]|e];
      try discriminate;
      [|destruct (is_rate_limit_error e); discriminate].
    destruct (extract_json_loose E (String c text)) eqn:Hp; try discriminate;
      intros [= <- _];
      match type of Hp with _ = ?v => exists v end; reflexivity.
Qed.

End OneImage.

(* ================================================================== *)
(** ** Facts about records                                             *)
(* ================================================================== *)

Section Records.

Lemma get_set (k k' : string) (v : json) (od : record) :
  OD.get k (OD.set k' v od) = if String.eqb k k' then Some v else OD.get k od.
Proof.
  induction od as [|[k0 v0] od IH]; cbn.
  - reflexivity.
  - destruct (String.eqb k' k0) eqn:H0; cbn.
    + apply String.eqb_eq in H0. subst k0.
      destruct (String.eqb k k'); reflexivity.
    + destruct (String.eqb k k0) eqn:H1.
      * apply String.eqb_eq in H1. subst k0.
        rewrite String.eqb_sym in H0. now rewrite H0.
      * exact IH.
Qed.

Lemma get_app (k : string) (a b : record) :
  OD.get k (a ++ b) =
    match OD.get k a with Some v => Some v | None => OD.get k b end.
Proof.
  induction a as [|[k0 v0] a IH]; cbn; [reflexivity|].
  destruct (String.eqb k k0); [reflexivity | exact IH].
Qed.

(** After the assignments of [items], in order, a key holds the value of
    its last assignment, or what it held before. *)
Lemma get_update (k : string) (items : list (string * json)) (od : record) :
  OD.get k (OD.update items od) =
    match OD.get k (rev items) with Some v => Some v | None => OD.get k od end.
Proof.
  unfold OD.update. revert od.
  induction items as [|[k0 v0] items IH]; intros od; cbn [fold_left rev fst snd].
  - reflexivity.
  - rewrite IH, get_app, get_set. cbn [OD.get].
    destruct (OD.get k (rev items)); [reflexivity|].
    destruct (String.eqb k k0); reflexivity.
Qed.

(** An assignment does not move the first key. *)
Lemma keys_set_head (k k0 : string) (v : json) (od : record) :
  hd_error (OD.keys od) = Some k0 ->
  hd_error (OD.keys (OD.set k v od)) = Some k0.
Proof.
  destruct od as [|[k1 v1] od]; cbn; [discriminate|].
  intros [= ->]. destruct (String.eqb k k0); reflexivity.
Qed.

Lemma keys_update_head (k0 : string) (items : list (string * json)) (od : record) :
  hd_error (OD.keys od) = Some k0 ->
  hd_error (OD.keys (OD.update items od)) = Some k0.
Proof.
  unfold OD.update. revert od.
  induction items as [|[k v] items IH]; intros od H; cbn [fold_left fst snd].
  - exact H.
  - apply IH. apply keys_set_head. exact H.
Qed.

Lemma build_record_head (name : string) (parsed : json) :
  hd_error (OD.keys (build_record name parsed)) = Some FILENAME_KEY.
Proof.
  unfold build_record.
  destruct parsed; try reflexivity.
  apply keys_update_head. reflexivity.
Qed.

Lemma record_of_head (E : env) (name : string) (r : record) :
  record_of E name = Some r -> hd_error (OD.keys r) = Some FILENAME_KEY.
Proof.
  unfold record_of, outcome_of, process_image.
  destruct (fst (retry_loop E name MAX_RETRIES MAX_RETRIES (initial_world 0)))
    as [[od|]|e] eqn:Ho; intros [= <-].
  - apply retry_loop_returns in Ho. destruct Ho as [parsed ->].
    apply build_record_head.
  - reflexivity.
Qed.

End Records.

(* ================================================================== *)
(** ** Facts about the trace of a run                                  *)
(* ================================================================== *)

Section Growth.

Lemma grows_refl w : grows w w.
Proof. exists []. split; [now rewrite app_nil_r | constructor]. Qed.

Lemma grows_trans w1 w2 w3 : grows w1 w2 -> grows w2 w3 -> grows w1 w3.
Proof.
  intros (e1 & H1 & Q1) (e2 & H2 & Q2). exists (e1 ++ e2). split.
  - now rewrite H2, H1, app_assoc.
  - apply Forall_app. now split.
Qed.

Lemma grows_emit e w : quiet e -> grows w (emit e w).
Proof. intros H. exists [e]. split; [reflexivity | now constructor]. Qed.

Lemma grows_log level msg w :
  quiet (EvLog level msg) -> grows w (log level msg w).
Proof. apply grows_emit. Qed.

Lemma grows_same_trace w w' : trace w' = trace w -> grows w w'.
Proof. intros H. exists []. split; [now rewrite app_nil_r | constructor]. Qed.

Lemma quiet_events (evs : list event) :
  Forall quiet evs -> dumps evs = [] /\ persist_steps evs = 0%nat.
Proof.
  unfold persist_steps.
  induction 1 as [|e evs He _ [IHd IHp]]; [split; reflexivity|].
  destruct He as (He & _ & _). cbn. rewrite He. split; [|exact IHp].
  destruct e; try exact IHd. discriminate.
Qed.

Lemma quiet_events_end (evs : list event) :
  Forall quiet evs -> saved evs = [] /\ raised evs = [].
Proof.
  induction 1 as [|e evs He _ [IHs IHr]]; [split; reflexivity|].
  destruct He as (_ & Hs & Hr).
  change (e :: evs) with ([e] ++ evs).
  unfold saved, raised in *. rewrite !flat_map_app.
  rewrite Hs, Hr, IHs, IHr. split; reflexivity.
Qed.

Lemma grows_dumps w w' : grows w w' -> dumps (trace w') = dumps (trace w).
Proof.
  intros (evs & H & Q). rewrite H, dumps_app.
  rewrite (proj1 (quiet_events evs Q)). apply app_nil_r.
Qed.

Lemma grows_persist_steps w w' :
  grows w w' -> persist_steps (trace w') = persist_steps (trace w).
Proof.
  intros (evs & H & Q). rewrite H, persist_steps_app.
  rewrite (proj2 (quiet_events evs Q)). lia.
Qed.

Lemma grows_saved w w' :
  grows w w' ->
  saved (trace w') = saved (trace w) /\ raised (trace w') = raised (trace w).
Proof.
  intros (evs & H & Q). rewrite H. unfold saved, raised. rewrite !flat_map_app.
  destruct (quiet_events_end evs Q) as [Hs Hr]. unfold saved, raised in Hs, Hr.
  rewrite Hs, Hr, !app_nil_r. split; reflexivity.
Qed.


Lemma grows_wait_for_rate_slot tm w : grows w (wait_for_rate_slot tm w).
Proof.
  unfold wait_for_rate_slot.
  cbn [clock request_times elapse set_request_times].
  destruct (MAX_RPM <=? _)%nat; [|apply grows_same_trace; reflexivity].
  destruct (0 <? _); [|apply grows_same_trace; reflexivity].
  eexists [_; _]. unfold sleep, log, emit, elapse, set_request_times.
  cbn [clock request_times trace]. rewrite <- app_assoc. cbn [app].
  split; [reflexivity|]. repeat constructor.
Qed.

Variable E : env.

Lemma grows_attempt_once name attempt m w :
  grows w (snd (attempt_once E name attempt m w)).
Proof.
  unfold attempt_once, handle_exception.
  destruct (api E name attempt) as [tm res]. 
  eapply grows_trans; [apply (grows_wait_for_rate_slot tm)|].
  set (wa := wait_for_rate_slot tm w).
  destruct res as [e|e|resp].
  - destruct (is_rate_limit_error e); cbn [snd];
      eexists [_; _]; cbn; rewrite <- app_assoc; cbn;
      (split; [reflexivity | repeat constructor]).
  - destruct (is_rate_limit_error e); cbn [snd];
      eexists [_; _; _]; cbn; rewrite <- !app_assoc; cbn;
      (split; [reflexivity | repeat constructor]).
  - destruct (extract_text_from_response resp) as [[[|c text]|]|e];
      [| destruct (extract_json_loose E (String c text)) |
       | destruct (is_rate_limit_error e)]; cbn [snd];
      first [ eexists [_; _; _; _]; cbn; rewrite <- !app_assoc; cbn;
              (split; [reflexivity | repeat constructor])
            | eexists [_; _; _]; cbn; rewrite <- !app_assoc; cbn;
              (split; [reflexivity | repeat constructor]) ].
Qed.

Lemma grows_retry_loop name m k w : grows w (snd (retry_loop E name m k w)).
Proof.
  revert w. induction k as [|k IH]; intros w; cbn [retry_loop].
  - cbn [snd]. apply grows_log. repeat split.
  - pose proof (grows_attempt_once name (m - k) m w) as H.
    destruct (attempt_once E name (m - k) m w) as [[|o] w1]; cbn [snd] in *.
    + eapply grows_trans; [exact H | apply IH].
    + exact H.
Qed.

Lemma grows_process_image name m w : grows w (snd (process_image E name m w)).
Proof. apply grows_retry_loop. Qed.

Lemma grows_batch_loop todo idx total results w :
  grows w (snd (batch_loop E todo idx total results w)).
Proof.
  revert idx results w.
  induction todo as [|name rest IH]; intros idx results w; cbn [batch_loop].
  - apply grows_refl.
  - set (w0 := log "INFO" (MsgProcessing idx total name) w).
    assert (H0 : grows w w0) by (apply grows_log; repeat split).
    pose proof (grows_process_image name MAX_RETRIES w0) as H1.
    destruct (process_image E name MAX_RETRIES w0) as [[[od|]|e] w1];
      cbn [snd] in *.
    + eapply grows_trans; [exact H0|]. eapply grows_trans; [exact H1 | apply IH].
    + eapply grows_trans; [exact H0|]. eapply grows_trans; [exact H1 | apply IH].
    + eapply grows_trans; [exact H0|]. eapply grows_trans; [exact H1|].
      apply grows_log. repeat split.
Qed.

End Growth.

(* ================================================================== *)
(** ** Facts about the batch                                           *)
(* ================================================================== *)

Section Batch.

Variable E : env.

(** The loop appends the entries of the images up to the first fatal
    one, in order, and nothing else. *)
Lemma batch_loop_results todo idx total results w :
  fst (batch_loop E todo idx total results w) = results ++ collected E todo.
Proof.
  revert idx results w.
  induction todo as [|name rest IH]; intros idx results w;
    cbn [batch_loop collected].
  - cbn [fst]. now rewrite app_nil_r.
  - set (w0 := log "INFO" (MsgProcessing idx total name) w).
    pose proof (process_image_outcome E name w0) as Ho.
    unfold record_of. rewrite <- Ho.
    destruct (process_image E name MAX_RETRIES w0) as [[[od|]|e] w1];
      cbn [fst].
    + rewrite IH, <- app_assoc. reflexivity.
    + rewrite IH, <- app_assoc. reflexivity.
    + now rewrite app_nil_r.
Qed.

Lemma collected_processed todo :
  Forall2 (fun n r => record_of E n = Some r)
    (processed E todo) (collected E todo).
Proof.
  induction todo as [|name rest IH]; cbn; [constructor|].
  destruct (record_of E name) eqn:Hr; constructor; assumption.
Qed.

Lemma processed_prefix todo : exists rest, todo = processed E todo ++ rest.
Proof.
  induction todo as [|name rest [r IH]]; cbn; [now exists []|].
  destruct (record_of E name).
  - exists r. cbn. now rewrite <- IH.
  - now exists (name :: rest).
Qed.


Lemma processed_all todo :
  forallb (fun n => negb (fatal E n)) todo = true -> processed E todo = todo.
Proof.
  induction todo as [|name rest IH]; cbn; [reflexivity|].
  unfold fatal. destruct (record_of E name); cbn; [|discriminate].
  intros H. now rewrite IH.
Qed.

Lemma collected_until_fatal before name after :
  (forall n, In n before -> fatal E n = false) ->
  fatal E name = true ->
  processed E (before ++ name :: after) = before /\
  collected E (before ++ name :: after) = collected E before.
Proof.
  intros Hb Hf. induction before as [|n before IH]; cbn.
  - unfold fatal in Hf. destruct (record_of E name); [discriminate | now split].
  - assert (Hn : fatal E n = false) by (apply Hb; now left).
    unfold fatal in Hn. destruct (record_of E n); [|discriminate].
    destruct IH as [IH1 IH2]; [intros; apply Hb; now right|].
    now rewrite IH1, IH2.
Qed.

Lemma collected_full before :
  (forall n, In n before -> fatal E n = false) ->
  processed E before = before.
Proof.
  intros Hb. apply processed_all. apply forallb_forall.
  intros n Hn. now rewrite (Hb n Hn).
Qed.

Lemma collected_nth before name after r :
  (forall n, In n before -> fatal E n = false) ->
  record_of E name = Some r ->
  nth_error (collected E (before ++ name :: after)) (List.length before) = Some r.
Proof.
  intros Hb Hr. induction before as [|n before IH]; cbn.
  - now rewrite Hr.
  - assert (Hn : fatal E n = false) by (apply Hb; now left).
    unfold fatal in Hn. destruct (record_of E n); [|discriminate].
    cbn. apply IH. intros; apply Hb; now right.
Qed.




(** The events of [main] on a fresh world. *)
Lemma main_events listing t0 :
  let w0 := emit EvMkdirs (initial_world t0) in
  let files := image_files listing in
  let run := batch_loop E files 1 (List.length files) [] w0 in
  match files with
  | [] => trace (main E listing (initial_world t0)) =
            [EvMkdirs; EvLog "INFO" MsgNoImages]
  | _ => main E listing (initial_world t0) =
           emit (last_event (fst (persist E (fst run) (snd run))))
             (snd (persist E (fst run) (snd run)))
  end.
Proof.
  intros w0 files run. subst run. unfold main. fold w0. fold files.
  destruct files as [|f fs]; [reflexivity|].
  destruct (batch_loop E (f :: fs) 1 (List.length (f :: fs)) [] w0)
    as [results w1]. cbn [fst snd].
  destruct (persist E results w1) as [[e|] w2]; reflexivity.
Qed.

Lemma last_event_quiet (r : option string) :
  dumps [last_event r] = [] /\ persist_steps [last_event r] = 0%nat
  /\ stamps [last_event r] = [] /\ uploads [last_event r] = []
  /\ sleeps [last_event r] = [] /\ saved [last_event r] = [].
Proof. destruct r; repeat split. Qed.

Lemma persist_events results w :
  clock (snd (persist E results w)) = clock w /\
  persist_steps (trace (snd (persist E results w))) =
    S (persist_steps (trace w)) /\
  dumps (trace (snd (persist E results w))) =
    dumps (trace w) ++
    match results with
    | [] => []
    | _ => [(out_file_at E (clock w), results)]
    end.
Proof.
  unfold out_file_at. destruct results as [|r rs]; cbn [persist snd].
  - unfold log, emit. cbn [clock trace].
    rewrite persist_steps_app, dumps_app. cbn. rewrite app_nil_r.
    repeat split. lia.
  - destruct (json_dump E _ (r :: rs)); cbn [snd]; unfold log, emit;
      cbn [clock trace];
      rewrite !persist_steps_app, !dumps_app; cbn; rewrite ?app_nil_r;
      repeat split; lia.
Qed.

End Batch.

(* ================================================================== *)
(** ** The file names sort                                             *)
(* ================================================================== *)

Section Sorting.

Lemma insert_perm x l : Permutation (insert x l) (x :: l).
Proof.
  induction l as [|y l IH]; cbn; [reflexivity|].
  destruct (String.leb x y); [reflexivity|].
  rewrite IH. apply perm_swap.
Qed.

Lemma sorted_perm l : Permutation (sorted l) l.
Proof.
  induction l as [|x l IH]; cbn; [constructor|].
  rewrite insert_perm. now constructor.
Qed.

Lemma insert_hd x y l :
  le_name y x -> HdRel le_name y l -> HdRel le_name y (insert x l).
Proof.
  intros Hyx Hl. destruct l as [|z l]; cbn.
  - now constructor.
  - destruct (String.leb x z); constructor; [exact Hyx|].
    now inversion Hl.
Qed.

Lemma insert_sorted x l : Sorted le_name l -> Sorted le_name (insert x l).
Proof.
  induction 1 as [|y l Hs IH Hhd]; cbn.
  - repeat constructor.
  - destruct (String.leb x y) eqn:Hxy.
    + constructor; [now constructor | now constructor].
    + constructor; [exact IH|].
      apply insert_hd; [|exact Hhd].
      destruct (String.leb_total x y) as [H|H]; [congruence | exact H].
Qed.

Lemma sorted_sorted l : Sorted le_name (sorted l).
Proof.
  induction l as [|x l IH]; cbn; [constructor | now apply insert_sorted].
Qed.

Lemma ascii_compare_lt_trans (x y z : ascii) :
  Ascii.compare x y = Lt -> Ascii.compare y z = Lt -> Ascii.compare x z = Lt.
Proof.
  unfold Ascii.compare. rewrite !N.compare_lt_iff. lia.
Qed.

Lemma string_compare_trans (a b c : string) :
  String.compare a b <> Gt -> String.compare b c <> Gt ->
  String.compare a c <> Gt.
Proof.
  revert b c. induction a as [|x a IH]; intros [|y b] [|z c]; cbn;
    try congruence.
  destruct (Ascii.compare x y) eqn:Hxy; [| |congruence];
    (destruct (Ascii.compare y z) eqn:Hyz; [| |congruence]).
  - apply Ascii.compare_eq_iff in Hxy, Hyz. subst y z.
    replace (Ascii.compare x x) with Eq
      by (symmetry; unfold Ascii.compare; apply N.compare_refl).
    apply IH.
  - apply Ascii.compare_eq_iff in Hxy. subst y. rewrite Hyz. congruence.
  - apply Ascii.compare_eq_iff in Hyz. subst z. rewrite Hxy. congruence.
  - rewrite (ascii_compare_lt_trans x y z Hxy Hyz). congruence.
Qed.

Lemma le_name_trans (a b c : string) : le_name a b -> le_name b c -> le_name a c.
Proof.
  unfold le_name, String.leb. intros Hab Hbc.
  pose proof (string_compare_trans a b c) as H.
  destruct (String.compare a b); try discriminate;
    destruct (String.compare b c); try discriminate;
    destruct (String.compare a c); try reflexivity;
    exfalso; apply H; congruence.
Qed.

(** Every name in the sorted list is below every later one. *)
Lemma sorted_strongly l : StronglySorted le_name (sorted l).
Proof.
  apply Sorted_StronglySorted; [|apply sorted_sorted].
  intros a b c. apply le_name_trans.
Qed.

End Sorting.

(* ================================================================== *)
(** ** The batch: what is guaranteed                                   *)
(* ================================================================== *)

(** The list [results] of a run of [main]. *)
Lemma batch_results_collected (E : env) (listing : list string) (w : world) :
  batch_results E listing w = collected E (image_files listing).
Proof. unfold batch_results. now rewrite batch_loop_results. Qed.

(** C5. The image files are the entries of the directory with an image
    suffix, in byte-wise lexicographic order of their names; the entries
    of [results] are, position by position, the entries of the images up
    to the first fatal one, each image giving one entry whatever the
    number of attempts it took; every entry starts with the file-name
    key; and without a fatal error every image has its entry. *)
Theorem results_follow_sorted_names (E : env) (listing : list string) (t0 : Z) :
  let files := image_files listing in
  let results := batch_results E listing (initial_world t0) in
  StronglySorted le_name files
  /\ Permutation files (filter is_image listing)
  /\ (exists rest, files = processed E files ++ rest)
  /\ Forall2 (fun n r => record_of E n = Some r) (processed E files) results
  /\ Forall (fun r => hd_error (OD.keys r) = Some FILENAME_KEY) results
  /\ (forallb (fun n => negb (fatal E n)) files = true ->
      processed E files = files).
Proof.
  intros files results. subst results. rewrite batch_results_collected. fold files.
  pose proof (collected_processed E files) as H2.
  repeat split.
  - apply sorted_strongly.
  - apply sorted_perm.
  - apply processed_prefix.
  - exact H2.
  - induction H2 as [|n r ns rs Hr _ IH]; constructor; [|exact IH].
    eapply record_of_head. exact Hr.
  - apply processed_all.
Qed.




Lemma string_length_app (a b : string) :
  String.length (a ++ b)%string = (String.length a + String.length b)%nat.
Proof. induction a as [|c a IH]; cbn; [reflexivity | now rewrite IH]. Qed.

Lemma all_from_spec (f : N -> bool) (fuel : nat) (n m : N) :
  PyStr.all_from f fuel n = true ->
  (n <= m < n + N.of_nat fuel)%N -> f m = true.
Proof.
  revert n. induction fuel as [|k IH]; intros n H Hm; [lia|].
  cbn [PyStr.all_from] in H. apply andb_prop in H. destruct H as [H1 H2].
  destruct (N.eq_dec m n) as [->|Hne]; [exact H1|].
  rewrite Nat2N.inj_succ in Hm.
  apply (IH (N.succ n)); [exact H2 | lia].
Qed.

(** A number below [10 ^ w] fills exactly [w] places, for the two widths
    [strftime_YmdHM] uses. *)
Lemma zfill_width (w : nat) (n : N) :
  (w = 2%nat /\ n < 100 \/ w = 4%nat /\ n < 10000)%N ->
  String.length (PyStr.zfill w (PyStr.decimal n)) = w.
Proof.
  assert (H2 : PyStr.all_from
                 (fun n => String.length (PyStr.zfill 2 (PyStr.decimal n)) =? 2)%nat
                 100 0 = true) by (vm_compute; reflexivity).
  assert (H4 : PyStr.all_from
                 (fun n => String.length (PyStr.zfill 4 (PyStr.decimal n)) =? 4)%nat
                 10000 0 = true) by (vm_compute; reflexivity).
  assert (E2 : N.of_nat 100 = 100%N) by (vm_compute; reflexivity).
  assert (E4 : N.of_nat 10000 = 10000%N) by (vm_compute; reflexivity).
  intros [[-> Hn]|[-> Hn]].
  - apply Nat.eqb_eq. apply (all_from_spec _ _ _ n H2). rewrite E2. lia.
  - apply Nat.eqb_eq. apply (all_from_spec _ _ _ n H4). rewrite E4. lia.
Qed.

(** The shape YYYYMMDD_HHMM: thirteen characters for a four-digit year. *)
Lemma strftime_YmdHM_length (d : datetime) :
  (dt_year d < 10000 /\ dt_month d < 100 /\ dt_day d < 100 /\
   dt_hour d < 100 /\ dt_minute d < 100)%N ->
  String.length (strftime_YmdHM d) = 13%nat.
Proof.
  intros (Hy & Hmo & Hd & Hh & Hmi). unfold strftime_YmdHM.
  rewrite !string_length_app.
  rewrite (zfill_width 4 (dt_year d)), (zfill_width 2 (dt_month d)),
    (zfill_width 2 (dt_day d)), (zfill_width 2 (dt_hour d)),
    (zfill_width 2 (dt_minute d)) by (first [left; split; [reflexivity | assumption] | right; split; [reflexivity | assumption]]).
  reflexivity.
Qed.

(** C4, as the code has it.  On a run that has at least one image file
    the [finally] block runs exactly once, whether the loop ended
    normally or by the fatal error; on a run with no image file [main]
    returns before the loop and the block does not run.  When [results]
    is not empty the block opens one file, named after the time of
    writing, which the seconds do not change, and calls [json.dump] on
    it with all of [results] in order.  When [json.dump] completes, the
    file holds them, it is reported as saved and [main] ends with its
    closing line; when [json.dump] raises (on a string that cannot be
    encoded), the file is left cut off, nothing is reported as saved,
    and the exception leaves [main], which ends there.  When [results]
    is empty no file is opened and nothing is raised. *)
Theorem persist_once_per_batch (E : env) (listing : list string) (t0 : Z) :
  let w' := main E listing (initial_world t0) in
  let results := batch_results E listing (initial_world t0) in
  persist_steps (trace w') =
    match image_files listing with [] => 0%nat | _ => 1%nat end
  /\ dumps (trace w') =
       match results with
       | [] => []
       | _ => [(out_file_at E (clock w'), results)]
       end
  /\ match results with
     | [] => saved (trace w') = [] /\ raised (trace w') = []
     | _ =>
         match json_dump E (out_file_at E (clock w')) results with
         | None =>
             saved (trace w') = [out_file_at E (clock w')]
             /\ raised (trace w') = []
             /\ last (trace w') EvMkdirs = EvLog "INFO" MsgDone
         | Some e =>
             saved (trace w') = []
             /\ raised (trace w') = [e]
             /\ last (trace w') EvMkdirs = EvRaise e
         end
     end
  /\ (forall y mo d h mi s s',
        strftime_YmdHM (mkDatetime y mo d h mi s) =
        strftime_YmdHM (mkDatetime y mo d h mi s'))
  /\ (forall d,
        (dt_year d < 10000 /\ dt_month d < 100 /\ dt_day d < 100 /\
         dt_hour d < 100 /\ dt_minute d < 100)%N ->
        String.length (strftime_YmdHM d) = 13%nat).
Proof.
  intros w' results.
  split; [|split; [|split; [|split; [reflexivity | apply strftime_YmdHM_length]]]].
  - pose proof (main_events E listing t0) as Hm. cbn zeta in Hm.
    destruct (image_files listing) as [|f fs] eqn:Hf.
    + subst w'. rewrite Hm. reflexivity.
    + subst w'. rewrite Hm.
      rewrite trace_emit, persist_steps_app.
      destruct (persist_events E
                  (fst (batch_loop E (f :: fs) 1 (List.length (f :: fs)) []
                          (emit EvMkdirs (initial_world t0))))
                  (snd (batch_loop E (f :: fs) 1 (List.length (f :: fs)) []
                          (emit EvMkdirs (initial_world t0)))))
        as (_ & Hp & _).
      rewrite Hp.
      rewrite (grows_persist_steps _ _
                 (grows_batch_loop E (f :: fs) 1 (List.length (f :: fs)) []
                    (emit EvMkdirs (initial_world t0)))).
      rewrite (proj1 (proj2 (last_event_quiet _))).
      reflexivity.
  - pose proof (main_events E listing t0) as Hm. cbn zeta in Hm.
    subst results. unfold batch_results.
    destruct (image_files listing) as [|f fs] eqn:Hf.
    + subst w'. rewrite Hm. reflexivity.
    + set (run := batch_loop E (f :: fs) 1 (List.length (f :: fs)) []
                    (emit EvMkdirs (initial_world t0))) in *.
      subst w'. rewrite Hm.
      rewrite trace_emit, dumps_app, clock_emit.
      destruct (persist_events E (fst run) (snd run)) as (Hclk & _ & Hd).
      pose proof (grows_batch_loop E (f :: fs) 1 (List.length (f :: fs)) []
                    (emit EvMkdirs (initial_world t0))) as Hg.
      fold run in Hg.
      rewrite (proj1 (last_event_quiet _)), app_nil_r, Hd, Hclk.
      rewrite (grows_dumps _ _ Hg).
      cbn [dumps flat_map trace emit initial_world app].
      destruct (fst run); reflexivity.
  - pose proof (main_events E listing t0) as Hm. cbn zeta in Hm.
    subst results. unfold batch_results.
    destruct (image_files listing) as [|f fs] eqn:Hf.
    + subst w'. cbn [batch_loop fst]. rewrite Hm. split; reflexivity.
    + set (run := batch_loop E (f :: fs) 1 (List.length (f :: fs)) []
                    (emit EvMkdirs (initial_world t0))) in *.
      pose proof (grows_batch_loop E (f :: fs) 1 (List.length (f :: fs)) []
                    (emit EvMkdirs (initial_world t0))) as Hg.
      fold run in Hg. apply grows_saved in Hg.
      cbn [trace emit initial_world app saved raised flat_map] in Hg.
      destruct Hg as [Hs Hr].
      assert (Hclk : clock w' = clock (snd run)).
      { subst w'. rewrite Hm, clock_emit.
        apply (persist_events E (fst run) (snd run)). }
      rewrite Hclk. subst w'. rewrite Hm. clear Hm Hclk.
      unfold out_file_at.
      destruct (fst run) as [|r rs]; cbn [persist fst snd last_event].
      * unfold log. rewrite !trace_emit.
        unfold saved, raised in *. rewrite !flat_map_app, Hs, Hr.
        split; reflexivity.
      * destruct (json_dump E _ (r :: rs)) as [e|]; cbn [fst snd last_event];
          unfold log; rewrite !trace_emit;
          unfold saved, raised in *; rewrite !flat_map_app, Hs, Hr;
          (split; [reflexivity | split; [reflexivity|]]);
          rewrite last_last; reflexivity.
Qed.

(** C4, as the specification words it, fails twice.  On a directory
    without images the run ends with the [finally] block not run at
    all.  And when [json.dump] raises, the file is opened and left cut
    off, nothing is reported as saved, and the run ends with the
    exception instead of its closing line. *)
Lemma persist_skipped_example :
  trace (main Sample.good ["notes.txt"] (initial_world 0)) =
    [EvMkdirs; EvLog "INFO" MsgNoImages] /\
  persist_steps (trace (main Sample.good ["notes.txt"] (initial_world 0))) = 0%nat /\
  dumps (trace (main Sample.unencodable ["a.jpg"] (initial_world 0))) =
    [("20240102_0300.json", [[(FILENAME_KEY, JStr "a.jpg"); ("a", JInt 1)]])] /\
  saved (trace (main Sample.unencodable ["a.jpg"] (initial_world 0))) = [] /\
  raised (trace (main Sample.unencodable ["a.jpg"] (initial_world 0))) =
    ["UnicodeEncodeError: surrogates not allowed"] /\
  last (trace (main Sample.unencodable ["a.jpg"] (initial_world 0))) EvMkdirs =
    EvRaise "UnicodeEncodeError: surrogates not allowed".
Proof. repeat split. Qed.

(** A reply whose text cannot be read is handled by [process_image] as
    any other exception: the timestamp of the call has been recorded,
    the attempt is repeated, and the image ends with the failure
    entry. *)
Lemma unreadable_text_example :
  attempt_fails Sample.blocked "a.jpg" 1 = true /\
  record_of Sample.blocked "a.jpg" = Some (failure_record "a.jpg") /\
  stamps (trace (snd (process_image Sample.blocked "a.jpg" MAX_RETRIES
                        (initial_world 0)))) = [1; 2; 3].
Proof. repeat split. Qed.

(** C6. When every attempt for an image fails (an exception that is not
    a rate limit, an empty text, or a text that yields no JSON value),
    [process_image] returns [None] and the entry appended for the image
    holds exactly two fields: the file-name key with the name of the
    image, then the error key with the reason. *)
Theorem exhausted_retries_record
  (E : env) (listing : list string) (t0 : Z)
  (before : list string) (name : string) (after : list string) :
  image_files listing = before ++ name :: after ->
  (forall n, In n before -> fatal E n = false) ->
  (forall a, (1 <= a <= MAX_RETRIES)%nat -> attempt_fails E name a = true) ->
  outcome_of E name = Returns None /\
  nth_error (batch_results E listing (initial_world t0)) (List.length before) =
    Some [(FILENAME_KEY, JStr name); (ERROR_KEY, JStr ERROR_REASON)].
Proof.
  intros Hfiles Hb Hfail.
  assert (Ho : outcome_of E name = Returns None).
  { unfold outcome_of, process_image. apply retry_loop_exhausted; [lia|].
    intros a Ha. apply Hfail. lia. }
  split; [exact Ho|].
  rewrite batch_results_collected, Hfiles.
  apply collected_nth; [exact Hb|].
  unfold record_of. now rewrite Ho.
Qed.

Lemma exhausted_retries_record_witness :
  nth_error (batch_results Sample.garbage ["a.jpg"] (initial_world 0)) 0 =
    Some [(FILENAME_KEY, JStr "a.jpg"); (ERROR_KEY, JStr ERROR_REASON)].
Proof.
  refine (proj2 (exhausted_retries_record Sample.garbage ["a.jpg"] 0
                   [] "a.jpg" [] eq_refl _ _)).
  - intros n [].
  - intros a _. reflexivity.
Defined.

Lemma get_rev_none (k : string) (items : list (string * json)) :
  OD.get k items = None -> OD.get k (rev items) = None.
Proof.
  induction items as [|[k0 v0] items IH]; cbn; [reflexivity|].
  destruct (String.eqb k k0) eqn:Hk; [discriminate|].
  intros H. rewrite get_app, (IH H). cbn. now rewrite Hk.
Qed.

Lemma get_absent (k : string) (items : list (string * json)) :
  ~ In k (map fst items) -> OD.get k items = None.
Proof.
  induction items as [|[k0 v0] items IH]; cbn; [reflexivity|].
  intros H. destruct (String.eqb k k0) eqn:Hk.
  - apply String.eqb_eq in Hk. subst k0. exfalso. apply H. now left.
  - apply IH. intros Hin. apply H. now right.
Qed.

(** In a [dict], where no key repeats, the last assignment of a key is
    its only one. *)
Lemma get_rev_nodup (k : string) (items : list (string * json)) :
  NoDup (map fst items) -> OD.get k (rev items) = OD.get k items.
Proof.
  induction items as [|[k0 v0] items IH]; cbn; [reflexivity|].
  intros Hnd. inversion Hnd as [|? ? Hnotin Hnd']; subst.
  rewrite get_app, (IH Hnd'). cbn.
  destruct (String.eqb k k0) eqn:Hk.
  - apply String.eqb_eq in Hk. subst k0. now rewrite (get_absent _ _ Hnotin).
  - destruct (OD.get k items); reflexivity.
Qed.

(** C10. When the first reply parses to a mapping, [process_image]
    returns a record whose first key is the file-name key and whose value
    under that key is the entry of the mapping when the mapping has that
    key (the last one, should the list of items repeat it), and the name
    of the image when it has not. *)
Theorem reply_overrides_file_name
  (E : env) (name : string) (w : world)
  (tm : timing) (resp : option response) (text : string)
  (items : list (string * json)) :
  api E name 1 = (tm, Replies resp) ->
  extract_text_from_response resp = Extracted (Some text) ->
  text <> EmptyString ->
  extract_json_loose E text = JObj items ->
  exists od,
    fst (process_image E name MAX_RETRIES w) = Returns (Some od) /\
    record_of E name = Some od /\
    hd_error (OD.keys od) = Some FILENAME_KEY /\
    OD.get FILENAME_KEY od =
      Some (match OD.get FILENAME_KEY (rev items) with
            | Some v => v
            | None => JStr name
            end) /\
    (OD.get FILENAME_KEY items = None ->
     OD.get FILENAME_KEY od = Some (JStr name)) /\
    (forall v, OD.get FILENAME_KEY (rev items) = Some v ->
               OD.get FILENAME_KEY od = Some v) /\
    (forall v, NoDup (map fst items) ->
               OD.get FILENAME_KEY items = Some v ->
               OD.get FILENAME_KEY od = Some v).
Proof.
  intros Hapi Htext Hne Hparsed.
  assert (Hrun : forall w0, fst (process_image E name MAX_RETRIES w0) =
                            Returns (Some (build_record name (JObj items)))).
  { intros w0. unfold process_image. cbn [retry_loop MAX_RETRIES Nat.sub].
    unfold attempt_once. rewrite Hapi, Htext.
    destruct text as [|c text]; [congruence|]. rewrite Hparsed. reflexivity. }
  assert (Hget : OD.get FILENAME_KEY (build_record name (JObj items)) =
                 Some (match OD.get FILENAME_KEY (rev items) with
                       | Some v => v
                       | None => JStr name
                       end)).
  { unfold build_record. rewrite get_update.
    destruct (OD.get FILENAME_KEY (rev items)); reflexivity. }
  exists (build_record name (JObj items)).
  split; [apply Hrun|]. split; [|split; [apply build_record_head|]].
  - unfold record_of, outcome_of. now rewrite Hrun.
  - split; [exact Hget|]. split; [|split].
    + intros Hnone. rewrite Hget, (get_rev_none _ _ Hnone). reflexivity.
    + intros v Hv. rewrite Hget, Hv. reflexivity.
    + intros v Hnd Hv. rewrite Hget, (get_rev_nodup _ _ Hnd), Hv. reflexivity.
Qed.

Lemma reply_overrides_file_name_witness :
  exists od,
    fst (process_image Sample.echo "a.jpg" MAX_RETRIES (initial_world 0)) =
      Returns (Some od) /\
    OD.get FILENAME_KEY od = Some (JStr "x.jpg").
Proof.
  assert (Hne : Sample.text_echo <> EmptyString) by discriminate.
  destruct (reply_overrides_file_name Sample.echo "a.jpg" (initial_world 0)
              Sample.tick (Some (mkResponse (Text Sample.text_echo) Missing None))
              Sample.text_echo [(FILENAME_KEY, JStr "x.jpg")]
              eq_refl eq_refl Hne eq_refl)
    as (od & H1 & _ & _ & H2 & _).
  exists od. split; [exact H1 | exact H2].
Defined.

(* ================================================================== *)
(** ** Facts about texts                                               *)
(* ================================================================== *)

Section Texts.

Lemma has_app c a b : Chars.has c (a ++ b)%string = Chars.has c a || Chars.has c b.
Proof.
  induction a as [|d a IH]; cbn; [reflexivity|].
  rewrite IH. apply orb_assoc.
Qed.

Lemma string_app_assoc (a b c : string) :
  ((a ++ b) ++ c = a ++ (b ++ c))%string.
Proof. induction a as [|d a IH]; cbn; [reflexivity | now rewrite IH]. Qed.

Lemma string_app_nil_r (a : string) : (a ++ "")%string = a.
Proof. induction a as [|d a IH]; cbn; [reflexivity | now rewrite IH]. Qed.

Lemma prefix_cons c p d s :
  String.prefix (String c p) (String d s) = Ascii.eqb c d && String.prefix p s.
Proof.
  change (String.prefix (String c p) (String d s))
    with (if ascii_dec c d then String.prefix p s else false).
  destruct (ascii_dec c d) as [->|Hne].
  - now rewrite Ascii.eqb_refl.
  - apply Ascii.eqb_neq in Hne. now rewrite Hne.
Qed.

Lemma prefix_nil s : String.prefix EmptyString s = true.
Proof. now destruct s. Qed.

(** A one-character pattern is a prefix exactly of the texts that start
    with it. *)
Lemma prefix_char c d s :
  String.prefix (String c EmptyString) (String d s) = Ascii.eqb c d.
Proof. rewrite prefix_cons, prefix_nil. apply andb_true_r. Qed.

Lemma prefix_fence_head d s :
  Ascii.eqb Chars.BACKQUOTE d = false ->
  String.prefix Loose.FENCE (String d s) = false.
Proof.
  intros H. unfold Loose.FENCE. rewrite prefix_cons. now rewrite H.
Qed.

Lemma lstrip_app_blank ws s : Chars.blank ws = true -> PyStr.lstrip (ws ++ s) = PyStr.lstrip s.
Proof.
  induction ws as [|d ws IH]; cbn; [reflexivity|].
  intros H. apply andb_prop in H. destruct H as [Hd Hws].
  rewrite Hd. now apply IH.
Qed.

Lemma lstrip_app_solid a d s :
  PyStr.is_space d = false ->
  PyStr.lstrip (a ++ String d s) = (PyStr.lstrip a ++ String d s)%string.
Proof.
  intros Hd. induction a as [|e a IH]; cbn.
  - now rewrite Hd.
  - destruct (PyStr.is_space e); [exact IH | reflexivity].
Qed.

Lemma lstrip_idem s : PyStr.lstrip (PyStr.lstrip s) = PyStr.lstrip s.
Proof.
  induction s as [|d s IH]; cbn; [reflexivity|].
  destruct (PyStr.is_space d) eqn:Hd; [exact IH|]. cbn. now rewrite Hd.
Qed.

Lemma has_lstrip c s : Chars.has c s = false -> Chars.has c (PyStr.lstrip s) = false.
Proof.
  induction s as [|d s IH]; cbn; [reflexivity|].
  intros H. apply orb_false_elim in H. destruct H as [Hd Hs].
  destruct (PyStr.is_space d); [now apply IH|]. cbn. now rewrite Hd, Hs.
Qed.

Lemma length_lstrip s : (String.length (PyStr.lstrip s) <= String.length s)%nat.
Proof.
  induction s as [|d s IH]; cbn; [lia|].
  destruct (PyStr.is_space d); cbn; lia.
Qed.

End Texts.

Section Fences.

Lemma prefix_fence_app rest :
  String.prefix Loose.FENCE (Loose.FENCE ++ rest) = true.
Proof.
  unfold Loose.FENCE. cbn [String.append].
  rewrite !prefix_cons, prefix_nil. reflexivity.
Qed.

(** Without a backquote there is no fence. *)
Lemma search_fenced_none s :
  Chars.has Chars.BACKQUOTE s = false -> Loose.search_fenced s = None.
Proof.
  induction s as [|d s IH]; [reflexivity|].
  cbn [Chars.has Loose.search_fenced]. intros H.
  apply orb_false_elim in H. destruct H as [Hd Hs].
  rewrite (prefix_fence_head d s Hd). now apply IH.
Qed.

Lemma until_fence_app body post :
  Chars.has Chars.BACKQUOTE body = false ->
  Loose.until_fence (body ++ Loose.FENCE ++ post) = Some body.
Proof.
  induction body as [|d body IH]; intros H.
  - cbn [String.append]. pose proof (prefix_fence_app post) as Hp.
    unfold Loose.FENCE in *. cbn [String.append] in *.
    cbn [Loose.until_fence]. unfold Loose.FENCE. now rewrite Hp.
  - cbn [Chars.has] in H. apply orb_false_elim in H. destruct H as [Hd Hb].
    cbn [String.append Loose.until_fence].
    rewrite (prefix_fence_head d _ Hd). now rewrite (IH Hb).
Qed.

Lemma search_fenced_app pre rest g :
  Chars.has Chars.BACKQUOTE pre = false ->
  Loose.until_fence (PyStr.lstrip (Loose.skip_tag rest)) = Some g ->
  Loose.search_fenced (pre ++ Loose.FENCE ++ rest) = Some g.
Proof.
  intros Hpre Hg. induction pre as [|d pre IH].
  - cbn [String.append]. pose proof (prefix_fence_app rest) as Hp.
    unfold Loose.FENCE in *. cbn [String.append] in *.
    cbn [Loose.search_fenced]. unfold Loose.FENCE. rewrite Hp.
    cbn [PyStr.drop]. now rewrite Hg.
  - cbn [Chars.has] in Hpre. apply orb_false_elim in Hpre.
    destruct Hpre as [Hd Hp].
    cbn [String.append Loose.search_fenced].
    rewrite (prefix_fence_head d _ Hd). now apply IH.
Qed.

Lemma has_drop c n s : Chars.has c s = false -> Chars.has c (PyStr.drop n s) = false.
Proof.
  revert s. induction n as [|n IH]; intros s H; [exact H|].
  destruct s as [|d s]; [reflexivity|]. cbn [PyStr.drop].
  cbn [Chars.has] in H. apply orb_false_elim in H. now apply IH.
Qed.

Lemma has_skip_tag c s : Chars.has c s = false -> Chars.has c (Loose.skip_tag s) = false.
Proof.
  intros H. unfold Loose.skip_tag.
  destruct (String.eqb _ _); [now apply has_drop | exact H].
Qed.

(** The tag is looked for in the four characters after the opening
    fence; a closing fence among them rules it out. *)
Lemma skip_tag_app_fence inner post :
  Chars.has Chars.BACKQUOTE inner = false ->
  Loose.skip_tag (inner ++ Loose.FENCE ++ post) =
  (Loose.skip_tag inner ++ Loose.FENCE ++ post)%string.
Proof.
  intros H. unfold Loose.skip_tag, Loose.FENCE.
  destruct inner as [|c1 [|c2 [|c3 [|c4 inner]]]];
    cbn [String.append String.substring PyStr.lower PyStr.drop].
  - reflexivity.
  - cbn [String.eqb]. destruct (Ascii.eqb (PyStr.lower_char c1) "j"); reflexivity.
  - cbn [String.eqb]. destruct (Ascii.eqb (PyStr.lower_char c1) "j");
      [destruct (Ascii.eqb (PyStr.lower_char c2) "s")|]; reflexivity.
  - cbn [String.eqb]. destruct (Ascii.eqb (PyStr.lower_char c1) "j");
      [destruct (Ascii.eqb (PyStr.lower_char c2) "s");
       [destruct (Ascii.eqb (PyStr.lower_char c3) "o")|]|]; reflexivity.
  - assert (H0 : forall t, String.substring 0 0 t = EmptyString)
      by (intros t; now destruct t).
    rewrite !H0. destruct (String.eqb _ _); reflexivity.
Qed.

(** [group(1)] of the first fenced block: what stands between the first
    two fences, less the tag and the white space after it. *)
Lemma search_fenced_block pre inner post :
  Chars.has Chars.BACKQUOTE pre = false ->
  Chars.has Chars.BACKQUOTE inner = false ->
  Loose.search_fenced (pre ++ Loose.FENCE ++ inner ++ Loose.FENCE ++ post) =
  Some (PyStr.lstrip (Loose.skip_tag inner)).
Proof.
  intros Hpre Hin. apply search_fenced_app; [exact Hpre|].
  rewrite skip_tag_app_fence by exact Hin.
  unfold Loose.FENCE at 1. cbn [String.append].
  rewrite lstrip_app_solid by reflexivity.
  change (String "`" (String "`" (String "`" post)))
    with (Loose.FENCE ++ post)%string.
  apply until_fence_app. apply has_lstrip. now apply has_skip_tag.
Qed.

Lemma strip_lstrip s : PyStr.strip (PyStr.lstrip s) = PyStr.strip s.
Proof. unfold PyStr.strip. now rewrite lstrip_idem. Qed.

End Fences.

Section Brackets.

Variable c : ascii.

Let pat : string := String c EmptyString.

Lemma find_from_absent s i :
  Chars.has c s = false -> PyStr.find_from pat s i = -1.
Proof.
  revert i. induction s as [|d s IH]; intros i H; [reflexivity|].
  cbn [Chars.has] in H. apply orb_false_elim in H. destruct H as [Hd Hs].
  cbn [PyStr.find_from]. unfold pat. rewrite prefix_char, Hd. now apply IH.
Qed.

Lemma find_from_first pre rest i :
  Chars.has c pre = false ->
  PyStr.find_from pat (pre ++ String c rest) i = i + Z.of_nat (String.length pre).
Proof.
  revert i. induction pre as [|d pre IH]; intros i H.
  - cbn [String.append PyStr.find_from String.length]. unfold pat.
    rewrite prefix_char, Ascii.eqb_refl. lia.
  - cbn [Chars.has] in H. apply orb_false_elim in H. destruct H as [Hd Hp].
    cbn [String.append PyStr.find_from String.length]. unfold pat.
    rewrite prefix_char, Hd. fold pat. rewrite (IH _ Hp). lia.
Qed.

Lemma rfind_from_absent s i :
  Chars.has c s = false -> PyStr.rfind_from pat s i = -1.
Proof.
  revert i. induction s as [|d s IH]; intros i H; [reflexivity|].
  cbn [Chars.has] in H. apply orb_false_elim in H. destruct H as [Hd Hs].
  cbn [PyStr.rfind_from]. rewrite (IH _ Hs). cbn [Z.leb Z.compare].
  unfold pat. now rewrite prefix_char, Hd.
Qed.

Lemma rfind_from_last x post i :
  0 <= i ->
  Chars.has c post = false ->
  PyStr.rfind_from pat (x ++ String c post) i = i + Z.of_nat (String.length x).
Proof.
  revert i. induction x as [|d x IH]; intros i Hi H.
  - cbn [String.append PyStr.rfind_from String.length].
    rewrite (rfind_from_absent post _ H). cbn [Z.leb Z.compare].
    unfold pat. rewrite prefix_char, Ascii.eqb_refl. lia.
  - cbn [String.append PyStr.rfind_from String.length].
    rewrite (IH (i + 1)) by (lia || exact H).
    assert (Hle : (0 <=? i + 1 + Z.of_nat (String.length x)) = true)
      by (apply Z.leb_le; lia).
    rewrite Hle. lia.
Qed.

End Brackets.

Lemma substring_middle (a m b : string) :
  String.substring (String.length a) (String.length m) (a ++ m ++ b) = m.
Proof.
  induction a as [|d a IH]; cbn [String.length String.append String.substring].
  - induction m as [|e m IHm]; cbn [String.length String.append String.substring].
    + now destruct b.
    + now rewrite IHm.
  - exact IH.
Qed.

Section BracketedFacts.

Lemma string_length_cons c s : String.length (String c s) = S (String.length s).
Proof. reflexivity. Qed.

(** The slice from the first opening brace to the last closing one. *)
Lemma bracketed_object pre mid post :
  Chars.has Chars.LBRACE pre = false ->
  Chars.has Chars.RBRACE post = false ->
  Loose.bracketed (pre ++ String "{" (mid ++ String "}" post)) =
  Some (String "{" (mid ++ String "}" EmptyString)).
Proof.
  intros Hpre Hpost. unfold Loose.bracketed, PyStr.find, PyStr.rfind.
  set (text := (pre ++ String "{" (mid ++ String "}" post))%string).
  assert (Hs : PyStr.find_from "{" text 0 = Z.of_nat (String.length pre)).
  { unfold text. rewrite (find_from_first Chars.LBRACE pre _ 0 Hpre). lia. }
  assert (He : PyStr.rfind_from "}" text 0 =
               Z.of_nat (String.length pre + 1 + String.length mid)).
  { unfold text.
    replace (pre ++ String "{" (mid ++ String "}" post))%string
      with ((pre ++ String "{" mid) ++ String "}" post)%string
      by (rewrite string_app_assoc; reflexivity).
    rewrite (rfind_from_last Chars.RBRACE _ post 0) by (lia || exact Hpost).
    rewrite string_length_app, string_length_cons. lia. }
  rewrite Hs, He.
  assert (H1 : (Z.of_nat (String.length pre) =? -1) = false)
    by (apply Z.eqb_neq; lia).
  assert (H2 : (Z.of_nat (String.length pre + 1 + String.length mid) =? -1) = false)
    by (apply Z.eqb_neq; lia).
  assert (H3 : (Z.of_nat (String.length pre) <?
                Z.of_nat (String.length pre + 1 + String.length mid)) = true)
    by (apply Z.ltb_lt; lia).
  rewrite H1, H2, H3. cbn [negb andb]. f_equal.
  unfold PyStr.slice. rewrite Nat2Z.id.
  replace (Z.to_nat (Z.of_nat (String.length pre + 1 + String.length mid) + 1 -
                     Z.of_nat (String.length pre)))
    with (String.length (String "{" (mid ++ String "}" EmptyString)))
    by (rewrite string_length_cons, string_length_app, string_length_cons;
        cbn [String.length]; lia).
  unfold text.
  replace (pre ++ String "{" (mid ++ String "}" post))%string
    with (pre ++ String "{" (mid ++ String "}" EmptyString) ++ post)%string.
  - apply substring_middle.
  - cbn [String.append]. now rewrite string_app_assoc.
Qed.

(** Without braces, the slice from the first opening bracket to the last
    closing one. *)
Lemma bracketed_array pre mid post :
  Chars.has Chars.LBRACKET pre = false ->
  Chars.has Chars.RBRACKET post = false ->
  Chars.has Chars.LBRACE (pre ++ String "[" (mid ++ String "]" post)) = false ->
  Loose.bracketed (pre ++ String "[" (mid ++ String "]" post)) =
  Some (String "[" (mid ++ String "]" EmptyString)).
Proof.
  intros Hpre Hpost Hno. unfold Loose.bracketed, PyStr.find, PyStr.rfind.
  set (text := (pre ++ String "[" (mid ++ String "]" post))%string) in *.
  rewrite (find_from_absent Chars.LBRACE text 0 Hno).
  change (-1 =? -1) with true. cbn [negb andb].
  assert (Hs : PyStr.find_from "[" text 0 = Z.of_nat (String.length pre)).
  { unfold text. rewrite (find_from_first Chars.LBRACKET pre _ 0 Hpre). lia. }
  assert (He : PyStr.rfind_from "]" text 0 =
               Z.of_nat (String.length pre + 1 + String.length mid)).
  { unfold text.
    replace (pre ++ String "[" (mid ++ String "]" post))%string
      with ((pre ++ String "[" mid) ++ String "]" post)%string
      by (rewrite string_app_assoc; reflexivity).
    rewrite (rfind_from_last Chars.RBRACKET _ post 0) by (lia || exact Hpost).
    rewrite string_length_app, string_length_cons. lia. }
  rewrite Hs, He.
  assert (H1 : (Z.of_nat (String.length pre) =? -1) = false)
    by (apply Z.eqb_neq; lia).
  assert (H2 : (Z.of_nat (String.length pre + 1 + String.length mid) =? -1) = false)
    by (apply Z.eqb_neq; lia).
  assert (H3 : (Z.of_nat (String.length pre) <?
                Z.of_nat (String.length pre + 1 + String.length mid)) = true)
    by (apply Z.ltb_lt; lia).
  rewrite H1, H2, H3. cbn [negb andb]. f_equal.
  unfold PyStr.slice. rewrite Nat2Z.id.
  replace (Z.to_nat (Z.of_nat (String.length pre + 1 + String.length mid) + 1 -
                     Z.of_nat (String.length pre)))
    with (String.length (String "[" (mid ++ String "]" EmptyString)))
    by (rewrite string_length_cons, string_length_app, string_length_cons;
        cbn [String.length]; lia).
  unfold text.
  replace (pre ++ String "[" (mid ++ String "]" post))%string
    with (pre ++ String "[" (mid ++ String "]" EmptyString) ++ post)%string.
  - apply substring_middle.
  - cbn [String.append]. now rewrite string_app_assoc.
Qed.

(** No opening or no closing character of either kind: no candidate. *)
Lemma bracketed_none text :
  Chars.has Chars.LBRACE text && Chars.has Chars.RBRACE text = false ->
  Chars.has Chars.LBRACKET text && Chars.has Chars.RBRACKET text = false ->
  Loose.bracketed text = None.
Proof.
  intros Ho Ha. unfold Loose.bracketed, PyStr.find, PyStr.rfind.
  assert (H1 : negb (PyStr.find_from "{" text 0 =? -1) &&
               negb (PyStr.rfind_from "}" text 0 =? -1) = false).
  { apply andb_false_iff in Ho. destruct Ho as [H|H].
    - now rewrite (find_from_absent Chars.LBRACE text 0 H).
    - rewrite (rfind_from_absent Chars.RBRACE text 0 H). apply andb_false_r. }
  assert (H2 : negb (PyStr.find_from "[" text 0 =? -1) &&
               negb (PyStr.rfind_from "]" text 0 =? -1) = false).
  { apply andb_false_iff in Ha. destruct Ha as [H|H].
    - now rewrite (find_from_absent Chars.LBRACKET text 0 H).
    - rewrite (rfind_from_absent Chars.RBRACKET text 0 H). apply andb_false_r. }
  now rewrite H1, H2.
Qed.

End BracketedFacts.

Section Commas.

Lemma drop_succ n s : PyStr.drop (S n) s = PyStr.drop 1 (PyStr.drop n s).
Proof.
  revert s. induction n as [|n IH]; intros s; [reflexivity|].
  destruct s as [|d s]; [reflexivity|].
  change (PyStr.drop (S (S n)) (String d s)) with (PyStr.drop (S n) s).
  change (PyStr.drop (S n) (String d s)) with (PyStr.drop n s).
  apply IH.
Qed.

Lemma drop_lstrip s :
  PyStr.drop (String.length s - String.length (PyStr.lstrip s)) s = PyStr.lstrip s.
Proof.
  induction s as [|d s IH]; [reflexivity|].
  cbn [PyStr.lstrip]. destruct (PyStr.is_space d).
  - pose proof (length_lstrip s) as Hl.
    rewrite string_length_cons, Nat.sub_succ_l by exact Hl. exact IH.
  - now rewrite Nat.sub_diag.
Qed.

Lemma sub_skip k s :
  Loose.sub_trailing_commas k s = Loose.sub_trailing_commas 0 (PyStr.drop k s).
Proof.
  revert k. induction s as [|d s IH]; intros k.
  - now destruct k.
  - destruct k as [|k]; [reflexivity|]. cbn [Loose.sub_trailing_commas PyStr.drop].
    apply IH.
Qed.

(** [re.sub] one character at a time: a comma with, after white space, a
    closing brace behind it is replaced together with the white space and
    the brace by the brace; any other character is kept. *)
Lemma fix_commas_cons d s :
  Loose.fix_commas (String d s) =
  if Ascii.eqb d "," && String.prefix "}" (PyStr.lstrip s)
  then String "}" (Loose.fix_commas (PyStr.drop 1 (PyStr.lstrip s)))
  else String d (Loose.fix_commas s).
Proof.
  unfold Loose.fix_commas. cbn [Loose.sub_trailing_commas].
  destruct (Ascii.eqb d "," && String.prefix "}" (PyStr.lstrip s)); [|reflexivity].
  rewrite sub_skip, drop_succ, drop_lstrip. reflexivity.
Qed.

Lemma prefix_char_absent c s :
  Chars.has c s = false -> String.prefix (String c EmptyString) s = false.
Proof.
  destruct s as [|d s]; [reflexivity|]. cbn [Chars.has]. intros H.
  apply orb_false_elim in H. rewrite prefix_char. apply H.
Qed.

Lemma fix_commas_no_brace s :
  Chars.has Chars.RBRACE s = false -> Loose.fix_commas s = s.
Proof.
  induction s as [|d s IH]; [reflexivity|].
  cbn [Chars.has]. intros H. apply orb_false_elim in H. destruct H as [_ Hs].
  rewrite fix_commas_cons.
  rewrite (prefix_char_absent Chars.RBRACE _ (has_lstrip _ _ Hs)).
  rewrite andb_false_r. now rewrite (IH Hs).
Qed.

Lemma fix_commas_no_comma s :
  Chars.has Chars.COMMA s = false -> Loose.fix_commas s = s.
Proof.
  induction s as [|d s IH]; [reflexivity|].
  cbn [Chars.has]. intros H. apply orb_false_elim in H. destruct H as [Hd Hs].
  rewrite fix_commas_cons.
  rewrite Ascii.eqb_sym in Hd. rewrite Hd.
  cbn [andb]. now rewrite (IH Hs).
Qed.

Lemma sub_length k s :
  (String.length (Loose.sub_trailing_commas k s) <= String.length s)%nat.
Proof.
  revert k. induction s as [|d s IH]; intros k; [now destruct k|].
  cbn [Loose.sub_trailing_commas]. destruct k as [|k].
  - destruct (Ascii.eqb d "," && _); cbn [String.length];
      match goal with |- context [Loose.sub_trailing_commas ?j s] =>
        specialize (IH j) end; lia.
  - specialize (IH k). cbn [String.length]. lia.
Qed.

(** The match at a comma that is followed by white space and a brace. *)
Lemma fix_commas_match ws b :
  Chars.blank ws = true ->
  Loose.fix_commas (String "," (ws ++ String "}" b)) =
  String "}" (Loose.fix_commas b).
Proof.
  intros Hws. rewrite fix_commas_cons.
  rewrite (lstrip_app_blank ws _ Hws). cbn [PyStr.lstrip].
  change (PyStr.is_space "}") with false. cbn iota.
  rewrite prefix_char. reflexivity.
Qed.

(** A text that goes on with a comma: no match straddles the seam. *)
Lemma fix_commas_seam n a x :
  (String.length a <= n)%nat ->
  Loose.fix_commas (a ++ String "," x) =
  (Loose.fix_commas a ++ Loose.fix_commas (String "," x))%string.
Proof.
  remember (Loose.fix_commas (String "," x)) as tl eqn:Htl.
  revert a. induction n as [|n IH]; intros a Hn.
  - destruct a; [now rewrite Htl | cbn in Hn; lia].
  - destruct a as [|d a]; [now rewrite Htl|].
    cbn [String.append]. rewrite !fix_commas_cons.
    rewrite (lstrip_app_solid a "," x) by reflexivity.
    assert (Hsame : String.prefix "}" (PyStr.lstrip a ++ String "," x) =
                    String.prefix "}" (PyStr.lstrip a)).
    { destruct (PyStr.lstrip a) as [|e r]; [reflexivity|].
      cbn [String.append]. now rewrite !prefix_char. }
    rewrite Hsame.
    destruct (Ascii.eqb d "," && String.prefix "}" (PyStr.lstrip a)) eqn:Hc.
    + apply andb_prop in Hc. destruct Hc as [_ Hp].
      pose proof (length_lstrip a) as Hl.
      destruct (PyStr.lstrip a) as [|e r]; [discriminate|].
      cbn [String.append PyStr.drop]. cbn [String.append].
      rewrite (IH r) by (cbn in Hn, Hl; lia). reflexivity.
    + cbn [String.append]. rewrite (IH a) by (cbn in Hn; lia). reflexivity.
Qed.

End Commas.

(* ================================================================== *)
(** ** Loose extraction: the later stages                              *)
(* ================================================================== *)

(** X1. A text that [json.loads] rejects and that has no backquote, no
    pair of braces and no pair of square brackets yields [None]. *)
Theorem extract_json_loose_plain_text (E : env) (text : string) :
  json_loads E text = None ->
  Chars.has Chars.BACKQUOTE text = false ->
  Chars.has Chars.LBRACE text && Chars.has Chars.RBRACE text = false ->
  Chars.has Chars.LBRACKET text && Chars.has Chars.RBRACKET text = false ->
  extract_json_loose E text = JNull.
Proof.
  intros Hl Hq Ho Ha. unfold extract_json_loose.
  now rewrite Hl, (search_fenced_none text Hq), (bracketed_none text Ho Ha).
Qed.

Lemma extract_json_loose_plain_text_witness :
  extract_json_loose Sample.good "sorry, no receipt" = JNull.
Proof.
  apply (extract_json_loose_plain_text Sample.good "sorry, no receipt");
    reflexivity.
Defined.

(** X2. When [json.loads] rejects the whole text, the first pair of
    fences decides the second stage: what stands between them, less an
    optional tag [json] in any case and the white space around, is
    repaired and parsed, and a value so obtained is returned. *)
Theorem extract_json_loose_fenced
  (E : env) (pre inner post : string) (v : json) :
  let text := (pre ++ Loose.FENCE ++ inner ++ Loose.FENCE ++ post)%string in
  json_loads E text = None ->
  Chars.has Chars.BACKQUOTE pre = false ->
  Chars.has Chars.BACKQUOTE inner = false ->
  json_loads E (Loose.fix_commas (PyStr.strip (Loose.skip_tag inner))) = Some v ->
  extract_json_loose E text = v.
Proof.
  intros text Hl Hpre Hin Hv. unfold extract_json_loose. rewrite Hl.
  unfold text. rewrite (search_fenced_block pre inner post Hpre Hin).
  now rewrite strip_lstrip, Hv.
Qed.

Lemma extract_json_loose_fenced_witness :
  extract_json_loose Sample.good
    ("Here it is: " ++ Loose.FENCE ++ Demo.fenced_inner ++ Loose.FENCE ++ " Bye.")
  = JObj [("a", JInt 1)].
Proof.
  apply (extract_json_loose_fenced Sample.good "Here it is: "
           Demo.fenced_inner " Bye."); reflexivity.
Defined.

(** X3. When [json.loads] rejects the whole text and the text has no
    backquote, the third stage takes the text from the first opening
    brace to the last closing brace, repairs and parses it; when that
    fails the result is [None]: the square-bracket form is not tried,
    even where brackets enclose the braces. *)
Theorem extract_json_loose_braced (E : env) (pre mid post : string) :
  let text := (pre ++ String "{" (mid ++ String "}" post))%string in
  let cand := String "{" (mid ++ String "}" EmptyString) in
  json_loads E text = None ->
  Chars.has Chars.BACKQUOTE text = false ->
  Chars.has Chars.LBRACE pre = false ->
  Chars.has Chars.RBRACE post = false ->
  extract_json_loose E text =
    match json_loads E (Loose.fix_commas cand) with
    | Some v => v
    | None => JNull
    end.
Proof.
  intros text cand Hl Hq Hpre Hpost. unfold extract_json_loose.
  rewrite Hl, (search_fenced_none text Hq).
  unfold text. now rewrite (bracketed_object pre mid post Hpre Hpost).
Qed.

Lemma extract_json_loose_braced_witness :
  extract_json_loose Sample.good
    ("The receipt says " ++ String "{" (Sample.quoted "a" ++ ": 1" ++ String "}" ", I think."))
  = JObj [("a", JInt 1)].
Proof.
  apply (extract_json_loose_braced Sample.good "The receipt says "
           (Sample.quoted "a" ++ ": 1") ", I think."); reflexivity.
Defined.

(** X4. Without braces in the text, the third stage takes the text from
    the first opening square bracket to the last closing one. *)
Theorem extract_json_loose_bracketed (E : env) (pre mid post : string) :
  let text := (pre ++ String "[" (mid ++ String "]" post))%string in
  let cand := String "[" (mid ++ String "]" EmptyString) in
  json_loads E text = None ->
  Chars.has Chars.BACKQUOTE text = false ->
  Chars.has Chars.LBRACE text = false ->
  Chars.has Chars.LBRACKET pre = false ->
  Chars.has Chars.RBRACKET post = false ->
  extract_json_loose E text =
    match json_loads E (Loose.fix_commas cand) with
    | Some v => v
    | None => JNull
    end.
Proof.
  intros text cand Hl Hq Hno Hpre Hpost. unfold extract_json_loose.
  rewrite Hl, (search_fenced_none text Hq).
  unfold text. now rewrite (bracketed_array pre mid post Hpre Hpost Hno).
Qed.

Lemma extract_json_loose_bracketed_witness :
  extract_json_loose Sample.good "values: [1] and so on" = JArr [JInt 1].
Proof.
  apply (extract_json_loose_bracketed Sample.good "values: " "1" " and so on");
    reflexivity.
Defined.

(** X5. The repair removes a comma, the white space after it and puts
    the closing brace in their place, wherever they stand: the text
    before and the text after are repaired on their own. *)
Theorem fix_commas_removes_trailing_comma (a ws b : string) :
  Chars.blank ws = true ->
  Loose.fix_commas (a ++ String "," (ws ++ String "}" b)) =
  (Loose.fix_commas a ++ String "}" (Loose.fix_commas b))%string.
Proof.
  intros Hws.
  rewrite (fix_commas_seam (String.length a) a _ (Nat.le_refl _)).
  now rewrite (fix_commas_match ws b Hws).
Qed.

Lemma fix_commas_removes_trailing_comma_witness :
  Loose.fix_commas "{x: 1, y: 2,  } tail" = "{x: 1, y: 2} tail".
Proof.
  exact (fix_commas_removes_trailing_comma "{x: 1, y: 2" "  " " tail" eq_refl).
Defined.

(** X6. The repair never lengthens a text, and it leaves alone a text
    without a closing brace or without a comma: a trailing comma before
    a closing square bracket stays. *)
Theorem fix_commas_keeps (s : string) :
  (String.length (Loose.fix_commas s) <= String.length s)%nat /\
  (Chars.has Chars.RBRACE s && Chars.has Chars.COMMA s = false ->
   Loose.fix_commas s = s).
Proof.
  split; [apply sub_length|].
  intros H. apply andb_false_iff in H. destruct H as [H|H].
  - now apply fix_commas_no_brace.
  - now apply fix_commas_no_comma.
Qed.

(* ================================================================== *)
(** ** Classifying an exception                                        *)
(* ================================================================== *)

Lemma lower_app a b : PyStr.lower (a ++ b) = (PyStr.lower a ++ PyStr.lower b)%string.
Proof. induction a as [|c a IH]; cbn; [reflexivity | now rewrite IH]. Qed.

Lemma prefix_app_self m y : String.prefix m (m ++ y) = true.
Proof.
  induction m as [|c m IH]; cbn [String.append]; [apply prefix_nil|].
  now rewrite prefix_cons, Ascii.eqb_refl, IH.
Qed.

Lemma contains_prefix sub s : String.prefix sub s = true -> PyStr.contains sub s = true.
Proof. intros H. destruct s; cbn [PyStr.contains]; now rewrite H. Qed.

Lemma contains_app sub a b : PyStr.contains sub (a ++ sub ++ b) = true.
Proof.
  induction a as [|c a IH]; cbn [String.append].
  - apply contains_prefix, prefix_app_self.
  - cbn [PyStr.contains]. rewrite IH. now destruct (String.prefix _ _).
Qed.

(** X7. An exception whose text holds one of the markers anywhere, in
    any mix of upper and lower case, is classified as a rate limit. *)
Theorem is_rate_limit_error_anywhere (a marker b : string) :
  In (PyStr.lower marker) RATE_MARKERS ->
  is_rate_limit_error (a ++ marker ++ b) = true.
Proof.
  intros Hin. unfold is_rate_limit_error. apply existsb_exists.
  exists (PyStr.lower marker). split; [exact Hin|].
  rewrite !lower_app. apply contains_app.
Qed.

Lemma is_rate_limit_error_anywhere_witness :
  is_rate_limit_error "HTTP error: Too Many Requests (retry later)" = true.
Proof.
  apply (is_rate_limit_error_anywhere "HTTP error: " "Too Many Requests"
           " (retry later)").
  cbn. tauto.
Defined.

(* ================================================================== *)
(** ** The retry loop                                                  *)
(* ================================================================== *)

Section Retries.

Variable E : env.

(** The first attempt that does not end in [continue] decides. *)
Lemma retry_loop_decided name m k j o w :
  (k <= m)%nat ->
  (m - k < j <= m)%nat ->
  (forall a, (m - k < a < j)%nat -> attempt_fails E name a = true) ->
  fst (attempt_once E name j m (initial_world 0)) = Done o ->
  fst (retry_loop E name m k w) = o.
Proof.
  revert w. induction k as [|k IH]; intros w Hk Hj Hfail Hdone; [lia|].
  cbn [retry_loop].
  destruct (Nat.eq_dec j (m - k)) as [->|Hne].
  - rewrite (attempt_once_indep E name (m - k) m m _ w) in Hdone.
    destruct (attempt_once E name (m - k) m w) as [s1 w1]. cbn [fst] in Hdone.
    now subst s1.
  - assert (Hf : attempt_fails E name (m - k) = true) by (apply Hfail; lia).
    pose proof (attempt_fails_continue E name (m - k) m w Hf) as Hc.
    destruct (attempt_once E name (m - k) m w) as [s1 w1]. cbn [fst] in Hc.
    subst s1. apply IH; [lia | lia | | exact Hdone].
    intros a Ha. apply Hfail. lia.
Qed.

Lemma attempt_once_success name j m w tm resp text :
  api E name j = (tm, Replies resp) ->
  extract_text_from_response resp = Extracted (Some text) ->
  text <> EmptyString ->
  extract_json_loose E text <> JNull ->
  fst (attempt_once E name j m w) =
  Done (Returns (Some (build_record name (extract_json_loose E text)))).
Proof.
  intros Hapi Htext Hne Hparsed. unfold attempt_once. rewrite Hapi, Htext.
  destruct text as [|c text]; [congruence|].
  destruct (extract_json_loose E (String c text)); [congruence | ..];
    reflexivity.
Qed.

Lemma attempt_once_fatal name j m w e :
  snd (api E name j) = UploadRaises e \/ snd (api E name j) = GenerateRaises e ->
  is_rate_limit_error e = true ->
  fst (attempt_once E name j m w) = Done (Raises e).
Proof.
  intros Hres He. unfold attempt_once, handle_exception.
  destruct (api E name j) as [tm res]. cbn [snd] in Hres.
  destruct Hres as [-> | ->]; now rewrite He.
Qed.

End Retries.

(** X8. An image whose earlier attempts fail and whose [j]-th attempt,
    within [MAX_RETRIES], is answered with a text that yields a JSON
    value gets the record of that answer. *)
Theorem retry_recovers
  (E : env) (name : string) (j : nat)
  (tm : timing) (resp : option response) (text : string) :
  (1 <= j <= MAX_RETRIES)%nat ->
  (forall a, (1 <= a < j)%nat -> attempt_fails E name a = true) ->
  api E name j = (tm, Replies resp) ->
  extract_text_from_response resp = Extracted (Some text) ->
  text <> EmptyString ->
  extract_json_loose E text <> JNull ->
  record_of E name = Some (build_record name (extract_json_loose E text)).
Proof.
  intros Hj Hfail Hapi Htext Hne Hparsed.
  unfold record_of, outcome_of, process_image.
  rewrite (retry_loop_decided E name MAX_RETRIES MAX_RETRIES j
             (Returns (Some (build_record name (extract_json_loose E text)))));
    [reflexivity | lia | lia | |].
  - intros a Ha. apply Hfail. lia.
  - now apply (attempt_once_success E name j _ _ tm resp).
Qed.

Lemma retry_recovers_witness :
  record_of Demo.third_time_lucky "a.jpg" =
    Some [(FILENAME_KEY, JStr "a.jpg"); ("a", JInt 1)].
Proof.
  assert (Hne : Sample.text_a <> EmptyString) by discriminate.
  assert (Hp : extract_json_loose Demo.third_time_lucky Sample.text_a <> JNull)
    by discriminate.
  assert (Hf : forall a, (1 <= a < 3)%nat ->
                         attempt_fails Demo.third_time_lucky "a.jpg" a = true).
  { intros a Ha. assert (a = 1 \/ a = 2)%nat as [-> | ->] by lia; reflexivity. }
  exact (retry_recovers Demo.third_time_lucky "a.jpg" 3 Sample.tick
           (Some (mkResponse (Text Sample.text_a) Missing None)) Sample.text_a
           (conj (le_S _ _ (le_S _ _ (le_n 1))) (le_n 3)) Hf eq_refl eq_refl Hne Hp).
Defined.

(** X9. A rate-limit error on any attempt, the first or a retry after
    failed attempts, leaves [process_image] at once; the batch stops at
    that image, which gets no entry. *)
Theorem fatal_on_retry
  (E : env) (listing : list string) (t0 : Z)
  (before : list string) (name : string) (after : list string)
  (j : nat) (e : string) :
  image_files listing = before ++ name :: after ->
  (forall n, In n before -> fatal E n = false) ->
  (1 <= j <= MAX_RETRIES)%nat ->
  (forall a, (1 <= a < j)%nat -> attempt_fails E name a = true) ->
  snd (api E name j) = UploadRaises e \/ snd (api E name j) = GenerateRaises e ->
  is_rate_limit_error e = true ->
  outcome_of E name = Raises e /\
  batch_results E listing (initial_world t0) = collected E before /\
  List.length (batch_results E listing (initial_world t0)) = List.length before.
Proof.
  intros Hfiles Hb Hj Hfail Hres He.
  assert (Ho : outcome_of E name = Raises e).
  { unfold outcome_of, process_image.
    apply (retry_loop_decided E name MAX_RETRIES MAX_RETRIES j); [lia | lia | |].
    - intros a Ha. apply Hfail. lia.
    - now apply attempt_once_fatal. }
  assert (Hfatal : fatal E name = true)
    by (unfold fatal, record_of; now rewrite Ho).
  destruct (collected_until_fatal E before name after Hb Hfatal) as [Hp Hc].
  assert (Hr : batch_results E listing (initial_world t0) = collected E before)
    by (now rewrite batch_results_collected, Hfiles).
  split; [exact Ho|]. split; [exact Hr|].
  rewrite Hr. pose proof (collected_processed E before) as H2.
  rewrite (collected_full E before Hb) in H2.
  symmetry. eapply Forall2_length. exact H2.
Qed.

Lemma fatal_on_retry_witness :
  outcome_of Demo.refused_on_retry "a.jpg" = Raises "Quota exceeded" /\
  batch_results Demo.refused_on_retry ["a.jpg"] (initial_world 0) = [].
Proof.
  assert (Hb : forall n, In n [] -> fatal Demo.refused_on_retry n = false)
    by (intros n []).
  assert (Hf : forall a, (1 <= a < 2)%nat ->
                         attempt_fails Demo.refused_on_retry "a.jpg" a = true).
  { intros a Ha. assert (a = 1)%nat as -> by lia. reflexivity. }
  destruct (fatal_on_retry Demo.refused_on_retry ["a.jpg"] 0 [] "a.jpg" [] 2
              "Quota exceeded" eq_refl Hb
              (conj (le_S _ _ (le_n 1)) (le_S _ _ (le_n 2))) Hf
              (or_intror eq_refl) eq_refl) as (H1 & H2 & _).
  split; [exact H1 | exact H2].
Defined.

(** X10. A reply whose text is the valid JSON value [null] counts as a
    failed attempt: when every attempt is answered so, the image gets
    the failure entry. *)
Theorem null_reply_is_failure (E : env) (name : string) :
  (forall a, (1 <= a <= MAX_RETRIES)%nat ->
     exists tm resp text,
       api E name a = (tm, Replies resp) /\
       extract_text_from_response resp = Extracted (Some text) /\
       json_loads E text = Some JNull) ->
  record_of E name = Some (failure_record name).
Proof.
  intros H. unfold record_of, outcome_of, process_image.
  rewrite retry_loop_exhausted; [reflexivity | lia |].
  intros a Ha. destruct (H a) as (tm & resp & text & Hapi & Htext & Hnull); [lia|].
  unfold attempt_fails. rewrite Hapi. cbn [snd]. rewrite Htext.
  destruct text as [|c text]; [reflexivity|].
  unfold extract_json_loose. now rewrite Hnull.
Qed.

Lemma null_reply_is_failure_witness :
  record_of Demo.null_reply "a.jpg" =
    Some [(FILENAME_KEY, JStr "a.jpg"); (ERROR_KEY, JStr ERROR_REASON)].
Proof.
  apply (null_reply_is_failure Demo.null_reply "a.jpg").
  intros a _.
  exists Sample.tick, (Some (mkResponse (Text "null") Missing None)), "null".
  repeat split.
Defined.

(* ================================================================== *)
(** ** How often the service is called, and how long a run sleeps      *)
(* ================================================================== *)

Section Uploads.

Variable E : env.

Lemma retry_loop_uploads_count name m k w :
  exists j,
    (j <= k)%nat /\ (k = 0%nat \/ 1 <= j)%nat /\
    uploads (trace (snd (retry_loop E name m k w))) =
    uploads (trace w) ++ repeat name j.
Proof.
  revert w. induction k as [|k IH]; intros w; cbn [retry_loop].
  - exists 0%nat. cbn [snd repeat]. unfold log.
    rewrite trace_emit, uploads_app. cbn. rewrite !app_nil_r.
    repeat split; auto.
  - pose proof (attempt_once_window E name (m - k) m w) as H. cbn zeta in H.
    destruct H as (_ & _ & _ & Hu).
    destruct (attempt_once E name (m - k) m w) as [[|o] w1]; cbn [snd] in *.
    + destruct (IH w1) as (j & Hj & _ & Hup). exists (S j).
      rewrite Hup, Hu, <- app_assoc. cbn [repeat app].
      repeat split; [lia | right; lia].
    + exists 1%nat. rewrite Hu. repeat split; [lia | right; lia].
Qed.

Lemma uploads_by_cons name j files counts :
  uploads_by (name :: files) (j :: counts) = repeat name j ++ uploads_by files counts.
Proof. reflexivity. Qed.

(** The uploads of the loop: image by image, each image that is reached
    between once and [MAX_RETRIES] times. *)
Lemma batch_loop_uploads_by todo idx total results w :
  exists counts,
    (List.length counts <= List.length todo)%nat /\
    Forall (fun j => 1 <= j <= MAX_RETRIES)%nat counts /\
    uploads (trace (snd (batch_loop E todo idx total results w))) =
    uploads (trace w) ++ uploads_by todo counts.
Proof.
  revert idx results w.
  induction todo as [|name rest IH]; intros idx results w; cbn [batch_loop].
  - exists []. cbn. rewrite app_nil_r. repeat split; auto.
  - set (w0 := log "INFO" (MsgProcessing idx total name) w).
    assert (H0 : uploads (trace w0) = uploads (trace w)).
    { unfold w0, log. rewrite trace_emit, uploads_app. apply app_nil_r. }
    destruct (retry_loop_uploads_count name MAX_RETRIES MAX_RETRIES w0)
      as (j & Hj & Hj1 & Hup).
    fold (process_image E name MAX_RETRIES w0) in Hup.
    assert (Hj' : (1 <= j <= MAX_RETRIES)%nat)
      by (destruct Hj1 as [Hz|Hz]; [discriminate Hz | lia]).
    destruct (process_image E name MAX_RETRIES w0) as [[[od|]|e] w1];
      cbn [snd] in *.
    + destruct (IH (S idx) (results ++ [od]) w1) as (cs & Hl & Hc & Hu).
      exists (j :: cs). rewrite Hu, Hup, H0, uploads_by_cons, <- app_assoc.
      repeat split; [cbn; lia | now constructor].
    + destruct (IH (S idx) (results ++ [failure_record name]) w1)
        as (cs & Hl & Hc & Hu).
      exists (j :: cs). rewrite Hu, Hup, H0, uploads_by_cons, <- app_assoc.
      repeat split; [cbn; lia | now constructor].
    + exists [j]. unfold log. rewrite trace_emit, uploads_app. cbn [uploads flat_map].
      rewrite app_nil_r, Hup, H0, uploads_by_cons.
      assert (Hnil : uploads_by rest [] = []) by (now destruct rest).
      rewrite Hnil, app_nil_r.
      split; [cbn; lia|]. split; [|reflexivity].
      constructor; [exact Hj' | constructor].
Qed.

Lemma uploads_by_length files counts :
  Forall (fun j => 1 <= j <= MAX_RETRIES)%nat counts ->
  (List.length (uploads_by files counts) <= MAX_RETRIES * List.length files)%nat.
Proof.
  revert counts. induction files as [|n files IH]; intros counts Hc; [cbn; lia|].
  destruct counts as [|j counts]; [cbn; lia|].
  inversion Hc; subst. rewrite uploads_by_cons, length_app, repeat_length.
  specialize (IH counts H2). cbn [List.length]. lia.
Qed.

Lemma uploads_by_in files counts n :
  In n (uploads_by files counts) -> In n files.
Proof.
  revert counts. induction files as [|f files IH]; intros counts; [now cbn|].
  destruct counts as [|j counts]; [now cbn|].
  rewrite uploads_by_cons. intros H. apply in_app_or in H. destruct H as [H|H].
  - apply repeat_spec in H. left. now symmetry.
  - right. eapply IH. exact H.
Qed.

End Uploads.

Lemma image_files_in listing n :
  In n (image_files listing) <-> In n listing /\ is_image n = true.
Proof.
  unfold image_files. rewrite <- filter_In. split; intros H.
  - eapply Permutation_in; [apply sorted_perm | exact H].
  - eapply Permutation_in; [symmetry; apply sorted_perm | exact H].
Qed.

(** X11. A run uploads image by image in the sorted order, each image it
    reaches between once and [MAX_RETRIES] times; so it makes at most
    [MAX_RETRIES] uploads per image file, and it uploads nothing that is
    not an image file of the directory. *)
Theorem uploads_of_a_run (E : env) (listing : list string) (t0 : Z) :
  let files := image_files listing in
  let us := uploads (trace (main E listing (initial_world t0))) in
  (exists counts,
     (List.length counts <= List.length files)%nat /\
     Forall (fun j => 1 <= j <= MAX_RETRIES)%nat counts /\
     us = uploads_by files counts)
  /\ (List.length us <= MAX_RETRIES * List.length files)%nat
  /\ (forall n, In n us -> In n listing /\ is_image n = true).
Proof.
  intros files us.
  assert (H : exists counts,
             (List.length counts <= List.length files)%nat /\
             Forall (fun j => 1 <= j <= MAX_RETRIES)%nat counts /\
             us = uploads_by files counts).
  { subst us. pose proof (main_events E listing t0) as Hm. cbn zeta in Hm.
    fold files in Hm. destruct files as [|f fs] eqn:Hf.
    - exists []. rewrite Hm. repeat split; auto.
    - destruct (batch_loop_uploads_by E (f :: fs) 1 (List.length (f :: fs)) []
                  (emit EvMkdirs (initial_world t0))) as (cs & Hl & Hc & Hu).
      exists cs. split; [exact Hl|]. split; [exact Hc|].
      rewrite Hm. rewrite trace_emit, uploads_app.
      destruct (last_event_quiet
                  (fst (persist E
                          (fst (batch_loop E (f :: fs) 1
                                  (List.length (f :: fs)) []
                                  (emit EvMkdirs (initial_world t0))))
                          (snd (batch_loop E (f :: fs) 1
                                  (List.length (f :: fs)) []
                                  (emit EvMkdirs (initial_world t0)))))))
        as (_ & _ & _ & Hlu & _).
      rewrite Hlu, app_nil_r.
      assert (Hp : forall rs w,
                 uploads (trace (snd (persist E rs w))) = uploads (trace w)).
      { intros rs w. destruct rs as [|r rs]; cbn [persist snd];
          [|destruct (json_dump E _ (r :: rs)); cbn [snd]]; unfold log;
          rewrite ?trace_emit, ?uploads_app; cbn; now rewrite ?app_nil_r. }
      rewrite Hp, Hu. reflexivity. }
  split; [exact H|]. destruct H as (cs & Hl & Hc & Hu). split.
  - rewrite Hu. now apply uploads_by_length.
  - intros n Hn. rewrite Hu in Hn. apply uploads_by_in in Hn.
    now apply image_files_in.
Qed.

Section Sleeping.

Lemma sleeps_app (a b : list event) : sleeps (a ++ b) = sleeps a ++ sleeps b.
Proof. unfold sleeps. now rewrite flat_map_app. Qed.

Lemma Forall_past (l : list Z) (c c' : Z) :
  c <= c' -> Forall (fun t => t <= c) l -> Forall (fun t => t <= c') l.
Proof. intros Hc H. eapply Forall_impl; [|exact H]. cbn. intros; lia. Qed.

Lemma Forall_purge (P : Z -> Prop) now q : Forall P q -> Forall P (purge now q).
Proof.
  intros H. destruct (purge_split now q) as (d & Hq & _).
  rewrite Hq in H. apply Forall_app in H. apply H.
Qed.

Lemma Timely_initial t0 : Timely (initial_world t0).
Proof. constructor; cbn; auto. Qed.

Lemma Timely_log level msg w : Timely w -> Timely (log level msg w).
Proof.
  intros [Hp Hs Hc]. unfold log.
  constructor; rewrite ?clock_emit, ?request_times_emit, ?trace_emit,
    ?sleeps_app, ?uploads_app; cbn; rewrite ?app_nil_r; assumption.
Qed.

(** Asking for a slot: one sleep at most, no longer than the window. *)
Lemma wait_for_rate_slot_waited tm w :
  sane tm -> Timely w -> Waited (wait_for_rate_slot tm w).
Proof.
  intros (Hb & Ho & _) [Hp Hs Hc]. unfold wait_for_rate_slot.
  cbn [clock request_times elapse set_request_times].
  set (now := clock w + t_before tm).
  set (q := purge now (request_times w)).
  assert (Hq : Forall (fun t => t <= now) q).
  { apply Forall_purge. apply Forall_past with (c := clock w); [unfold now; lia | exact Hp]. }
  destruct (MAX_RPM <=? List.length q)%nat eqn:Hfull.
  - assert (Hhd : hd 0 q <= now).
    { destruct q as [|f q']; [cbn in Hfull; discriminate|].
      inversion Hq; subst. assumption. }
    destruct (0 <? WINDOW_SECONDS - (now - hd 0 q)) eqn:Hw.
    + apply Z.ltb_lt in Hw.
      unfold sleep, log, emit, elapse, set_request_times.
      cbn [clock request_times trace].
      constructor; cbn [clock request_times trace].
      * apply Forall_purge. apply Forall_past with (c := now); [lia | exact Hq].
      * rewrite !sleeps_app. cbn [sleeps flat_map app]. rewrite app_nil_r.
        apply Forall_app. split; [exact Hs|]. constructor; [lia | constructor].
      * rewrite !sleeps_app, !uploads_app, length_app.
        cbn [sleeps uploads flat_map app List.length].
        rewrite !app_nil_r. lia.
    + unfold elapse, set_request_times. cbn [clock request_times trace].
      fold now. constructor; cbn [clock request_times trace].
      * apply Forall_purge. apply Forall_past with (c := now); [lia | exact Hq].
      * exact Hs.
      * lia.
  - unfold elapse, set_request_times. cbn [clock request_times trace].
    fold now. fold q.
    constructor; cbn [clock request_times trace]; [exact Hq | exact Hs | lia].
Qed.

Variable E : env.
Hypothesis Hsane : sane_env E.

Lemma attempt_once_timely name attempt m w :
  Timely w -> Timely (snd (attempt_once E name attempt m w)).
Proof.
  intros Hw. unfold attempt_once, handle_exception.
  pose proof (Hsane name attempt) as Hs.
  destruct (api E name attempt) as [tm res]. cbn [fst] in Hs.
  pose proof (wait_for_rate_slot_waited tm w Hs Hw) as [Hp Hsl Hc].
  destruct Hs as (_ & _ & Hcall).
  set (wa := wait_for_rate_slot tm w) in *.
  assert (Hup : Timely (elapse (t_call tm) (emit (EvUpload name) wa))).
  { constructor; cbn [clock request_times trace elapse emit].
    - apply Forall_past with (c := clock wa); [lia | exact Hp].
    - rewrite sleeps_app. cbn [sleeps flat_map app]. rewrite ?app_nil_r. exact Hsl.
    - rewrite sleeps_app, uploads_app, !length_app.
      cbn [sleeps uploads flat_map app List.length]. lia. }
  assert (Hemit : forall e w1, sleeps [e] = [] -> uploads [e] = [] ->
                               Timely w1 -> Timely (emit e w1)).
  { intros e w1 He1 He2 [H1 H2 H3].
    constructor; rewrite ?clock_emit, ?request_times_emit, ?trace_emit,
      ?sleeps_app, ?uploads_app, ?He1, ?He2, ?app_nil_r; assumption. }
  assert (Hstamp : forall w1, Timely w1 -> Timely (stamp w1)).
  { intros w1 [H1 H2 H3]. unfold stamp.
    apply Hemit; [reflexivity | reflexivity |].
    constructor; cbn [clock request_times trace set_request_times]; auto.
    apply Forall_app. split; [exact H1|]. constructor; [lia | constructor]. }
  destruct res as [e|e|resp].
  - destruct (is_rate_limit_error e); cbn [snd]; now apply Timely_log.
  - destruct (is_rate_limit_error e); cbn [snd]; apply Timely_log;
      now apply Hemit.
  - assert (Hst : Timely (stamp (emit (EvGenerate name)
                                   (elapse (t_call tm) (emit (EvUpload name) wa)))))
      by (apply Hstamp; now apply Hemit).
    destruct (extract_text_from_response resp) as [[[|c text]|]|e];
      [| destruct (extract_json_loose E (String c text)) |
       | destruct (is_rate_limit_error e)]; cbn [snd];
      first [exact Hst | now apply Timely_log].
Qed.

Lemma retry_loop_timely name m k w :
  Timely w -> Timely (snd (retry_loop E name m k w)).
Proof.
  revert w. induction k as [|k IH]; intros w Hw; cbn [retry_loop].
  - cbn [snd]. now apply Timely_log.
  - pose proof (attempt_once_timely name (m - k) m w Hw) as H1.
    destruct (attempt_once E name (m - k) m w) as [[|o] w1]; cbn [snd] in *.
    + now apply IH.
    + exact H1.
Qed.

Lemma batch_loop_timely todo idx total results w :
  Timely w -> Timely (snd (batch_loop E todo idx total results w)).
Proof.
  revert idx results w.
  induction todo as [|name rest IH]; intros idx results w Hw;
    cbn [batch_loop]; [exact Hw|].
  pose proof (retry_loop_timely name MAX_RETRIES MAX_RETRIES
                (log "INFO" (MsgProcessing idx total name) w)
                (Timely_log _ _ _ Hw)) as H1.
  fold (process_image E name MAX_RETRIES
          (log "INFO" (MsgProcessing idx total name) w)) in H1.
  destruct (process_image E name MAX_RETRIES
              (log "INFO" (MsgProcessing idx total name) w)) as [[[od|]|e] w1];
    cbn [snd] in *.
  - now apply IH.
  - now apply IH.
  - now apply Timely_log.
Qed.

Lemma main_timely listing w : Timely w -> Timely (main E listing w).
Proof.
  intros Hw. unfold main.
  assert (H0 : Timely (emit EvMkdirs w)).
  { destruct Hw as [H1 H2 H3].
    constructor; rewrite ?clock_emit, ?request_times_emit, ?trace_emit,
      ?sleeps_app, ?uploads_app; cbn; rewrite ?app_nil_r; assumption. }
  destruct (image_files listing) as [|f files].
  - now apply Timely_log.
  - pose proof (batch_loop_timely (f :: files) 1 (List.length (f :: files)) []
                  _ H0) as H1.
    destruct (batch_loop E (f :: files) 1 (List.length (f :: files)) []
                (emit EvMkdirs w)) as [results w1]. cbn [snd] in H1.
    assert (Hemit : forall e w2, sleeps [e] = [] -> uploads [e] = [] ->
                                 Timely w2 -> Timely (emit e w2)).
    { intros e w2 He1 He2 [G1 G2 G3].
      constructor; rewrite ?clock_emit, ?request_times_emit, ?trace_emit,
        ?sleeps_app, ?uploads_app, ?He1, ?He2, ?app_nil_r; assumption. }
    assert (Hp : Timely (snd (persist E results w1))).
    { destruct results as [|r rs]; cbn [persist snd].
      - now apply Timely_log.
      - destruct (json_dump E _ (r :: rs)); cbn [snd];
          [|apply Timely_log]; now apply Hemit. }
    destruct (persist E results w1) as [[e|] w2]; cbn [snd] in Hp.
    + now apply Hemit.
    + now apply Timely_log.
Qed.

End Sleeping.

(** X12. Under a clock that does not run backwards, a run sleeps at most
    once per upload, each time for a positive time no longer than
    [WINDOW_SECONDS], and no timestamp in the deque lies in the future
    when it ends. *)
Theorem sleeps_of_a_run (E : env) (listing : list string) (t0 : Z) :
  sane_env E ->
  let w' := main E listing (initial_world t0) in
  Forall (fun d => 0 < d <= WINDOW_SECONDS) (sleeps (trace w'))
  /\ (List.length (sleeps (trace w')) <= List.length (uploads (trace w')))%nat
  /\ Forall (fun t => t <= clock w') (request_times w').
Proof.
  intros HE w'.
  destruct (main_timely E HE listing (initial_world t0) (Timely_initial t0))
    as [H1 H2 H3].
  auto.
Qed.

Lemma sleeps_of_a_run_witness :
  sleeps (trace (main Sample.good Sample.five (initial_world 0))) = [57] /\
  Forall (fun d => 0 < d <= WINDOW_SECONDS)
    (sleeps (trace (main Sample.good Sample.five (initial_world 0)))).
Proof.
  assert (HE : sane_env Sample.good)
    by (intros name attempt; unfold sane; cbn; lia).
  split; [reflexivity|].
  exact (proj1 (sleeps_of_a_run Sample.good Sample.five 0 HE)).
Defined.

(** X13. With fewer than [MAX_RPM] timestamps in the deque,
    [wait_for_rate_slot] returns at once: it prints nothing, does not
    sleep, and only drops expired timestamps. *)
Theorem wait_for_rate_slot_free (tm : timing) (w : world) :
  (List.length (request_times w) < MAX_RPM)%nat ->
  let w' := wait_for_rate_slot tm w in
  trace w' = trace w /\
  clock w' = clock w + t_before tm /\
  request_times w' = purge (clock w + t_before tm) (request_times w).
Proof.
  intros Hlen w'. subst w'.
  pose proof (wait_for_rate_slot_cases tm w) as Hc. cbn zeta in Hc.
  pose proof (purge_length (clock w + t_before tm) (request_times w)) as Hp.
  destruct Hc as [(_ & H1 & H2 & H3) | (Hfull & _)]; [auto | lia].
Qed.

Lemma wait_for_rate_slot_free_witness :
  trace (wait_for_rate_slot Sample.tick
           (serve (repeat (Sample.tick, true) 3) (initial_world 0))) =
  trace (serve (repeat (Sample.tick, true) 3) (initial_world 0)).
Proof.
  refine (proj1 (wait_for_rate_slot_free Sample.tick
                   (serve (repeat (Sample.tick, true) 3) (initial_world 0)) _)).
  cbn. unfold MAX_RPM. lia.
Defined.

(* ================================================================== *)
(** ** The shape of a record                                           *)
(* ================================================================== *)

Section RecordShape.

Lemma keys_set_in (k x : string) (v : json) (od : record) :
  In x (OD.keys (OD.set k v od)) -> x = k \/ In x (OD.keys od).
Proof.
  induction od as [|[k0 v0] od IH]; cbn.
  - intros [<-|[]]. now left.
  - destruct (String.eqb k k0) eqn:Hk; cbn.
    + intros [<-|H]; right; [now left | now right].
    + intros [<-|H]; [right; now left|].
      destruct (IH H) as [->|Hin]; [now left | right; now right].
Qed.

Lemma keys_set_nodup (k : string) (v : json) (od : record) :
  NoDup (OD.keys od) -> NoDup (OD.keys (OD.set k v od)).
Proof.
  induction od as [|[k0 v0] od IH]; cbn; intros Hnd.
  - repeat constructor. intros [].
  - inversion Hnd as [|? ? Hnotin Hnd']; subst.
    destruct (String.eqb k k0) eqn:Hk; cbn.
    + now constructor.
    + constructor; [|now apply IH].
      intros Hin. apply keys_set_in in Hin. destruct Hin as [->|Hin].
      * now rewrite String.eqb_refl in Hk.
      * contradiction.
Qed.

Lemma keys_update_nodup (items : list (string * json)) (od : record) :
  NoDup (OD.keys od) -> NoDup (OD.keys (OD.update items od)).
Proof.
  unfold OD.update. revert od.
  induction items as [|[k v] items IH]; intros od H; cbn [fold_left fst snd];
    [exact H|].
  apply IH. now apply keys_set_nodup.
Qed.

Lemma build_record_nodup (name : string) (parsed : json) :
  NoDup (OD.keys (build_record name parsed)).
Proof.
  unfold build_record.
  assert (H0 : NoDup (OD.keys (OD.set FILENAME_KEY (JStr name) [])))
    by (apply keys_set_nodup; constructor).
  destruct parsed; try (apply keys_set_nodup; exact H0).
  now apply keys_update_nodup.
Qed.

Lemma record_of_nodup (E : env) (name : string) (r : record) :
  record_of E name = Some r -> NoDup (OD.keys r).
Proof.
  unfold record_of, outcome_of, process_image.
  destruct (fst (retry_loop E name MAX_RETRIES MAX_RETRIES (initial_world 0)))
    as [[od|]|e] eqn:Ho; intros [= <-].
  - apply retry_loop_returns in Ho. destruct Ho as [parsed ->].
    apply build_record_nodup.
  - cbn. repeat constructor; cbn; [|tauto].
    intros [H|[]]. discriminate H.
Qed.

Lemma set_fresh (k : string) (v : json) (od : record) :
  ~ In k (OD.keys od) -> OD.set k v od = od ++ [(k, v)].
Proof.
  induction od as [|[k0 v0] od IH]; cbn; [reflexivity|].
  intros H. destruct (String.eqb k k0) eqn:Hk.
  - apply String.eqb_eq in Hk. subst k0. exfalso. apply H. now left.
  - rewrite IH; [reflexivity|]. intros Hin. apply H. now right.
Qed.

(** Assigning keys that are new and distinct appends them in order. *)
Lemma update_fresh (items : list (string * json)) (od : record) :
  NoDup (map fst items) ->
  (forall k, In k (map fst items) -> ~ In k (OD.keys od)) ->
  OD.update items od = od ++ items.
Proof.
  unfold OD.update. revert od.
  induction items as [|[k v] items IH]; intros od Hnd Hfresh;
    cbn [fold_left fst snd map].
  - now rewrite app_nil_r.
  - cbn [map fst] in Hnd, Hfresh. inversion Hnd as [|? ? Hnotin Hnd']; subst.
    rewrite set_fresh by (apply Hfresh; now left).
    rewrite IH; [now rewrite <- app_assoc | exact Hnd' |].
    intros k0 Hk0 Hin. unfold OD.keys in Hin. rewrite map_app in Hin.
    apply in_app_or in Hin. destruct Hin as [Hin|[<-|[]]].
    + apply (Hfresh k0); [now right | exact Hin].
    + contradiction.
Qed.

End RecordShape.

(** X14. Every entry of [results] is a mapping: no key occurs twice in
    it, whatever keys the service repeats or reuses. *)
Theorem records_have_distinct_keys (E : env) (listing : list string) (w : world) :
  Forall (fun r => NoDup (OD.keys r)) (batch_results E listing w).
Proof.
  rewrite batch_results_collected.
  pose proof (collected_processed E (image_files listing)) as H.
  induction H as [|n r ns rs Hr _ IH]; constructor; [|exact IH].
  eapply record_of_nodup. exact Hr.
Qed.

(** X15. When the first reply parses to an object whose keys are
    distinct and do not include the file-name key, the record is the
    file name followed by the fields of the object in the order the
    service gave them; a value that is not an object is stored whole
    under the key [data]. *)
Theorem record_keeps_field_order
  (E : env) (name : string)
  (tm : timing) (resp : option response) (text : string)
  (items : list (string * json)) :
  api E name 1 = (tm, Replies resp) ->
  extract_text_from_response resp = Extracted (Some text) ->
  text <> EmptyString ->
  extract_json_loose E text = JObj items ->
  NoDup (map fst items) ->
  ~ In FILENAME_KEY (map fst items) ->
  record_of E name = Some ((FILENAME_KEY, JStr name) :: items) /\
  (forall parsed,
     (forall its, parsed <> JObj its) ->
     build_record name parsed = [(FILENAME_KEY, JStr name); (DATA_KEY, parsed)]).
Proof.
  intros Hapi Htext Hne Hparsed Hnd Hfresh. split.
  - assert (Hnn : extract_json_loose E text <> JNull) by (rewrite Hparsed; discriminate).
    unfold record_of, outcome_of, process_image.
    rewrite (retry_loop_decided E name MAX_RETRIES MAX_RETRIES 1
               (Returns (Some (build_record name (extract_json_loose E text)))));
      [| lia | unfold MAX_RETRIES; lia | intros a Ha; lia
       | now apply (attempt_once_success E name 1 _ _ tm resp)].
    rewrite Hparsed. unfold build_record.
    rewrite update_fresh; [reflexivity | exact Hnd |].
    intros k Hk [Hin|[]]. cbn in Hin. subst k. contradiction.
  - intros parsed Hno. unfold build_record.
    destruct parsed; try reflexivity. exfalso. now apply (Hno items0).
Qed.

Lemma record_keeps_field_order_witness :
  record_of Sample.good "r1.jpg" =
    Some [(FILENAME_KEY, JStr "r1.jpg"); ("a", JInt 1)].
Proof.
  assert (Hne : Sample.text_a <> EmptyString) by discriminate.
  assert (Hnd : NoDup (map fst [("a", JInt 1)]))
    by (repeat constructor; intros []).
  assert (Hfresh : ~ In FILENAME_KEY (map fst [("a", JInt 1)]))
    by (intros [H|[]]; discriminate H).
  exact (proj1 (record_keeps_field_order Sample.good "r1.jpg" Sample.tick
                  (Some (mkResponse (Text Sample.text_a) Missing None))
                  Sample.text_a [("a", JInt 1)]
                  eq_refl eq_refl Hne eq_refl Hnd Hfresh)).
Defined.

(* ================================================================== *)
(** ** Which files are images                                          *)
(* ================================================================== *)

Section Suffixes.

Lemma drop_app_length a b : PyStr.drop (String.length a) (a ++ b) = b.
Proof. induction a as [|c a IH]; [reflexivity | exact IH]. Qed.

Lemma suffix_without_dot name :
  Chars.has "." name = false -> suffix name = EmptyString.
Proof.
  intros H. unfold suffix, PyStr.rfind.
  now rewrite (rfind_from_absent "." name 0 H).
Qed.

Lemma suffix_leading_dot e :
  Chars.has "." e = false -> suffix (String "." e) = EmptyString.
Proof.
  intros H. unfold suffix, PyStr.rfind.
  pose proof (rfind_from_last "." EmptyString e 0 (Z.le_refl 0) H) as Hr.
  cbn [String.append String.length] in Hr. now rewrite Hr.
Qed.

Lemma suffix_trailing_dot stem : suffix (stem ++ ".") = EmptyString.
Proof.
  unfold suffix, PyStr.rfind.
  rewrite (rfind_from_last "." stem EmptyString 0 (Z.le_refl 0) eq_refl).
  rewrite string_length_app. cbn [String.length].
  assert (H : (0 + Z.of_nat (String.length stem) <?
               Z.of_nat (String.length stem + 1) - 1) = false)
    by (apply Z.ltb_ge; lia).
  rewrite H, andb_false_r. reflexivity.
Qed.

Lemma suffix_extension stem e :
  stem <> EmptyString -> e <> EmptyString -> Chars.has "." e = false ->
  suffix (stem ++ String "." e) = String "." e.
Proof.
  intros Hs He Hdot. unfold suffix, PyStr.rfind.
  rewrite (rfind_from_last "." stem e 0 (Z.le_refl 0) Hdot).
  rewrite string_length_app, string_length_cons.
  assert (Hlen : (0 < String.length stem)%nat)
    by (destruct stem; [congruence | cbn; lia]).
  assert (Hle : (0 < String.length e)%nat)
    by (destruct e; [congruence | cbn; lia]).
  assert (H1 : (0 <? 0 + Z.of_nat (String.length stem)) = true)
    by (apply Z.ltb_lt; lia).
  assert (H2 : (0 + Z.of_nat (String.length stem) <?
                Z.of_nat (String.length stem + S (String.length e)) - 1) = true)
    by (apply Z.ltb_lt; lia).
  rewrite H1, H2. cbn [andb].
  replace (Z.to_nat (0 + Z.of_nat (String.length stem))) with (String.length stem)
    by lia.
  apply drop_app_length.
Qed.

End Suffixes.

(** X16. The images of a run are exactly the entries of the directory
    that [is_image] accepts: none is added, none is lost, and none is
    taken twice from a listing without repetitions. *)
Theorem image_files_are_the_images (listing : list string) :
  (forall n, In n (image_files listing) <-> In n listing /\ is_image n = true)
  /\ (List.length (image_files listing) <= List.length listing)%nat
  /\ (NoDup listing -> NoDup (image_files listing)).
Proof.
  split; [intros n; apply image_files_in|]. split.
  - unfold image_files. rewrite (Permutation_length (sorted_perm _)).
    apply filter_length_bound.
  - intros Hnd. unfold image_files.
    eapply Permutation_NoDup; [symmetry; apply sorted_perm|].
    now apply NoDup_filter.
Qed.

(** X17. Whether a file is an image is decided by what follows the last
    dot of its name, whatever its case: a name without a dot, a name
    whose only dot comes first, and a name that ends in a dot are not
    images. *)
Theorem is_image_by_extension (stem e : string) :
  (Chars.has "." e = false -> is_image e = false)
  /\ (Chars.has "." e = false -> is_image (String "." e) = false)
  /\ is_image (stem ++ ".") = false
  /\ (stem <> EmptyString -> e <> EmptyString -> Chars.has "." e = false ->
      is_image (stem ++ String "." e) =
      existsb (String.eqb (String "." (PyStr.lower e))) IMAGE_SUFFIXES).
Proof.
  unfold is_image. repeat split.
  - intros H. now rewrite (suffix_without_dot e H).
  - intros H. now rewrite (suffix_leading_dot e H).
  - now rewrite suffix_trailing_dot.
  - intros Hs He Hdot. now rewrite (suffix_extension stem e Hs He Hdot).
Qed.

(* ================================================================== *)
(** ** The header of the table                                         *)
(* ================================================================== *)

Section Header.

Lemma existsb_eqb_in (k : string) (l : list string) :
  existsb (String.eqb k) l = true <-> In k l.
Proof.
  rewrite existsb_exists. split.
  - intros (x & Hin & Hx). apply String.eqb_eq in Hx. now subst.
  - intros H. exists k. split; [exact H | apply String.eqb_refl].
Qed.

Lemma add_keys_in (keys acc : list string) (k : string) :
  In k (Csv.add_keys keys acc) <-> In k acc \/ In k keys.
Proof.
  revert acc. induction keys as [|key rest IH]; intros acc; cbn [Csv.add_keys].
  - cbn. tauto.
  - rewrite IH. destruct (existsb (String.eqb key) acc) eqn:Hk.
    + apply existsb_eqb_in in Hk. cbn. split.
      * intros [H|H]; [now left | right; now right].
      * intros [H|[<-|H]]; [now left | now left | now right].
    + rewrite in_app_iff. cbn. tauto.
Qed.

Lemma add_keys_nodup (keys acc : list string) :
  NoDup acc -> NoDup (Csv.add_keys keys acc).
Proof.
  revert acc. induction keys as [|key rest IH]; intros acc H; cbn [Csv.add_keys];
    [exact H|].
  apply IH. destruct (existsb (String.eqb key) acc) eqn:Hk; [exact H|].
  apply NoDup_app; [exact H | repeat constructor; intros [] |].
  intros x Hx [<-|[]].
  apply existsb_eqb_in in Hx. congruence.
Qed.

Lemma add_keys_extends (keys acc : list string) :
  exists tail, Csv.add_keys keys acc = acc ++ tail.
Proof.
  revert acc. induction keys as [|key rest IH]; intros acc; cbn [Csv.add_keys].
  - exists []. now rewrite app_nil_r.
  - destruct (existsb (String.eqb key) acc); [apply IH|].
    destruct (IH (acc ++ [key])) as [tail ->].
    exists ([key] ++ tail). now rewrite app_assoc.
Qed.

Lemma add_keys_known (keys acc : list string) :
  (forall k, In k keys -> In k acc) -> Csv.add_keys keys acc = acc.
Proof.
  revert acc. induction keys as [|key rest IH]; intros acc H; cbn [Csv.add_keys];
    [reflexivity|].
  assert (Hk : existsb (String.eqb key) acc = true)
    by (apply existsb_eqb_in, H; now left).
  rewrite Hk. apply IH. intros k Hin. apply H. now right.
Qed.

Lemma add_keys_fresh (keys acc : list string) :
  NoDup keys -> (forall k, In k keys -> ~ In k acc) ->
  Csv.add_keys keys acc = acc ++ keys.
Proof.
  revert acc. induction keys as [|key rest IH]; intros acc Hnd H;
    cbn [Csv.add_keys]; [now rewrite app_nil_r|].
  inversion Hnd as [|? ? Hnotin Hnd']; subst.
  destruct (existsb (String.eqb key) acc) eqn:Hk.
  - apply existsb_eqb_in in Hk. exfalso. apply (H key); [now left | exact Hk].
  - rewrite IH; [now rewrite <- app_assoc | exact Hnd' |].
    intros k Hin Hacc. apply in_app_or in Hacc. destruct Hacc as [Hacc|[<-|[]]].
    + apply (H k); [now right | exact Hacc].
    + contradiction.
Qed.

(** The keys of an item, none for an item that is not a [dict]. *)
Lemma collect_keys_in (data : list json) (acc : list string) (k : string) :
  In k (Csv.collect_keys data acc) <->
  In k acc \/ exists items, In (JObj items) data /\ In k (OD.keys items).
Proof.
  revert acc. induction data as [|item rest IH]; intros acc.
  - cbn. split; [now left | intros [H|(items & [] & _)]; exact H].
  - assert (Hskip : (forall its, item <> JObj its) ->
                    (In k (Csv.collect_keys rest acc) <->
                     In k acc \/ exists items, In (JObj items) (item :: rest)
                                               /\ In k (OD.keys items))).
    { intros Hno. rewrite IH. split.
      - intros [H|(items & Hin & Hk)]; [now left|].
        right. exists items. split; [now right | exact Hk].
      - intros [H|(items & [Heq|Hin] & Hk)]; [now left | |].
        + exfalso. now apply (Hno items).
        + right. now exists items. }
    destruct item; try (apply Hskip; intros its; discriminate).
    cbn [Csv.collect_keys]. rewrite IH, add_keys_in. split.
    + intros [[H|H]|(its & Hin & Hk)].
      * now left.
      * right. exists items. split; [now left | exact H].
      * right. exists its. split; [now right | exact Hk].
    + intros [H|(its & [Heq|Hin] & Hk)].
      * left. now left.
      * injection Heq as <-. left. now right.
      * right. now exists its.
Qed.

Lemma collect_keys_nodup (data : list json) (acc : list string) :
  NoDup acc -> NoDup (Csv.collect_keys data acc).
Proof.
  revert acc. induction data as [|item rest IH]; intros acc H; [exact H|].
  destruct item; cbn [Csv.collect_keys]; try (now apply IH).
  apply IH. now apply add_keys_nodup.
Qed.

Lemma collect_keys_extends (data : list json) (acc : list string) :
  exists tail, Csv.collect_keys data acc = acc ++ tail.
Proof.
  revert acc. induction data as [|item rest IH]; intros acc.
  - exists []. cbn. now rewrite app_nil_r.
  - destruct item; cbn [Csv.collect_keys]; try apply IH.
    destruct (add_keys_extends (OD.keys items) acc) as [t1 ->].
    destruct (IH (acc ++ t1)) as [t2 ->].
    exists (t1 ++ t2). now rewrite app_assoc.
Qed.

Lemma collect_keys_app (d1 d2 : list json) (acc : list string) :
  Csv.collect_keys (d1 ++ d2) acc = Csv.collect_keys d2 (Csv.collect_keys d1 acc).
Proof.
  revert acc. induction d1 as [|item rest IH]; intros acc; [reflexivity|].
  destruct item; cbn [Csv.collect_keys app]; apply IH.
Qed.

Lemma collect_keys_known (data : list json) (acc : list string) :
  (forall items k, In (JObj items) data -> In k (OD.keys items) -> In k acc) ->
  Csv.collect_keys data acc = acc.
Proof.
  revert acc. induction data as [|item rest IH]; intros acc H; [reflexivity|].
  assert (Hrest : Csv.collect_keys rest acc = acc).
  { apply IH. intros items k Hin. apply H. now right. }
  destruct item; cbn [Csv.collect_keys]; try exact Hrest.
  rewrite add_keys_known; [exact Hrest|].
  intros k Hk. apply (H items); [now left | exact Hk].
Qed.

End Header.

(** X18. The header has no column twice, and its columns are exactly
    the keys that occur in some object of the data; items that are not
    objects contribute nothing. *)
Theorem header_is_the_set_of_keys (data : list json) (w : Csv.world) :
  NoDup (fst (Csv.extract_all_keys data w)) /\
  forall k, In k (fst (Csv.extract_all_keys data w)) <->
            exists items, In (JObj items) data /\ In k (OD.keys items).
Proof.
  cbn [Csv.extract_all_keys fst]. split.
  - apply collect_keys_nodup. constructor.
  - intros k. rewrite collect_keys_in. cbn. tauto.
Qed.

(** X19. Columns come in the order in which their keys are first seen:
    the header of a longer list extends the header of its beginning,
    the header starts with the keys of the first object, and when no
    later object has a key the first one lacks, the header is the keys
    of the first object. *)
Theorem header_in_order_of_first_occurrence
  (items : list (string * json)) (d1 d2 : list json) (w : Csv.world) :
  (exists tail, fst (Csv.extract_all_keys (d1 ++ d2) w) =
                fst (Csv.extract_all_keys d1 w) ++ tail)
  /\ (NoDup (OD.keys items) ->
      exists tail, fst (Csv.extract_all_keys (JObj items :: d2) w) =
                   OD.keys items ++ tail)
  /\ (NoDup (OD.keys items) ->
      (forall its k, In (JObj its) d2 -> In k (OD.keys its) -> In k (OD.keys items)) ->
      fst (Csv.extract_all_keys (JObj items :: d2) w) = OD.keys items).
Proof.
  cbn [Csv.extract_all_keys fst]. repeat split.
  - rewrite collect_keys_app. apply collect_keys_extends.
  - intros Hnd. cbn [Csv.collect_keys].
    rewrite add_keys_fresh by (auto; intros k _ []).
    apply (collect_keys_extends d2 ([] ++ OD.keys items)).
  - intros Hnd Hsub. cbn [Csv.collect_keys].
    rewrite add_keys_fresh by (auto; intros k _ []).
    now apply collect_keys_known.
Qed.

(* ================================================================== *)
(** ** What [json_to_csv] writes                                       *)
(* ================================================================== *)

Section Table.

Variable F : Csv.fs.

Lemma rows_after_app path t1 t2 acc :
  Csv.rows_after path (t1 ++ t2) acc =
  Csv.rows_after path t2 (Csv.rows_after path t1 acc).
Proof.
  revert acc. induction t1 as [|e t1 IH]; intros acc; [reflexivity|].
  destruct e; cbn [Csv.rows_after app]; apply IH.
Qed.

Lemma opened_app t1 t2 : Csv.opened (t1 ++ t2) = Csv.opened t1 ++ Csv.opened t2.
Proof. apply flat_map_app. Qed.

Lemma written_app t1 t2 : Csv.written (t1 ++ t2) = Csv.written t1 ++ Csv.written t2.
Proof. apply flat_map_app. Qed.

Lemma converted_app t1 t2 :
  Csv.converted (t1 ++ t2) = Csv.converted t1 ++ Csv.converted t2.
Proof. apply flat_map_app. Qed.

Lemma opened_log l m w :
  Csv.opened (Csv.trace (Csv.log_message m l w)) = Csv.opened (Csv.trace w).
Proof. cbn. rewrite opened_app. cbn. apply app_nil_r. Qed.

Lemma written_log l m w :
  Csv.written (Csv.trace (Csv.log_message m l w)) = Csv.written (Csv.trace w).
Proof. cbn. rewrite written_app. cbn. apply app_nil_r. Qed.

Lemma converted_log l m w :
  Csv.converted (Csv.trace (Csv.log_message m l w)) =
  Csv.converted (Csv.trace w)
  ++ match m with Csv.MsgConverted p => [p] | _ => [] end.
Proof. cbn. rewrite converted_app. f_equal. destruct m; reflexivity. Qed.

Lemma converted_emit e w :
  (forall l m, e <> Csv.EvLog l m) ->
  Csv.converted (Csv.trace (Csv.emit e w)) = Csv.converted (Csv.trace w).
Proof.
  intros H. cbn. rewrite converted_app.
  destruct e as [l m| | |]; cbn; rewrite ?app_nil_r; try reflexivity.
  exfalso. now apply (H l m).
Qed.

Lemma rows_after_log path l m w acc :
  Csv.rows_after path (Csv.trace (Csv.log_message m l w)) acc =
  Csv.rows_after path (Csv.trace w) acc.
Proof. cbn. now rewrite rows_after_app. Qed.

Lemma rows_after_row path row w acc :
  Csv.rows_after path (Csv.trace (Csv.emit (Csv.EvRow path row) w)) acc =
  Csv.rows_after path (Csv.trace w) acc ++ [row].
Proof. cbn. rewrite rows_after_app. cbn. now rewrite String.eqb_refl. Qed.

Lemma rows_after_open path w acc :
  Csv.rows_after path (Csv.trace (Csv.emit (Csv.EvOpen path) w)) acc = [].
Proof. cbn. rewrite rows_after_app. cbn. now rewrite String.eqb_refl. Qed.

Lemma until_failure_all path rows :
  forallb (Csv.writable F path) rows = true ->
  Csv.until_failure F path rows = rows.
Proof.
  induction rows as [|row rest IH]; [reflexivity|].
  cbn [forallb Csv.until_failure]. unfold Csv.writable at 1.
  destruct (Csv.writerow F path row); [discriminate|].
  cbn [andb]. intros H. now rewrite IH.
Qed.

Lemma until_failure_short path rows :
  forallb (Csv.writable F path) rows = false ->
  (List.length (Csv.until_failure F path rows) < List.length rows)%nat.
Proof.
  induction rows as [|row rest IH]; [discriminate|].
  cbn [forallb Csv.until_failure List.length]. unfold Csv.writable at 1.
  destruct (Csv.writerow F path row); [intros _; cbn; lia|].
  cbn [andb List.length]. intros H. apply IH in H. lia.
Qed.

(** The rows of the loop: those up to the first that cannot be written
    are in the file, and the loop ends without an exception exactly
    when all were written. *)
Lemma write_rows_spec path headers data i total w acc :
  let r := Csv.write_rows F path headers data i total w in
  Csv.rows_after path (Csv.trace (snd r)) acc =
    Csv.rows_after path (Csv.trace w) acc
    ++ Csv.until_failure F path (map (Csv.row_of F headers) data)
  /\ Csv.opened (Csv.trace (snd r)) = Csv.opened (Csv.trace w)
  /\ Csv.converted (Csv.trace (snd r)) = Csv.converted (Csv.trace w)
  /\ Csv.made (snd r) = Csv.made w
  /\ (fst r = None <->
      forallb (Csv.writable F path) (map (Csv.row_of F headers) data) = true).
Proof.
  cbn zeta. revert i w. induction data as [|item rest IH]; intros i w;
    cbn [Csv.write_rows map Csv.until_failure forallb fst snd].
  - rewrite app_nil_r. repeat split.
  - unfold Csv.writable at 1.
    destruct (Csv.writerow F path (Csv.row_of F headers item)) as [e|];
      cbn [fst snd andb].
    + rewrite app_nil_r. repeat split; discriminate.
    + set (w1 := if (((i + 1) mod 100 =? 0) || (i + 1 =? total))%nat
                 then _ else _).
      destruct (IH (i + 1)%nat w1) as (H1 & H2 & H3 & H4 & H5).
      assert (Hw1 : Csv.rows_after path (Csv.trace w1) acc =
                    Csv.rows_after path (Csv.trace w) acc
                    ++ [Csv.row_of F headers item]
                    /\ Csv.opened (Csv.trace w1) = Csv.opened (Csv.trace w)
                    /\ Csv.converted (Csv.trace w1) = Csv.converted (Csv.trace w)
                    /\ Csv.made w1 = Csv.made w).
      { subst w1.
        destruct (((i + 1) mod 100 =? 0) || (i + 1 =? total))%nat;
          rewrite ?rows_after_log, ?opened_log, ?converted_log,
            rows_after_row; cbn [Csv.made Csv.log_message Csv.emit Csv.trace];
          rewrite ?opened_app, ?converted_app; cbn; rewrite ?app_nil_r;
          repeat split. }
      destruct Hw1 as (G1 & G2 & G3 & G4).
      rewrite H1, H2, H3, H4, G1, G2, G3, G4, <- app_assoc.
      repeat split; apply H5.
Qed.

Lemma row_of_length headers item :
  List.length (Csv.row_of F headers item) = List.length headers.
Proof. apply length_map. Qed.

(** The run of [json_to_csv] on a file that holds [data], case by case:
    the target is not opened; or it is opened and holds the rows up to
    the first that cannot be written. *)
Lemma json_to_csv_loaded src dst w data :
  Csv.load F src = Csv.Loaded data ->
  let r := Csv.json_to_csv F src (Some dst) w in
  (Csv.target_opens F src dst w = false /\
   fst r = false /\
   Csv.opened (Csv.trace (snd r)) = Csv.opened (Csv.trace w) /\
   Csv.written (Csv.trace (snd r)) = Csv.written (Csv.trace w) /\
   Csv.converted (Csv.trace (snd r)) = Csv.converted (Csv.trace w))
  \/
  (Csv.target_opens F src dst w = true /\
   fst r = forallb (Csv.writable F dst) (Csv.table_of F data) /\
   Csv.opened (Csv.trace (snd r)) = Csv.opened (Csv.trace w) ++ [dst] /\
   Csv.content dst (snd r) = Csv.until_failure F dst (Csv.table_of F data) /\
   Csv.converted (Csv.trace (snd r)) =
     Csv.converted (Csv.trace w) ++ (if fst r then [dst] else [])).
Proof.
  intros Hload. cbn zeta.
  unfold Csv.json_to_csv, Csv.target_opens, Csv.content, Csv.table_of.
  rewrite Hload.
  destruct (Csv.truthy data) eqn:Ht; cbn [negb andb].
  2:{ left. cbn [fst snd].
      rewrite !opened_log, !written_log, !converted_log, !app_nil_r. auto. }
  set (w1 := match data with
             | JArr items => (items, Csv.log_message (Csv.MsgLoadStart src) "INFO" w)
             | _ => ([data], Csv.log_message Csv.MsgWrapped "INFO"
                               (Csv.log_message (Csv.MsgLoadStart src) "INFO" w))
             end).
  assert (Hw1 : fst w1 = Csv.items_of data /\
                Csv.made (snd w1) = Csv.made w /\
                Csv.opened (Csv.trace (snd w1)) = Csv.opened (Csv.trace w) /\
                Csv.written (Csv.trace (snd w1)) = Csv.written (Csv.trace w) /\
                Csv.converted (Csv.trace (snd w1)) = Csv.converted (Csv.trace w)).
  { subst w1. destruct data; cbn [fst snd Csv.items_of];
      rewrite ?opened_log, ?written_log, ?converted_log, ?app_nil_r; auto. }
  destruct w1 as [items w1]. cbn [fst snd] in Hw1.
  destruct Hw1 as (-> & Hmade & Hop & Hwr & Hcv).
  unfold Csv.extract_all_keys.
  set (headers := Csv.collect_keys (Csv.items_of data) []).
  set (w2 := Csv.log_message _ "INFO" (Csv.log_message _ "INFO" w1)).
  assert (Hex : Csv.exists_now F (PosixPath.dirname dst) w2 =
                Csv.exists_now F (PosixPath.dirname dst) w).
  { unfold Csv.exists_now. subst w2. cbn [Csv.made Csv.log_message Csv.emit].
    now rewrite Hmade. }
  assert (Hop2 : Csv.opened (Csv.trace w2) = Csv.opened (Csv.trace w))
    by (subst w2; now rewrite !opened_log).
  assert (Hwr2 : Csv.written (Csv.trace w2) = Csv.written (Csv.trace w))
    by (subst w2; now rewrite !written_log).
  assert (Hcv2 : Csv.converted (Csv.trace w2) = Csv.converted (Csv.trace w))
    by (subst w2; now rewrite !converted_log, !app_nil_r).
  rewrite Hex. clearbody w2.
  (* the state in which the target is opened *)
  assert (Hopen : forall w3,
    Csv.opened (Csv.trace w3) = Csv.opened (Csv.trace w) ->
    Csv.written (Csv.trace w3) = Csv.written (Csv.trace w) ->
    Csv.converted (Csv.trace w3) = Csv.converted (Csv.trace w) ->
    let r :=
      match Csv.open_w F dst with
      | Some e => (false, Csv.log_message (Csv.MsgUnexpected e) "ERROR"
                            (Csv.log_message (Csv.MsgWriteStart dst) "INFO" w3))
      | None =>
          match Csv.writerow F dst headers with
          | Some e =>
              (false, Csv.log_message (Csv.MsgUnexpected e) "ERROR"
                        (Csv.emit (Csv.EvOpen dst)
                           (Csv.log_message (Csv.MsgWriteStart dst) "INFO" w3)))
          | None =>
              match Csv.write_rows F dst headers (Csv.items_of data) 0
                      (List.length (Csv.items_of data))
                      (Csv.log_message (Csv.MsgHeaderDone headers) "INFO"
                         (Csv.emit (Csv.EvRow dst headers)
                            (Csv.emit (Csv.EvOpen dst)
                               (Csv.log_message (Csv.MsgWriteStart dst) "INFO"
                                  w3)))) with
              | (Some e, w4) =>
                  (false, Csv.log_message (Csv.MsgUnexpected e) "ERROR" w4)
              | (None, w4) =>
                  (true, Csv.log_message (Csv.MsgConverted dst) "INFO" w4)
              end
          end
      end in
    (match Csv.open_w F dst with Some _ => false | None => true end = false /\
     fst r = false /\
     Csv.opened (Csv.trace (snd r)) = Csv.opened (Csv.trace w) /\
     Csv.written (Csv.trace (snd r)) = Csv.written (Csv.trace w) /\
     Csv.converted (Csv.trace (snd r)) = Csv.converted (Csv.trace w))
    \/
    (match Csv.open_w F dst with Some _ => false | None => true end = true /\
     fst r = forallb (Csv.writable F dst)
               (headers :: map (Csv.row_of F headers) (Csv.items_of data)) /\
     Csv.opened (Csv.trace (snd r)) = Csv.opened (Csv.trace w) ++ [dst] /\
     Csv.rows_after dst (Csv.trace (snd r)) [] =
       Csv.until_failure F dst
         (headers :: map (Csv.row_of F headers) (Csv.items_of data)) /\
     Csv.converted (Csv.trace (snd r)) =
       Csv.converted (Csv.trace w) ++ (if fst r then [dst] else []))).
  { intros w3 H3o H3w H3c. cbn zeta.
    destruct (Csv.open_w F dst) as [e|].
    - left. cbn [fst snd].
      rewrite !opened_log, !written_log, !converted_log, !app_nil_r. auto.
    - right. split; [reflexivity|].
      cbn [forallb Csv.until_failure]. unfold Csv.writable at 1.
      destruct (Csv.writerow F dst headers) as [e|]; cbn [fst snd andb].
      + rewrite opened_log, rows_after_log, rows_after_open, converted_log.
        rewrite converted_emit by discriminate.
        rewrite converted_log, !app_nil_r, H3c.
        cbn [Csv.trace Csv.emit Csv.log_message]. rewrite !opened_app, H3o.
        cbn. rewrite ?app_nil_r. auto.
      + set (w5 := Csv.log_message (Csv.MsgHeaderDone headers) "INFO" _).
        destruct (write_rows_spec dst headers (Csv.items_of data) 0
                    (List.length (Csv.items_of data)) w5 [])
          as (R1 & R2 & R3 & _ & R5).
        assert (H5r : Csv.rows_after dst (Csv.trace w5) [] = [headers])
          by (subst w5; now rewrite rows_after_log, rows_after_row,
                rows_after_open).
        assert (H5o : Csv.opened (Csv.trace w5) = Csv.opened (Csv.trace w) ++ [dst]).
        { subst w5. rewrite opened_log.
          cbn [Csv.trace Csv.emit Csv.log_message]. rewrite !opened_app, H3o.
          cbn. now rewrite ?app_nil_r. }
        assert (H5c : Csv.converted (Csv.trace w5) = Csv.converted (Csv.trace w)).
        { subst w5. rewrite converted_log, !converted_emit by discriminate.
          now rewrite converted_log, !app_nil_r. }
        destruct (Csv.write_rows F dst headers (Csv.items_of data) 0
                    (List.length (Csv.items_of data)) w5) as [[e|] w4];
          cbn [fst snd] in *.
        * rewrite opened_log, rows_after_log, converted_log, app_nil_r.
          rewrite R1, R2, R3, H5r, H5o, H5c.
          destruct (forallb (Csv.writable F dst)
                      (map (Csv.row_of F headers) (Csv.items_of data))) eqn:Hall.
          -- exfalso. assert (Hn : Some e = None) by now apply R5.
             discriminate Hn.
          -- rewrite app_nil_r. auto.
        * rewrite opened_log, rows_after_log, converted_log.
          rewrite R1, R2, R3, H5r, H5o, H5c.
          rewrite (proj1 R5 eq_refl). auto. }
  destruct (PyStr.nonempty (PosixPath.dirname dst)
            && negb (Csv.exists_now F (PosixPath.dirname dst) w)) eqn:Hdir.
  - destruct (Csv.makedirs F (PosixPath.dirname dst)) as [e|].
    + left. cbn [fst snd andb].
      rewrite opened_log, written_log, converted_log, app_nil_r. auto.
    + cbn [andb].
      set (w3 := Csv.log_message (Csv.MsgDirCreated _) "INFO" _).
      apply (Hopen w3); subst w3.
      * rewrite opened_log. cbn [Csv.trace]. rewrite opened_app. cbn.
        now rewrite app_nil_r.
      * rewrite written_log. cbn [Csv.trace]. rewrite written_app. cbn.
        now rewrite app_nil_r.
      * rewrite converted_log. cbn [Csv.trace]. rewrite converted_app. cbn.
        now rewrite !app_nil_r.
  - cbn [andb]. apply (Hopen w2); assumption.
Qed.

Lemma json_to_csv_unloaded src dst w :
  (forall data, Csv.load F src <> Csv.Loaded data) ->
  let r := Csv.json_to_csv F src (Some dst) w in
  Csv.target_opens F src dst w = false /\
  fst r = false /\
  Csv.opened (Csv.trace (snd r)) = Csv.opened (Csv.trace w) /\
  Csv.written (Csv.trace (snd r)) = Csv.written (Csv.trace w) /\
  Csv.converted (Csv.trace (snd r)) = Csv.converted (Csv.trace w).
Proof.
  intros Hno. cbn zeta. unfold Csv.json_to_csv, Csv.target_opens.
  destruct (Csv.load F src) as [|e|e|data];
    [| | | exfalso; now apply (Hno data)];
    cbn [fst snd];
    rewrite !opened_log, !written_log, !converted_log, !app_nil_r; auto.
Qed.

End Table.
(** X20. [json_to_csv] returns [True] exactly when the file could be
    read and parsed, the value read counts as true in Python (not
    [null], [false], [0], an empty text, list or object), the directory
    of the target exists or could be made, the target could be opened
    and every row, the header included, could be written.  When the
    target is not opened, no file is opened for writing and no row is
    written.  When it is opened, it holds the rows of the table up to
    the first one that [writerow] refuses: the whole table exactly when
    [True] is returned, and fewer rows than the table has when [False]
    is returned. *)
Theorem json_to_csv_outcome (F : Csv.fs) (src dst : string) (w : Csv.world) :
  let r := Csv.json_to_csv F src (Some dst) w in
  fst r = Csv.convertible F src dst w
  /\ (Csv.target_opens F src dst w = false ->
      Csv.opened (Csv.trace (snd r)) = Csv.opened (Csv.trace w)
      /\ Csv.written (Csv.trace (snd r)) = Csv.written (Csv.trace w))
  /\ (forall data,
        Csv.load F src = Csv.Loaded data ->
        Csv.target_opens F src dst w = true ->
        Csv.opened (Csv.trace (snd r)) = Csv.opened (Csv.trace w) ++ [dst]
        /\ Csv.content dst (snd r) =
           Csv.until_failure F dst (Csv.table_of F data)
        /\ (fst r = true <-> Csv.content dst (snd r) = Csv.table_of F data)
        /\ (fst r = false ->
            (List.length (Csv.content dst (snd r))
             < List.length (Csv.table_of F data))%nat)).
Proof.
  cbn zeta. unfold Csv.convertible.
  destruct (Csv.load F src) as [|e|e|data] eqn:Hload.
  1-3: destruct (json_to_csv_unloaded F src dst w) as (Hc & Hr & Ho & Hw & _);
    [intros d; rewrite Hload; discriminate
    | rewrite Hc, Hr; split; [reflexivity|]; split; [auto|];
      intros d Hd; discriminate Hd].
  destruct (json_to_csv_loaded F src dst w data Hload)
    as [(Hc & Hr & Ho & Hw & _)|(Hc & Hr & Ho & Hw & _)]; rewrite Hc, Hr.
  - split; [reflexivity|]. split; [auto|]. intros d _ Hd. discriminate Hd.
  - split; [reflexivity|]. split; [discriminate|].
    intros data' [= <-] _. split; [exact Ho|]. split; [exact Hw|].
    rewrite Hw. split; [split|].
    + apply until_failure_all.
    + intros Heq.
      destruct (forallb (Csv.writable F dst) (Csv.table_of F data)) eqn:Hall;
        [reflexivity|].
      apply until_failure_short in Hall. rewrite Heq in Hall. lia.
    + apply until_failure_short.
Qed.

(** X21. After a successful conversion the target holds the header
    followed by one row for each item of the data, in their order (the
    value itself when it is not a list); every row has as many cells as
    the header has columns. *)
Theorem json_to_csv_table
  (F : Csv.fs) (src dst : string) (w : Csv.world) (data : json) :
  Csv.load F src = Csv.Loaded data ->
  fst (Csv.json_to_csv F src (Some dst) w) = true ->
  Csv.content dst (snd (Csv.json_to_csv F src (Some dst) w)) =
    fst (Csv.extract_all_keys (Csv.items_of data) w)
    :: map (Csv.row_of F (fst (Csv.extract_all_keys (Csv.items_of data) w)))
         (Csv.items_of data)
  /\ Forall (fun row => List.length row =
                        List.length (fst (Csv.extract_all_keys (Csv.items_of data) w)))
       (Csv.content dst (snd (Csv.json_to_csv F src (Some dst) w)))
  /\ List.length (Csv.content dst (snd (Csv.json_to_csv F src (Some dst) w))) =
     S (List.length (Csv.items_of data)).
Proof.
  intros Hload Hok.
  destruct (json_to_csv_loaded F src dst w data Hload)
    as [(_ & Hr & _)|(_ & Hr & _ & Hc & _)]; [congruence|].
  rewrite Hok in Hr. symmetry in Hr. apply until_failure_all in Hr.
  rewrite Hr in Hc. unfold Csv.table_of in Hc.
  cbn [Csv.extract_all_keys fst]. rewrite Hc. repeat split.
  - constructor; [reflexivity|]. apply Forall_forall. intros row Hin.
    apply in_map_iff in Hin. destruct Hin as (item & <- & _).
    apply row_of_length.
  - cbn [List.length]. now rewrite length_map.
Qed.

Lemma json_to_csv_table_witness :
  Csv.content CsvDemo.target
    (snd (Csv.json_to_csv CsvDemo.disk CsvDemo.source (Some CsvDemo.target)
            Csv.initial_world)) =
  [[FILENAME_KEY; "total"; ERROR_KEY];
   ["r1.jpg"; "120"; ""];
   ["r2.jpg"; ""; ERROR_REASON]].
Proof.
  exact (proj1 (json_to_csv_table CsvDemo.disk CsvDemo.source CsvDemo.target
                  Csv.initial_world CsvDemo.receipts eq_refl eq_refl)).
Defined.
(** A row that cannot be written: the call returns [False] with the
    target opened and holding the header and the row before. *)
Lemma json_to_csv_cut_off_example :
  let r := Csv.json_to_csv (CsvDemo.picky_disk CsvDemo.receipts ERROR_REASON)
             CsvDemo.source (Some CsvDemo.target) Csv.initial_world in
  fst r = false /\
  Csv.opened (Csv.trace (snd r)) = [CsvDemo.target] /\
  Csv.content CsvDemo.target (snd r) =
    [[FILENAME_KEY; "total"; ERROR_KEY]; ["r1.jpg"; "120"; ""]].
Proof. repeat split. Qed.
(* ================================================================== *)
(** ** Cells                                                           *)
(* ================================================================== *)

Section Cells.

Lemma has_clean (c : ascii) (s : string) :
  Chars.has c (Csv.clean s) = Chars.has c s && Csv.keeps c.
Proof.
  induction s as [|d s IH]; [reflexivity|].
  cbn [Csv.clean]. destruct (Csv.keeps d) eqn:Hd; cbn [Chars.has]; rewrite IH.
  - destruct (Ascii.eqb c d) eqn:Hcd; cbn [orb]; [|reflexivity].
    apply Ascii.eqb_eq in Hcd. subst d. now rewrite Hd.
  - destruct (Ascii.eqb c d) eqn:Hcd; cbn [orb]; [|reflexivity].
    apply Ascii.eqb_eq in Hcd. subst d. rewrite Hd.
    now rewrite !andb_false_r.
Qed.

Lemma clean_fixed (s : string) :
  (forall c, Chars.has c s = true -> Csv.keeps c = true) -> Csv.clean s = s.
Proof.
  induction s as [|d s IH]; intros H; [reflexivity|].
  cbn [Csv.clean]. rewrite (H d) by (cbn [Chars.has]; now rewrite Ascii.eqb_refl).
  rewrite IH; [reflexivity|].
  intros c Hc. apply H. cbn [Chars.has]. rewrite Hc. apply orb_true_r.
Qed.

Lemma clean_length (s : string) :
  (String.length (Csv.clean s) <= String.length s)%nat.
Proof.
  induction s as [|d s IH]; [apply Nat.le_refl|].
  cbn [Csv.clean]. destruct (Csv.keeps d); cbn [String.length]; lia.
Qed.

End Cells.

(** X22. A text value is written without its control characters, tab
    and line feed apart, and otherwise as it is: the cell holds a
    character exactly when the text holds it and it is kept, it is no
    longer than the text, cleaning it again changes nothing, and a text
    without such characters is its own cell. *)
Theorem normalize_value_of_text (F : Csv.fs) (s : string) :
  (forall c, Chars.has c (Csv.normalize_value F (JStr s)) = true <->
             Chars.has c s = true /\ Csv.keeps c = true)
  /\ (String.length (Csv.normalize_value F (JStr s)) <= String.length s)%nat
  /\ Csv.normalize_value F (JStr (Csv.normalize_value F (JStr s))) =
     Csv.normalize_value F (JStr s)
  /\ ((forall c, Chars.has c s = true -> Csv.keeps c = true) ->
      Csv.normalize_value F (JStr s) = s).
Proof.
  cbn [Csv.normalize_value]. repeat split.
  - rewrite has_clean in H. now apply andb_prop in H.
  - rewrite has_clean in H. now apply andb_prop in H.
  - intros [H1 H2]. now rewrite has_clean, H1, H2.
  - apply clean_length.
  - apply clean_fixed. intros c Hc. rewrite has_clean in Hc.
    now apply andb_prop in Hc.
  - apply clean_fixed.
Qed.

(** X23. A key that an object lacks and a key it holds with [null] both
    give an empty cell, and an item that is not an object gives a row of
    empty cells. *)
Theorem missing_values_give_empty_cells
  (F : Csv.fs) (headers : list string) (item : json) :
  (forall items h,
     item = JObj items ->
     OD.get h items = None \/ OD.get h items = Some JNull ->
     Csv.normalize_value F (Csv.value_at item h) = EmptyString)
  /\ ((forall items, item <> JObj items) ->
      Csv.row_of F headers item = repeat EmptyString (List.length headers)).
Proof.
  split.
  - intros items h -> [H|H]; cbn [Csv.value_at]; now rewrite H.
  - intros Hno. unfold Csv.row_of.
    induction headers as [|h hs IH]; [reflexivity|].
    cbn [map List.length repeat]. rewrite IH. f_equal.
    destruct item; try reflexivity. exfalso. now apply (Hno items).
Qed.
(* ================================================================== *)
(** ** From the OCR step to the table                                  *)
(* ================================================================== *)

Section Pipeline.

Lemma batch_results_head (E : env) (listing : list string) (w : world) :
  Forall (fun r => exists v rest, r = (FILENAME_KEY, v) :: rest)
    (batch_results E listing w).
Proof.
  rewrite batch_results_collected.
  pose proof (collected_processed E (image_files listing)) as H.
  induction H as [|n r ns rs Hr _ IH]; constructor; [|exact IH].
  apply record_of_head in Hr. destruct r as [|[k v] rest]; [discriminate Hr|].
  cbn in Hr. injection Hr as ->. eauto.
Qed.

End Pipeline.
(** X24. What the OCR step dumps is accepted by the table step: a
    non-empty list of results, read back as it was dumped, is not
    turned down as empty.  Its table has the file-name column first
    and one row for each record, each as wide as the header; when the
    target can be opened, [json_to_csv] returns [True] exactly when
    every row of this table can be written, and the target then holds
    the table. *)
Theorem csv_of_ocr_results
  (E : env) (listing : list string) (w : world)
  (F : Csv.fs) (src dst : string) (cw : Csv.world) :
  batch_results E listing w <> [] ->
  Csv.load F src = Csv.Loaded (JArr (map JObj (batch_results E listing w))) ->
  Csv.makedirs F (PosixPath.dirname dst) = None ->
  Csv.open_w F dst = None ->
  exists columns rows,
    Csv.table_of F (JArr (map JObj (batch_results E listing w))) =
      (FILENAME_KEY :: columns) :: rows
    /\ List.length rows = List.length (batch_results E listing w)
    /\ Forall (fun row => List.length row = S (List.length columns)) rows
    /\ (fst (Csv.json_to_csv F src (Some dst) cw) = true <->
        Forall (fun row => Csv.writerow F dst row = None)
          ((FILENAME_KEY :: columns) :: rows))
    /\ (fst (Csv.json_to_csv F src (Some dst) cw) = true ->
        Csv.content dst (snd (Csv.json_to_csv F src (Some dst) cw)) =
          (FILENAME_KEY :: columns) :: rows).
Proof.
  intros Hne Hload Hmk Hopen.
  pose proof (batch_results_head E listing w) as Hhead.
  set (data := JArr (map JObj (batch_results E listing w))) in *.
  assert (Htable : exists columns rows,
             Csv.table_of F data = (FILENAME_KEY :: columns) :: rows
             /\ List.length rows = List.length (batch_results E listing w)
             /\ Forall (fun row => List.length row = S (List.length columns)) rows).
  { subst data. unfold Csv.table_of. cbn [Csv.items_of].
    destruct (batch_results E listing w) as [|r rs]; [congruence|].
    inversion Hhead as [|? ? (v & rest & ->) _]; subst.
    cbn [map Csv.collect_keys OD.keys fst Csv.add_keys existsb].
    destruct (add_keys_extends (map fst rest) ([] ++ [FILENAME_KEY])) as [t1 Ht1].
    rewrite Ht1.
    destruct (collect_keys_extends (map JObj rs) (([] ++ [FILENAME_KEY]) ++ t1))
      as [t2 Ht2].
    rewrite Ht2. cbn [app].
    eexists. eexists. split; [reflexivity|]. split.
    - cbn [List.length]. now rewrite !length_map.
    - constructor; [apply row_of_length|].
      apply Forall_forall. intros row Hin.
      apply in_map_iff in Hin. destruct Hin as (item & <- & _).
      apply row_of_length. }
  destruct Htable as (columns & rows & Ht & Hlen & Hwide).
  exists columns, rows. split; [exact Ht|]. split; [exact Hlen|].
  split; [exact Hwide|].
  assert (Hopens : Csv.target_opens F src dst cw = true).
  { unfold Csv.target_opens. rewrite Hload, Hmk, Hopen. subst data.
    destruct (batch_results E listing w) as [|r rs]; [congruence|].
    cbn [Csv.truthy map andb].
    now destruct (PyStr.nonempty (PosixPath.dirname dst)
                  && negb (Csv.exists_now F (PosixPath.dirname dst) cw)). }
  destruct (json_to_csv_loaded F src dst cw data Hload)
    as [(Hc & _)|(_ & Hr & _ & Hc & _)]; [congruence|].
  rewrite Ht in Hr, Hc. rewrite Hr, Hc. split.
  - rewrite forallb_forall, Forall_forall. unfold Csv.writable.
    split; intros H row Hin; specialize (H row Hin);
      destruct (Csv.writerow F dst row); congruence.
  - apply until_failure_all.
Qed.

Lemma csv_of_ocr_results_witness :
  fst (Csv.json_to_csv
         (CsvDemo.disk_of
            (JArr (map JObj (batch_results Sample.good ["r1.jpg"] (initial_world 0)))))
         CsvDemo.source (Some CsvDemo.target) Csv.initial_world) = true /\
  Csv.content CsvDemo.target
    (snd (Csv.json_to_csv
            (CsvDemo.disk_of
               (JArr (map JObj (batch_results Sample.good ["r1.jpg"]
                                  (initial_world 0)))))
            CsvDemo.source (Some CsvDemo.target) Csv.initial_world)) =
  [[FILENAME_KEY; "a"]; ["r1.jpg"; "1"]].
Proof.
  assert (Hne : batch_results Sample.good ["r1.jpg"] (initial_world 0) <> [])
    by (vm_compute; intros H; discriminate H).
  destruct (csv_of_ocr_results Sample.good ["r1.jpg"] (initial_world 0)
              (CsvDemo.disk_of
                 (JArr (map JObj (batch_results Sample.good ["r1.jpg"]
                                    (initial_world 0)))))
              CsvDemo.source CsvDemo.target Csv.initial_world
              Hne eq_refl eq_refl eq_refl)
    as (columns & rows & Ht & _ & _ & Hiff & Hc).
  vm_compute in Ht. injection Ht as <- <-.
  assert (Hok : fst (Csv.json_to_csv
                       (CsvDemo.disk_of
                          (JArr (map JObj (batch_results Sample.good ["r1.jpg"]
                                             (initial_world 0)))))
                       CsvDemo.source (Some CsvDemo.target) Csv.initial_world)
                = true)
    by (apply Hiff; repeat constructor).
  split; [exact Hok | exact (Hc Hok)].
Defined.
(* ================================================================== *)
(** ** A folder of files                                               *)
(* ================================================================== *)

Section Folder.

Variable F : Csv.fs.
Variable A : Type.
Variable f : Csv.event -> list A.
Hypothesis f_inner : forall e, Csv.inner e = true -> f e = [].

Lemma obs_log l m w :
  Csv.inner (Csv.EvLog l m) = true ->
  flat_map f (Csv.trace (Csv.log_message m l w)) = flat_map f (Csv.trace w).
Proof.
  intros H. cbn [Csv.trace Csv.log_message Csv.emit].
  rewrite flat_map_app. cbn [flat_map]. rewrite (f_inner _ H). now rewrite !app_nil_r.
Qed.

Lemma obs_emit e w :
  Csv.inner e = true ->
  flat_map f (Csv.trace (Csv.emit e w)) = flat_map f (Csv.trace w).
Proof.
  intros H. cbn [Csv.trace Csv.emit].
  rewrite flat_map_app. cbn [flat_map]. rewrite (f_inner _ H). now rewrite !app_nil_r.
Qed.

Lemma obs_mkdirs d m w :
  flat_map f (Csv.trace (Csv.mkWorld m (Csv.trace w ++ [Csv.EvMkdirs d]))) =
  flat_map f (Csv.trace w).
Proof.
  cbn [Csv.trace]. rewrite flat_map_app. cbn [flat_map].
  rewrite (f_inner (Csv.EvMkdirs d) eq_refl). now rewrite !app_nil_r.
Qed.

Lemma obs_write_rows path headers data i total w :
  flat_map f (Csv.trace (snd (Csv.write_rows F path headers data i total w))) =
  flat_map f (Csv.trace w).
Proof.
  revert i w. induction data as [|item rest IH]; intros i w;
    cbn [Csv.write_rows snd]; [reflexivity|].
  destruct (Csv.writerow F path (Csv.row_of F headers item)); [reflexivity|].
  rewrite IH.
  destruct (((i + 1) mod 100 =? 0) || (i + 1 =? total))%nat;
    rewrite ?obs_log by reflexivity; now rewrite obs_emit.
Qed.

Lemma obs_json_to_csv src dst w :
  flat_map f (Csv.trace (snd (Csv.json_to_csv F src (Some dst) w))) =
  flat_map f (Csv.trace w) ++ f (Csv.EvLog "INFO" (Csv.MsgLoadStart src)).
Proof.
  assert (Hstart :
    flat_map f (Csv.trace (Csv.log_message (Csv.MsgLoadStart src) "INFO" w)) =
    flat_map f (Csv.trace w) ++ f (Csv.EvLog "INFO" (Csv.MsgLoadStart src))).
  { cbn [Csv.trace Csv.log_message Csv.emit]. rewrite flat_map_app.
    cbn [flat_map]. now rewrite app_nil_r. }
  unfold Csv.json_to_csv.
  destruct (Csv.load F src) as [|e|e|data]; cbn [snd];
    try (rewrite obs_log by reflexivity; exact Hstart).
  destruct (Csv.truthy data); cbn [negb snd];
    [|rewrite obs_log by reflexivity; exact Hstart].
  set (w1 := match data with
             | JArr items => (items, Csv.log_message (Csv.MsgLoadStart src) "INFO" w)
             | _ => ([data], Csv.log_message Csv.MsgWrapped "INFO"
                               (Csv.log_message (Csv.MsgLoadStart src) "INFO" w))
             end).
  assert (Hw1 : flat_map f (Csv.trace (snd w1)) =
                flat_map f (Csv.trace w) ++ f (Csv.EvLog "INFO" (Csv.MsgLoadStart src))).
  { subst w1. destruct data; cbn [snd];
      rewrite ?obs_log by reflexivity; exact Hstart. }
  destruct w1 as [items w1]. cbn [snd] in Hw1. rewrite <- Hw1.
  unfold Csv.extract_all_keys.
  set (headers := Csv.collect_keys items []).
  assert (Hopen : forall w3,
    flat_map f (Csv.trace w3) = flat_map f (Csv.trace w1) ->
    flat_map f
      (Csv.trace
         (snd
            match Csv.open_w F dst with
            | Some e => (false, Csv.log_message (Csv.MsgUnexpected e) "ERROR"
                                  (Csv.log_message (Csv.MsgWriteStart dst) "INFO" w3))
            | None =>
                match Csv.writerow F dst headers with
                | Some e =>
                    (false, Csv.log_message (Csv.MsgUnexpected e) "ERROR"
                              (Csv.emit (Csv.EvOpen dst)
                                 (Csv.log_message (Csv.MsgWriteStart dst) "INFO" w3)))
                | None =>
                    match Csv.write_rows F dst headers items 0
                            (List.length items)
                            (Csv.log_message (Csv.MsgHeaderDone headers) "INFO"
                               (Csv.emit (Csv.EvRow dst headers)
                                  (Csv.emit (Csv.EvOpen dst)
                                     (Csv.log_message (Csv.MsgWriteStart dst)
                                        "INFO" w3)))) with
                    | (Some e, w4) =>
                        (false, Csv.log_message (Csv.MsgUnexpected e) "ERROR" w4)
                    | (None, w4) =>
                        (true, Csv.log_message (Csv.MsgConverted dst) "INFO" w4)
                    end
                end
            end)) = flat_map f (Csv.trace w1)).
  { intros w3 H3.
    destruct (Csv.open_w F dst) as [e|]; cbn [snd].
    - now rewrite !obs_log by reflexivity.
    - destruct (Csv.writerow F dst headers) as [e|]; cbn [snd].
      + rewrite obs_log, obs_emit, obs_log by reflexivity. exact H3.
      + set (w5 := Csv.log_message (Csv.MsgHeaderDone headers) "INFO" _).
        pose proof (obs_write_rows dst headers items 0 (List.length items) w5)
          as Hw.
        assert (H5 : flat_map f (Csv.trace w5) = flat_map f (Csv.trace w1)).
        { subst w5. rewrite obs_log, !obs_emit, obs_log by reflexivity.
          exact H3. }
        destruct (Csv.write_rows F dst headers items 0 (List.length items) w5)
          as [[e|] w4]; cbn [snd] in *;
          rewrite obs_log by reflexivity; now rewrite Hw, H5. }
  destruct (PyStr.nonempty (PosixPath.dirname dst) && _).
  - destruct (Csv.makedirs F (PosixPath.dirname dst)) as [e|].
    + cbn [snd]. now rewrite !obs_log by reflexivity.
    + apply Hopen. rewrite obs_log by reflexivity. rewrite obs_mkdirs.
      now rewrite !obs_log by reflexivity.
  - apply Hopen. now rewrite !obs_log by reflexivity.
Qed.

Lemma obs_convert_all output files s e w :
  flat_map f (Csv.trace (snd (Csv.convert_all F output files s e w))) =
  flat_map f (Csv.trace w)
  ++ flat_map (fun p => f (Csv.EvLog "INFO" (Csv.MsgLoadStart p))) files.
Proof.
  revert s e w. induction files as [|file rest IH]; intros s e w;
    cbn [Csv.convert_all flat_map snd]; [now rewrite app_nil_r|].
  set (dst := PosixPath.join output _).
  pose proof (obs_json_to_csv file dst
                (Csv.log_message (Csv.MsgRule "-" 30) "INFO" w)) as Hj.
  rewrite obs_log in Hj by reflexivity.
  destruct (Csv.json_to_csv F file (Some dst) _) as [ok w1].
  cbn [snd] in Hj.
  destruct ok; rewrite IH, Hj, <- app_assoc; reflexivity.
Qed.

End Folder.

Section Counting.

Variable F : Csv.fs.

(** One call reports the table as converted exactly when it returns
    [True], and opens at most one file, one when it returns [True]. *)
Lemma json_to_csv_counts src dst w :
  let r := Csv.json_to_csv F src (Some dst) w in
  List.length (Csv.converted (Csv.trace (snd r))) =
    (List.length (Csv.converted (Csv.trace w)) + if fst r then 1 else 0)%nat
  /\ (List.length (Csv.opened (Csv.trace w)) + (if fst r then 1 else 0)
      <= List.length (Csv.opened (Csv.trace (snd r))))%nat
  /\ (List.length (Csv.opened (Csv.trace (snd r)))
      <= List.length (Csv.opened (Csv.trace w)) + 1)%nat.
Proof.
  cbn zeta. destruct (Csv.load F src) as [|e|e|data] eqn:Hload.
  1-3: destruct (json_to_csv_unloaded F src dst w) as (_ & Hr & Ho & _ & Hc);
    [intros d; rewrite Hload; discriminate | rewrite Hr, Ho, Hc; lia].
  destruct (json_to_csv_loaded F src dst w data Hload)
    as [(_ & Hr & Ho & _ & Hc)|(_ & _ & Ho & _ & Hc)].
  - rewrite Hr, Ho, Hc. lia.
  - rewrite Ho, Hc, !length_app.
    destruct (fst (Csv.json_to_csv F src (Some dst) w)); cbn [List.length]; lia.
Qed.

Lemma convert_all_counts output files s e w :
  let r := Csv.convert_all F output files s e w in
  (fst (fst r) + snd (fst r) = s + e + List.length files)%nat
  /\ (List.length (Csv.converted (Csv.trace (snd r))) + s
      = List.length (Csv.converted (Csv.trace w)) + fst (fst r))%nat
  /\ (List.length (Csv.opened (Csv.trace w)) + fst (fst r)
      <= List.length (Csv.opened (Csv.trace (snd r))) + s)%nat
  /\ (List.length (Csv.opened (Csv.trace (snd r)))
      <= List.length (Csv.opened (Csv.trace w)) + List.length files)%nat.
Proof.
  cbn zeta. revert s e w. induction files as [|file rest IH]; intros s e w;
    cbn [Csv.convert_all fst snd List.length]; [lia|].
  set (dst := PosixPath.join output _).
  pose proof (json_to_csv_counts file dst
                (Csv.log_message (Csv.MsgRule "-" 30) "INFO" w)) as Hj.
  cbn zeta in Hj. rewrite opened_log, converted_log, app_nil_r in Hj.
  destruct (Csv.json_to_csv F file (Some dst) _) as [ok w1].
  cbn [fst snd] in Hj. destruct Hj as (J1 & J2 & J3). destruct ok.
  - destruct (IH (s + 1)%nat e w1) as (H1 & H2 & H3 & H4). lia.
  - destruct (IH s (e + 1)%nat w1) as (H1 & H2 & H3 & H4). lia.
Qed.

End Counting.

(** X25. [process_folder] starts [json_to_csv] once on every file the
    pattern finds, in the order found, whatever becomes of the files
    before it; its summary gives as successes the number of tables
    reported as converted, and successes and failures add up to the
    number of files found.  At least as many files are opened for
    writing as there are successes, since a file that is opened and
    then cannot be written counts as a failure, and at most one for
    each file found.  Without the input folder, or without a file in
    it, nothing is started. *)
Theorem process_folder_attempts_every_file
  (F : Csv.fs) (input_folder output_folder : string) :
  let files :=
    if Csv.path_exists F input_folder
    then Csv.glob F (PosixPath.join input_folder "*.json")
    else [] in
  let tr := Csv.trace (Csv.process_folder F input_folder output_folder
                         Csv.initial_world) in
  Csv.attempts tr = files
  /\ (files = [] -> Csv.opened tr = [] /\ Csv.summary tr = [])
  /\ (files <> [] ->
      exists success_count error_count,
        Csv.summary tr = [Csv.MsgSucceeded success_count;
                          Csv.MsgFailed error_count;
                          Csv.MsgTotal (List.length files)]
        /\ (success_count + error_count = List.length files)%nat
        /\ List.length (Csv.converted tr) = success_count
        /\ (success_count <= List.length (Csv.opened tr))%nat
        /\ (List.length (Csv.opened tr) <= List.length files)%nat).
Proof.
  cbn zeta. unfold Csv.process_folder.
  destruct (Csv.path_exists F input_folder); cbn [negb].
  2:{ repeat split; try reflexivity. intros H. now contradiction H. }
  destruct (Csv.glob F (PosixPath.join input_folder "*.json")) as [|file rest] eqn:Hg.
  { repeat split; try reflexivity. intros H. now contradiction H. }
  set (files := file :: rest).
  set (w0 := Csv.log_message (Csv.MsgCount (List.length files)) "INFO" _).
  assert (Ha : Csv.attempts
                 (Csv.trace (snd (Csv.convert_all F output_folder files 0 0 w0))) =
               Csv.attempts (Csv.trace w0) ++ flat_map (fun p => [p]) files).
  { unfold Csv.attempts.
    apply (obs_convert_all F string
             (fun e => match e with
                       | Csv.EvLog _ (Csv.MsgLoadStart p) => [p]
                       | _ => []
                       end)).
    intros [l [] | | |]; (discriminate || reflexivity). }
  assert (Hs : Csv.summary
                 (Csv.trace (snd (Csv.convert_all F output_folder files 0 0 w0))) =
               Csv.summary (Csv.trace w0)
               ++ flat_map (fun _ : string => @nil Csv.msg) files).
  { unfold Csv.summary.
    apply (obs_convert_all F Csv.msg
             (fun e => match e with
                       | Csv.EvLog _ (Csv.MsgSucceeded n) => [Csv.MsgSucceeded n]
                       | Csv.EvLog _ (Csv.MsgFailed n) => [Csv.MsgFailed n]
                       | Csv.EvLog _ (Csv.MsgTotal n) => [Csv.MsgTotal n]
                       | _ => []
                       end)).
    intros [l [] | | |]; (discriminate || reflexivity). }
  destruct (convert_all_counts F output_folder files 0%nat 0%nat w0)
    as (Hc & Hv & Ho1 & Ho2).
  destruct (Csv.convert_all F output_folder files 0 0 w0) as [[s e] w1].
  cbn [fst snd] in Ha, Hs, Hc, Hv, Ho1, Ho2.
  assert (Hflat : flat_map (fun p : string => [p]) files = files).
  { clear. induction files as [|x l IH]; [reflexivity|]. cbn. now rewrite IH. }
  assert (Hnone : flat_map (fun _ : string => @nil Csv.msg) files = []).
  { clear. induction files as [|x l IH]; [reflexivity|]. exact IH. }
  rewrite Hflat in Ha. rewrite Hnone, app_nil_r in Hs.
  assert (Ha0 : Csv.attempts (Csv.trace w0) = []) by reflexivity.
  assert (Hs0 : Csv.summary (Csv.trace w0) = []) by reflexivity.
  assert (Ho0 : Csv.opened (Csv.trace w0) = []) by reflexivity.
  assert (Hv0 : Csv.converted (Csv.trace w0) = []) by reflexivity.
  rewrite Ha0 in Ha. rewrite Hs0 in Hs. rewrite Ho0 in Ho1, Ho2.
  rewrite Hv0 in Hv. cbn [List.length app] in Ho1, Ho2, Hv, Ha.
  split; [|split; [intros H; discriminate H|]].
  - unfold Csv.attempts in *. cbn [Csv.trace Csv.log_message Csv.emit].
    rewrite !flat_map_app, Ha. cbn. now rewrite !app_nil_r.
  - intros _. exists s, e.
    assert (Hop : Csv.opened
                    (Csv.trace
                       (Csv.log_message (Csv.MsgRule "=" 50) "INFO"
                          (Csv.log_message (Csv.MsgTotal (List.length files)) "INFO"
                             (Csv.log_message (Csv.MsgFailed e) "INFO"
                                (Csv.log_message (Csv.MsgSucceeded s) "INFO"
                                   (Csv.log_message Csv.MsgSummary "INFO"
                                      (Csv.log_message (Csv.MsgRule "=" 50) "INFO"
                                         w1))))))) =
                  Csv.opened (Csv.trace w1))
      by now rewrite !opened_log.
    assert (Hcv : Csv.converted
                    (Csv.trace
                       (Csv.log_message (Csv.MsgRule "=" 50) "INFO"
                          (Csv.log_message (Csv.MsgTotal (List.length files)) "INFO"
                             (Csv.log_message (Csv.MsgFailed e) "INFO"
                                (Csv.log_message (Csv.MsgSucceeded s) "INFO"
                                   (Csv.log_message Csv.MsgSummary "INFO"
                                      (Csv.log_message (Csv.MsgRule "=" 50) "INFO"
                                         w1))))))) =
                  Csv.converted (Csv.trace w1))
      by now rewrite !converted_log, !app_nil_r.
    rewrite Hop, Hcv. split; [|split; [|split; [|split]]].
    + unfold Csv.summary in *. cbn [Csv.trace Csv.log_message Csv.emit].
      rewrite !flat_map_app, Hs. reflexivity.
    + cbn [List.length] in Hc. lia.
    + lia.
    + lia.
    + exact Ho2.
Qed.

(* ================================================================== *)
(** ** The name of the table                                           *)
(* ================================================================== *)

Section Names.

Lemma string_app_inv_head (a b c : string) :
  (a ++ b)%string = (a ++ c)%string -> b = c.
Proof.
  induction a as [|d a IH]; cbn [String.append]; [auto|].
  intros H. injection H as H. now apply IH.
Qed.

Lemma string_app_inv_tail (a b s : string) :
  (a ++ s)%string = (b ++ s)%string -> a = b.
Proof.
  revert b. induction a as [|d a IH]; intros [|e b] H; cbn [String.append] in H.
  - reflexivity.
  - exfalso. apply (f_equal String.length) in H.
    cbn [String.length] in H. rewrite string_length_app in H. lia.
  - exfalso. apply (f_equal String.length) in H.
    cbn [String.length] in H. rewrite string_length_app in H. lia.
  - injection H as -> H. f_equal. now apply IH.
Qed.

Lemma basename_in_folder (folder name : string) :
  Chars.has "/" name = false ->
  PosixPath.basename (folder ++ "/" ++ name) = name.
Proof.
  intros H. unfold PosixPath.basename, PyStr.rfind.
  change (folder ++ "/" ++ name)%string with (folder ++ String "/" name)%string.
  rewrite (rfind_from_last "/" folder name 0 (Z.le_refl 0) H).
  replace (Z.to_nat (0 + Z.of_nat (String.length folder) + 1))
    with (S (String.length folder)) by lia.
  rewrite drop_succ, drop_app_length. reflexivity.
Qed.

Lemma splitext_name (stem ext : string) (c : ascii) (rest : string) :
  stem = String c rest -> c <> "."%char ->
  Chars.has "/" stem = false ->
  Chars.has "/" ext = false -> Chars.has "." ext = false ->
  PosixPath.splitext (stem ++ String "." ext) = (stem, String "." ext).
Proof.
  intros Hstem Hc Hs He Hd. unfold PosixPath.splitext, PyStr.rfind.
  assert (Hsl : Chars.has "/" (stem ++ String "." ext) = false).
  { rewrite has_app, Hs. cbn [Chars.has orb]. now rewrite He. }
  rewrite (rfind_from_absent "/" _ 0 Hsl).
  rewrite (rfind_from_last "." stem ext 0 (Z.le_refl 0) Hd).
  assert (Hlt : (-1 <? 0 + Z.of_nat (String.length stem)) = true)
    by (apply Z.ltb_lt; lia).
  rewrite Hlt. cbn [andb].
  unfold PyStr.slice.
  replace (Z.to_nat (-1 + 1)) with 0%nat by reflexivity.
  replace (Z.to_nat (0 + Z.of_nat (String.length stem) - (-1 + 1)))
    with (String.length stem) by lia.
  replace (Z.to_nat 0) with 0%nat by reflexivity.
  replace (Z.to_nat (0 + Z.of_nat (String.length stem) - 0))
    with (String.length stem) by lia.
  replace (Z.to_nat (0 + Z.of_nat (String.length stem)))
    with (String.length stem) by lia.
  pose proof (substring_middle EmptyString stem (String "." ext)) as Hsub.
  cbn [String.length String.append] in Hsub. rewrite Hsub.
  rewrite drop_app_length.
  assert (Hall : PosixPath.all_char "." stem = false).
  { subst stem. cbn [PosixPath.all_char].
    destruct (Ascii.eqb c ".") eqn:Heq; [|reflexivity].
    apply Ascii.eqb_eq in Heq. contradiction. }
  now rewrite Hall.
Qed.

End Names.

(** X26. A file [stem.json] of the input folder is converted to
    [stem.csv] in the output folder, for every name that does not start
    with a dot: the base name is all of the name before its last
    [.json], further dots included.  Two such files never share a
    table. *)
Theorem csv_name_of_json_name
  (input_folder output_folder stem stem' : string)
  (c c' : ascii) (rest rest' : string) :
  stem = String c rest -> c <> "."%char -> Chars.has "/" stem = false ->
  stem' = String c' rest' -> c' <> "."%char -> Chars.has "/" stem' = false ->
  fst (PosixPath.splitext
         (PosixPath.basename (input_folder ++ "/" ++ stem ++ ".json"))) = stem
  /\ (PosixPath.join output_folder (stem ++ ".csv") =
      PosixPath.join output_folder (stem' ++ ".csv") -> stem = stem').
Proof.
  intros Hstem Hc Hs Hstem' Hc' Hs'. split.
  - rewrite basename_in_folder.
    + now rewrite (splitext_name stem "json" c rest Hstem Hc Hs eq_refl eq_refl).
    + rewrite has_app, Hs. reflexivity.
  - assert (Hnot : forall d r, Chars.has "/" (String d r) = false -> d <> "/"%char).
    { intros d r H ->. cbn [Chars.has] in H. rewrite Ascii.eqb_refl in H.
      discriminate H. }
    assert (H1 : c <> "/"%char) by (apply (Hnot c rest); now rewrite <- Hstem).
    assert (H2 : c' <> "/"%char) by (apply (Hnot c' rest'); now rewrite <- Hstem').
    unfold PosixPath.join.
    assert (Hp : String.prefix "/" (stem ++ ".csv") = false).
    { rewrite Hstem. cbn [String.append String.prefix].
      destruct (ascii_dec "/" c) as [<-|_]; [congruence|reflexivity]. }
    assert (Hp' : String.prefix "/" (stem' ++ ".csv") = false).
    { rewrite Hstem'. cbn [String.append String.prefix].
      destruct (ascii_dec "/" c') as [<-|_]; [congruence|reflexivity]. }
    rewrite Hp, Hp'.
    destruct (negb (PyStr.nonempty output_folder)
              || (PyStr.rfind output_folder "/"
                  =? Z.of_nat (String.length output_folder) - 1));
      intros H; apply string_app_inv_head in H.
    + now apply string_app_inv_tail in H.
    + apply string_app_inv_head in H. now apply string_app_inv_tail in H.
Qed.

Lemma csv_name_of_json_name_witness :
  fst (PosixPath.splitext
         (PosixPath.basename ("/repo/data/json" ++ "/" ++ "2026.01" ++ ".json")))
  = "2026.01".
Proof.
  assert (Hc : "2"%char <> "."%char) by discriminate.
  exact (proj1 (csv_name_of_json_name "/repo/data/json" "/repo/data/csv"
                  "2026.01" "2026.01" "2" "2" "026.01" "026.01"
                  eq_refl Hc eq_refl eq_refl Hc eq_refl)).
Defined.

(* ================================================================== *)
(** ** Decimal numerals and their order                                *)
(* ================================================================== *)

Section Numerals.

Local Open Scope N_scope.

Lemma usize_nb_digits (d : Decimal.uint) :
  DecimalPos.Unsigned.usize d = N.of_nat (Decimal.nb_digits d).
Proof.
  induction d; cbn [DecimalPos.Unsigned.usize Decimal.nb_digits];
    rewrite ?Nat2N.inj_succ, ?IHd; reflexivity.
Qed.

Lemma string_of_uint_length (d : Decimal.uint) :
  String.length (NilEmpty.string_of_uint d) = Decimal.nb_digits d.
Proof.
  induction d; cbn [NilEmpty.string_of_uint String.length Decimal.nb_digits];
    rewrite ?IHd; reflexivity.
Qed.

(** The value of a numeral from its first digit and the rest. *)
Lemma of_uint_eqn (d : Decimal.uint) :
  d <> Decimal.Nil ->
  N.of_uint d =
  DecimalPos.Unsigned.hd d * 10 ^ N.of_nat (Decimal.nb_digits (DecimalPos.Unsigned.tl d))
  + N.of_uint (DecimalPos.Unsigned.tl d).
Proof.
  intros Hd. unfold N.of_uint. rewrite !DecimalPos.Unsigned.of_uint_alt.
  rewrite <- usize_nb_digits.
  destruct d; [congruence| ..];
    unfold Decimal.rev; cbn [Decimal.revapp DecimalPos.Unsigned.tl DecimalPos.Unsigned.hd];
    rewrite DecimalPos.Unsigned.of_lu_revapp;
    cbn [DecimalPos.Unsigned.of_lu]; fold (Decimal.rev d); lia.
Qed.

Lemma of_uint_bound (d : Decimal.uint) :
  N.of_uint d < 10 ^ N.of_nat (Decimal.nb_digits d).
Proof.
  induction d as [|d IH|d IH|d IH|d IH|d IH|d IH|d IH|d IH|d IH|d IH].
  1: cbn; lia.
  all: rewrite of_uint_eqn by discriminate;
    cbn [DecimalPos.Unsigned.tl DecimalPos.Unsigned.hd Decimal.nb_digits];
    rewrite Nat2N.inj_succ, N.pow_succ_r'; lia.
Qed.

Lemma hd_bound (d : Decimal.uint) : DecimalPos.Unsigned.hd d <= 9.
Proof. destruct d; cbn; lia. Qed.

Lemma string_of_uint_eqn (d : Decimal.uint) :
  d <> Decimal.Nil ->
  NilEmpty.string_of_uint d =
  String (ascii_of_N (48 + DecimalPos.Unsigned.hd d))
    (NilEmpty.string_of_uint (DecimalPos.Unsigned.tl d)).
Proof. destruct d; [congruence| ..]; reflexivity. Qed.

Lemma nb_digits_eqn (d : Decimal.uint) :
  d <> Decimal.Nil ->
  Decimal.nb_digits d = S (Decimal.nb_digits (DecimalPos.Unsigned.tl d)).
Proof. destruct d; [congruence| ..]; reflexivity. Qed.

Lemma digit_compare (a b : N) :
  a <= 9 -> b <= 9 ->
  Ascii.compare (ascii_of_N (48 + a)) (ascii_of_N (48 + b)) = (a ?= b).
Proof.
  intros Ha Hb. unfold Ascii.compare.
  rewrite !N_ascii_embedding by lia.
  destruct (N.compare_spec a b) as [->|H|H].
  - apply N.compare_refl.
  - apply N.compare_lt_iff. lia.
  - apply N.compare_gt_iff. lia.
Qed.

(** Numerals of the same length compare as their values do. *)
Lemma uint_compare (n : nat) (u v : Decimal.uint) :
  Decimal.nb_digits u = n -> Decimal.nb_digits v = n ->
  N.of_uint u < N.of_uint v ->
  String.compare (NilEmpty.string_of_uint u) (NilEmpty.string_of_uint v) = Lt.
Proof.
  revert u v. induction n as [|n IH]; intros u v Hu Hv Hlt.
  - apply DecimalFacts.nb_digits_0 in Hu, Hv. subst. cbn in Hlt. lia.
  - assert (Hun : u <> Decimal.Nil) by (intros ->; discriminate Hu).
    assert (Hvn : v <> Decimal.Nil) by (intros ->; discriminate Hv).
    rewrite (nb_digits_eqn u Hun) in Hu. rewrite (nb_digits_eqn v Hvn) in Hv.
    injection Hu as Hu. injection Hv as Hv.
    rewrite (of_uint_eqn u Hun), (of_uint_eqn v Hvn), Hu, Hv in Hlt.
    rewrite (string_of_uint_eqn u Hun), (string_of_uint_eqn v Hvn).
    cbn [String.compare].
    rewrite digit_compare by apply hd_bound.
    pose proof (of_uint_bound (DecimalPos.Unsigned.tl u)) as Bu.
    pose proof (of_uint_bound (DecimalPos.Unsigned.tl v)) as Bv.
    rewrite Hu in Bu. rewrite Hv in Bv.
    destruct (N.compare_spec (DecimalPos.Unsigned.hd u) (DecimalPos.Unsigned.hd v))
      as [Heq|Hl|Hg].
    + apply IH; [exact Hu | exact Hv |]. rewrite Heq in Hlt. lia.
    + reflexivity.
    + exfalso. nia.
Qed.

Lemma zeros_numeral (k : nat) (u : Decimal.uint) :
  (PyStr.zeros k ++ NilEmpty.string_of_uint u)%string =
  NilEmpty.string_of_uint (Nat.iter k Decimal.D0 u).
Proof.
  induction k as [|k IH]; [reflexivity|].
  cbn [PyStr.zeros String.append Nat.iter nat_rect NilEmpty.string_of_uint].
  now rewrite IH.
Qed.

Lemma of_uint_zeros (k : nat) (u : Decimal.uint) :
  N.of_uint (Nat.iter k Decimal.D0 u) = N.of_uint u.
Proof. induction k as [|k IH]; [reflexivity | exact IH]. Qed.

Lemma to_uint_nonnil (n : N) : N.to_uint n <> Decimal.Nil.
Proof.
  destruct n as [|p]; [discriminate|]. apply DecimalPos.Unsigned.to_uint_nonnil.
Qed.

Lemma to_uint_leading (n : N) :
  0 < n -> 1 <= DecimalPos.Unsigned.hd (N.to_uint n).
Proof.
  intros Hn.
  pose proof (DecimalN.Unsigned.to_of (N.to_uint n)) as Hnorm.
  rewrite DecimalN.Unsigned.of_to in Hnorm.
  destruct (N.to_uint n) as [|u|u|u|u|u|u|u|u|u|u] eqn:Hu; cbn; try lia.
  - exfalso. discriminate Hnorm.
  - exfalso. rewrite DecimalFacts.unorm_D0 in Hnorm.
    unfold Decimal.unorm in Hnorm.
    destruct (Decimal.nzhead u) eqn:Hz;
      try (symmetry in Hnorm; rewrite <- Hz in Hnorm;
           now apply DecimalFacts.nzhead_nonzero in Hnorm).
    injection Hnorm as ->.
    pose proof (DecimalN.Unsigned.of_to n) as Hval. rewrite Hu in Hval.
    cbn in Hval. lia.
Qed.

Lemma decimal_lower (n : N) :
  0 < n ->
  10 ^ N.of_nat (Nat.pred (Decimal.nb_digits (N.to_uint n))) <= n.
Proof.
  intros Hn. pose proof (to_uint_leading n Hn) as Hhd.
  pose proof (of_uint_eqn _ (to_uint_nonnil n)) as Heq.
  rewrite DecimalN.Unsigned.of_to in Heq.
  rewrite (nb_digits_eqn _ (to_uint_nonnil n)). cbn [Nat.pred]. nia.
Qed.

Lemma decimal_length_mono (i n : N) :
  i <= n ->
  (Decimal.nb_digits (N.to_uint i) <= Decimal.nb_digits (N.to_uint n))%nat.
Proof.
  intros Hin.
  destruct (N.eq_dec i 0) as [->|Hi].
  - rewrite (nb_digits_eqn _ (to_uint_nonnil n)). cbn. lia.
  - apply Nat.nlt_ge. intros Hlt.
    pose proof (decimal_lower i ltac:(lia)) as Hlow.
    pose proof (of_uint_bound (N.to_uint n)) as Hup.
    rewrite DecimalN.Unsigned.of_to in Hup.
    assert (Hpow : 10 ^ N.of_nat (Decimal.nb_digits (N.to_uint n))
                   <= 10 ^ N.of_nat (Nat.pred (Decimal.nb_digits (N.to_uint i))))
      by (apply N.pow_le_mono_r; lia).
    lia.
Qed.

Lemma decimal_length (n : N) :
  String.length (PyStr.decimal n) = Decimal.nb_digits (N.to_uint n).
Proof. apply string_of_uint_length. Qed.

Lemma zfill_decimal_length (w : nat) (n : N) :
  (String.length (PyStr.decimal n) <= w)%nat ->
  String.length (PyStr.zfill w (PyStr.decimal n)) = w.
Proof.
  intros H. unfold PyStr.zfill, PyStr.decimal in *.
  rewrite zeros_numeral, string_of_uint_length, DecimalFacts.nb_digits_iter_D0.
  rewrite string_of_uint_length in *. lia.
Qed.

(** Zero-filled to the same width, a smaller number comes first. *)
Lemma zfill_compare (w : nat) (i j : N) :
  (String.length (PyStr.decimal i) <= w)%nat ->
  (String.length (PyStr.decimal j) <= w)%nat ->
  i < j ->
  String.compare (PyStr.zfill w (PyStr.decimal i))
                 (PyStr.zfill w (PyStr.decimal j)) = Lt.
Proof.
  intros Hi Hj Hlt. unfold PyStr.zfill, PyStr.decimal in *.
  rewrite string_of_uint_length in Hi, Hj. rewrite !string_of_uint_length.
  rewrite !zeros_numeral.
  apply (uint_compare w).
  - rewrite DecimalFacts.nb_digits_iter_D0. lia.
  - rewrite DecimalFacts.nb_digits_iter_D0. lia.
  - now rewrite !of_uint_zeros, !DecimalN.Unsigned.of_to.
Qed.

End Numerals.

Section Names.

Lemma compare_prefix (p a b : string) :
  String.compare (p ++ a) (p ++ b) = String.compare a b.
Proof.
  induction p as [|c p IH]; [reflexivity|].
  cbn [String.append String.compare].
  assert (H : Ascii.compare c c = Eq) by (unfold Ascii.compare; apply N.compare_refl).
  now rewrite H.
Qed.

Lemma compare_lt_app (a b s t : string) :
  String.length a = String.length b ->
  String.compare a b = Lt ->
  String.compare (a ++ s) (b ++ t) = Lt.
Proof.
  revert b. induction a as [|c a IH]; intros [|d b] Hlen H;
    try discriminate Hlen; [discriminate H|].
  cbn [String.append String.compare] in *.
  destruct (Ascii.compare c d); [|reflexivity | discriminate H].
  apply IH; [now injection Hlen | exact H].
Qed.

End Names.

(* ================================================================== *)
(** ** The images of a document                                        *)
(* ================================================================== *)

Section Pages.

Variable base_name : string.
Variable total_pages : nat.

Lemma page_width (i : nat) :
  (i <= total_pages)%nat ->
  (String.length (PyStr.decimal (N.of_nat i)) <= Pdf.digits total_pages)%nat.
Proof.
  intros H. unfold Pdf.digits. rewrite !decimal_length.
  apply decimal_length_mono. lia.
Qed.

Lemma output_filename_many (i : nat) :
  total_pages <> 1%nat ->
  Pdf.output_filename base_name total_pages i =
  ((base_name ++ "_"
    ++ PyStr.zfill (Pdf.digits total_pages) (PyStr.decimal (N.of_nat i)))
   ++ String "." "jpg")%string.
Proof.
  intros H. unfold Pdf.output_filename.
  apply Nat.eqb_neq in H. rewrite H.
  now rewrite !string_app_assoc.
Qed.

Lemma output_filename_compare (i j : nat) :
  (i < j <= total_pages)%nat -> total_pages <> 1%nat ->
  String.compare (Pdf.output_filename base_name total_pages i)
                 (Pdf.output_filename base_name total_pages j) = Lt.
Proof.
  intros Hij Hn. rewrite !output_filename_many by exact Hn.
  rewrite !string_app_assoc, compare_prefix.
  change ("_" ++ ?x)%string with (String "_" x).
  cbn [String.append String.compare].
  change (Ascii.compare "_" "_") with Eq. cbv iota.
  apply compare_lt_app.
  - rewrite !zfill_decimal_length; [reflexivity | |]; apply page_width; lia.
  - apply zfill_compare; [apply page_width; lia | apply page_width; lia | lia].
Qed.

Lemma output_filename_length (i : nat) :
  (i <= total_pages)%nat -> total_pages <> 1%nat ->
  String.length (Pdf.output_filename base_name total_pages i) =
  (String.length base_name + 1 + Pdf.digits total_pages + 4)%nat.
Proof.
  intros Hi Hn. rewrite output_filename_many by exact Hn.
  rewrite !string_length_app, zfill_decimal_length by now apply page_width.
  cbn [String.length]. lia.
Qed.

Lemma output_filename_is_image (i : nat) :
  base_name <> EmptyString ->
  is_image (Pdf.output_filename base_name total_pages i) = true.
Proof.
  intros Hb. unfold is_image.
  destruct (Nat.eq_dec total_pages 1) as [H1|H1].
  - unfold Pdf.output_filename. rewrite H1. cbn [Nat.eqb].
    change (base_name ++ ".jpg")%string with (base_name ++ String "." "jpg")%string.
    now rewrite suffix_extension.
  - rewrite output_filename_many by exact H1.
    rewrite suffix_extension; [reflexivity | | discriminate | reflexivity].
    destruct base_name; [congruence | discriminate].
Qed.

Lemma page_files_sorted_from (a len : nat) :
  total_pages <> 1%nat -> (a + len <= total_pages + 1)%nat ->
  StronglySorted le_name
    (map (Pdf.output_filename base_name total_pages) (seq a len)).
Proof.
  intros Hn. revert a. induction len as [|len IH]; intros a Ha; cbn [seq map].
  - constructor.
  - constructor; [apply IH; lia|].
    apply Forall_forall. intros x Hx. apply in_map_iff in Hx.
    destruct Hx as (j & <- & Hj). apply in_seq in Hj.
    unfold le_name, String.leb.
    now rewrite output_filename_compare by lia.
Qed.

Lemma page_files_sorted :
  StronglySorted le_name (Pdf.page_files base_name total_pages).
Proof.
  unfold Pdf.page_files.
  destruct (Nat.eq_dec total_pages 1) as [->|H1].
  - cbn [seq map]. repeat constructor.
  - apply page_files_sorted_from; [exact H1 | lia].
Qed.

End Pages.

Section SortedLists.

(** A list in order has one arrangement only. *)
Lemma sorted_unique (l s : list string) :
  StronglySorted le_name l -> StronglySorted le_name s ->
  Permutation l s -> l = s.
Proof.
  revert s. induction l as [|x l IH]; intros s Hl Hs Hp.
  - apply Permutation_nil in Hp. now subst.
  - destruct s as [|y s]; [apply Permutation_sym, Permutation_nil in Hp; discriminate|].
    inversion Hl as [|? ? Hl' Hx]; subst. inversion Hs as [|? ? Hs' Hy]; subst.
    assert (Hxy : x = y).
    { assert (Hx_in : In x (y :: s))
        by (eapply Permutation_in; [exact Hp | now left]).
      assert (Hy_in : In y (x :: l))
        by (eapply Permutation_in; [apply Permutation_sym; exact Hp | now left]).
      destruct Hx_in as [->|Hx_in]; [reflexivity|].
      destruct Hy_in as [->|Hy_in]; [reflexivity|].
      rewrite Forall_forall in Hx, Hy.
      apply String.leb_antisym; [apply Hx, Hy_in | apply Hy, Hx_in]. }
    subst y. f_equal. apply IH; [exact Hl' | exact Hs' |].
    eapply Permutation_cons_inv. exact Hp.
Qed.

Lemma filter_all (f : string -> bool) (l : list string) :
  Forall (fun x => f x = true) l -> filter f l = l.
Proof.
  induction 1 as [|x l Hx _ IH]; [reflexivity|].
  cbn [filter]. now rewrite Hx, IH.
Qed.

End SortedLists.

(** X27. The images of a document of several pages are named so that
    their names have one length and come, in byte-wise lexicographic
    order, strictly in page order, whatever the number of pages. *)
Theorem page_names_follow_page_order (base_name : string) (total_pages i j : nat) :
  (1 <= i)%nat -> (i < j)%nat -> (j <= total_pages)%nat ->
  String.ltb (Pdf.output_filename base_name total_pages i)
             (Pdf.output_filename base_name total_pages j) = true
  /\ String.length (Pdf.output_filename base_name total_pages i) =
     String.length (Pdf.output_filename base_name total_pages j).
Proof.
  intros Hi Hij Hj.
  assert (Hn : total_pages <> 1%nat) by lia. split.
  - unfold String.ltb. now rewrite output_filename_compare by lia.
  - rewrite !output_filename_length by (lia || exact Hn). reflexivity.
Qed.

Lemma page_names_follow_page_order_witness :
  String.ltb (Pdf.output_filename "scan" 120 9)
             (Pdf.output_filename "scan" 120 10) = true.
Proof.
  assert (H1 : (1 <= 9)%nat) by lia.
  assert (H2 : (9 < 10)%nat) by lia.
  assert (H3 : (10 <= 120)%nat) by lia.
  exact (proj1 (page_names_follow_page_order "scan" 120 9 10 H1 H2 H3)).
Defined.

(** X28. However the directory lists them, the OCR step takes the
    images of a document in page order. *)
Theorem ocr_takes_pages_in_page_order
  (base_name : string) (total_pages : nat) (listing : list string) :
  base_name <> EmptyString ->
  Permutation listing (Pdf.page_files base_name total_pages) ->
  image_files listing = Pdf.page_files base_name total_pages.
Proof.
  intros Hb Hp. unfold image_files.
  assert (Hall : Forall (fun x => is_image x = true) listing).
  { apply Forall_forall. intros x Hx.
    apply (Permutation_in _ Hp) in Hx. unfold Pdf.page_files in Hx.
    apply in_map_iff in Hx. destruct Hx as (i & <- & _).
    now apply output_filename_is_image. }
  rewrite (filter_all _ _ Hall).
  apply sorted_unique.
  - apply sorted_strongly.
  - apply page_files_sorted.
  - eapply Permutation_trans; [apply sorted_perm | exact Hp].
Qed.

Lemma ocr_takes_pages_in_page_order_witness :
  image_files ["scan_10.jpg"; "scan_09.jpg"; "scan_08.jpg"; "scan_07.jpg";
               "scan_06.jpg"; "scan_05.jpg"; "scan_04.jpg"; "scan_03.jpg";
               "scan_02.jpg"; "scan_01.jpg"] =
  Pdf.page_files "scan" 10.
Proof.
  assert (Hb : "scan" <> EmptyString) by discriminate.
  apply (ocr_takes_pages_in_page_order "scan" 10 _ Hb).
  apply Permutation_sym.
  exact (Permutation_rev (Pdf.page_files "scan" 10)).
Defined.

(* ================================================================== *)
(** ** A folder of documents                                           *)
(* ================================================================== *)

Section Documents.

Variable V : Pdf.env.

Lemma saves_app t1 t2 : Pdf.saves (t1 ++ t2) = Pdf.saves t1 ++ Pdf.saves t2.
Proof. apply flat_map_app. Qed.

Lemma started_app t1 t2 : Pdf.started (t1 ++ t2) = Pdf.started t1 ++ Pdf.started t2.
Proof. apply flat_map_app. Qed.

Lemma save_pages_trace base_name total_pages todo i tr :
  Pdf.started (snd (Pdf.save_pages V base_name total_pages todo i tr)) =
    Pdf.started tr
  /\ Pdf.saves (snd (Pdf.save_pages V base_name total_pages todo i tr)) =
     Pdf.saves tr
     ++ Pdf.until_failure V
          (map (PosixPath.join (Pdf.output_folder V))
             (map (Pdf.output_filename base_name total_pages) (seq i todo))).
Proof.
  revert i tr. induction todo as [|todo IH]; intros i tr;
    cbn [Pdf.save_pages seq map Pdf.until_failure snd].
  - now rewrite app_nil_r.
  - destruct (Pdf.save V _) as [e|]; cbn [snd].
    + now rewrite app_nil_r.
    + replace (i + 1)%nat with (S i) by lia.
      destruct (IH (S i)
                  (tr ++ [Pdf.EvSave
                            (PosixPath.join (Pdf.output_folder V)
                               (Pdf.output_filename base_name total_pages i));
                          Pdf.EvPrint
                            (Pdf.MsgSaved
                               (Pdf.output_filename base_name total_pages i))]))
        as [Hs Hv].
      rewrite Hs, Hv, started_app, saves_app. cbn.
      rewrite app_nil_r, <- app_assoc. now split.
Qed.

Lemma convert_one_trace pdf_path tr :
  Pdf.started (Pdf.convert_one V pdf_path tr) =
    Pdf.started tr ++ [fst (PosixPath.splitext (PosixPath.basename pdf_path))]
  /\ Pdf.saves (Pdf.convert_one V pdf_path tr) =
     Pdf.saves tr ++ Pdf.images_of V pdf_path.
Proof.
  unfold Pdf.convert_one, Pdf.images_of, Pdf.page_files.
  destruct (Pdf.convert_from_path V pdf_path) as [e|total_pages].
  - rewrite !started_app, !saves_app. cbn. now rewrite !app_nil_r.
  - set (base_name := fst (PosixPath.splitext (PosixPath.basename pdf_path))).
    set (tr1 := (tr ++ _) ++ _).
    destruct (save_pages_trace base_name total_pages total_pages 1 tr1) as [Hs Hv].
    assert (Hs1 : Pdf.started tr1 = Pdf.started tr ++ [base_name])
      by (subst tr1; rewrite !started_app; cbn; now rewrite app_nil_r).
    assert (Hv1 : Pdf.saves tr1 = Pdf.saves tr)
      by (subst tr1; rewrite !saves_app; cbn; now rewrite !app_nil_r).
    destruct (Pdf.save_pages V base_name total_pages total_pages 1 tr1)
      as [[e|] tr2]; cbn [snd] in Hs, Hv;
      rewrite ?started_app, ?saves_app, Hs, Hv, Hs1, Hv1; cbn;
      rewrite ?app_nil_r; now split.
Qed.

Lemma convert_all_trace pdf_files tr :
  Pdf.started (fold_left (fun tr pdf_path => Pdf.convert_one V pdf_path tr)
                 pdf_files tr) =
    Pdf.started tr
    ++ map (fun p => fst (PosixPath.splitext (PosixPath.basename p))) pdf_files
  /\ Pdf.saves (fold_left (fun tr pdf_path => Pdf.convert_one V pdf_path tr)
                  pdf_files tr) =
     Pdf.saves tr ++ flat_map (Pdf.images_of V) pdf_files.
Proof.
  revert tr. induction pdf_files as [|p rest IH]; intros tr;
    cbn [fold_left map flat_map].
  - now rewrite !app_nil_r.
  - destruct (IH (Pdf.convert_one V p tr)) as [Hs Hv].
    destruct (convert_one_trace p tr) as [Hs1 Hv1].
    rewrite Hs, Hv, Hs1, Hv1, <- !app_assoc. now split.
Qed.

End Documents.

(** X29. The converter comes to every document the pattern finds, in
    the order found, whether or not the documents before it could be
    converted; the images it writes are, document by document, the
    pages from the first one on, up to the first page that cannot be
    saved, and none for a document that cannot be read. *)
Theorem converter_visits_every_document (V : Pdf.env) :
  let pdf_files :=
    if Pdf.path_exists V (Pdf.input_folder V)
    then Pdf.glob V (PosixPath.join (Pdf.input_folder V) "*.pdf")
    else [] in
  Pdf.started (Pdf.pdf_to_jpg_converter V []) =
    map (fun p => fst (PosixPath.splitext (PosixPath.basename p))) pdf_files
  /\ Pdf.saves (Pdf.pdf_to_jpg_converter V []) =
     flat_map (Pdf.images_of V) pdf_files.
Proof.
  cbn zeta. unfold Pdf.pdf_to_jpg_converter.
  destruct (Pdf.path_exists V (Pdf.input_folder V)); cbn [negb];
    [|split; reflexivity].
  destruct (Pdf.glob V (PosixPath.join (Pdf.input_folder V) "*.pdf"))
    as [|p rest] eqn:Hg; [split; reflexivity|].
  set (tr0 := ([] ++ _) ++ _).
  destruct (convert_all_trace V (p :: rest) tr0) as [Hs Hv].
  rewrite started_app, saves_app, Hs, Hv. cbn [app Pdf.started Pdf.saves flat_map].
  split.
  - now rewrite app_nil_r.
  - now rewrite app_nil_r.
Qed.

(* ================================================================== *)
(** ** The three steps in a row                                        *)
(* ================================================================== *)

Section Steps.

Variable V : Runner.env.

Lemma runs_app t1 t2 : Runner.runs (t1 ++ t2) = Runner.runs t1 ++ Runner.runs t2.
Proof. apply flat_map_app. Qed.

Lemma run_steps_prefix (todo : list (string * string)) (tr : list Runner.event) :
  ~ In Runner.EvAllDone tr ->
  exists done rest,
    map snd todo = done ++ rest
    /\ Runner.runs (snd (Runner.run_steps V todo tr)) = Runner.runs tr ++ done
    /\ Forall (fun p => Runner.script_exists V p = true) done
    /\ match fst (Runner.run_steps V todo tr) with
       | Runner.Returned =>
           rest = []
           /\ Forall (fun p => Runner.exit_status V p = 0) done
           /\ In Runner.EvAllDone (snd (Runner.run_steps V todo tr))
       | Runner.Exited code =>
           code = 1
           /\ Forall (fun p => Runner.exit_status V p = 0) done
           /\ (exists p rest', rest = p :: rest'
                               /\ Runner.script_exists V p = false)
           /\ ~ In Runner.EvAllDone (snd (Runner.run_steps V todo tr))
       | Runner.Failed p code =>
           (exists before, done = before ++ [p]
                           /\ Forall (fun q => Runner.exit_status V q = 0) before)
           /\ code = Runner.exit_status V p
           /\ code <> 0
           /\ ~ In Runner.EvAllDone (snd (Runner.run_steps V todo tr))
       end.
Proof.
  revert tr. induction todo as [|[name script] rest IH]; intros tr Hno;
    cbn [Runner.run_steps map snd fst].
  - exists [], []. cbn [fst snd].
    split; [reflexivity|].
    split; [rewrite runs_app; cbn; now rewrite ?app_nil_r|].
    split; [constructor|]. split; [reflexivity|]. split; [constructor|].
    apply in_or_app. right. now left.
  - destruct (Runner.script_exists V script) eqn:Hex; cbn [negb].
    + unfold Runner.run_step.
      destruct (Runner.exit_status V script =? 0) eqn:Hst.
      * apply Z.eqb_eq in Hst.
        set (tr1 := tr ++ _).
        assert (Hno1 : ~ In Runner.EvAllDone tr1).
        { subst tr1. intros Hin. apply in_app_or in Hin.
          destruct Hin as [Hin|[Hin|[Hin|[]]]]; [contradiction | discriminate Hin | discriminate Hin]. }
        destruct (IH tr1 Hno1) as (done & rest' & Hmap & Hruns & Hexs & Hend).
        exists (script :: done), rest'. split; [cbn; now rewrite Hmap|].
        split.
        { rewrite Hruns. subst tr1. rewrite runs_app. cbn.
          now rewrite <- app_assoc. }
        split; [now constructor|].
        destruct (fst (Runner.run_steps V rest tr1)) as [|code|p code].
        -- destruct Hend as (H1 & H2 & H3). repeat split; auto.
        -- destruct Hend as (H1 & H2 & H3 & H4). repeat split; auto.
        -- destruct Hend as ((before & Hb & Hbf) & H2 & H3 & H4).
           repeat split; auto.
           exists (script :: before). split; [cbn; now rewrite Hb | now constructor].
      * apply Z.eqb_neq in Hst. cbn [fst snd].
        exists [script], (map snd rest). split; [reflexivity|].
        split; [rewrite runs_app; reflexivity|].
        split; [now repeat constructor|].
        repeat split; auto.
        -- exists []. split; [reflexivity | constructor].
        -- intros Hin. apply in_app_or in Hin.
           destruct Hin as [Hin|[Hin|[Hin|[]]]]; [contradiction | discriminate Hin | discriminate Hin].
    + cbn [fst snd]. exists [], (script :: map snd rest).
      split; [reflexivity|]. split; [rewrite runs_app; cbn; now rewrite !app_nil_r|].
      split; [constructor|]. repeat split; try constructor.
      * exists script, (map snd rest). now split.
      * intros Hin. apply in_app_or in Hin.
        destruct Hin as [Hin|[Hin|[]]]; [contradiction | discriminate Hin].
Qed.

End Steps.

(** X30. The runner runs the three scripts in their order and stops at
    the first one that is missing or ends with a status other than 0:
    the scripts run are a beginning of the list, each was there when
    its turn came and each but the last run ended with 0; the closing
    line is printed only when all three were run and ended with 0.  A
    missing script is found only when its turn comes, after the steps
    before it have run. *)
Theorem runner_stops_at_first_failure (V : Runner.env) (src_dir : string) :
  exists done rest,
    map snd (Runner.steps src_dir) = done ++ rest
    /\ Runner.runs (snd (Runner.main V src_dir)) = done
    /\ Forall (fun p => Runner.script_exists V p = true) done
    /\ match fst (Runner.main V src_dir) with
       | Runner.Returned =>
           rest = []
           /\ Forall (fun p => Runner.exit_status V p = 0) done
           /\ In Runner.EvAllDone (snd (Runner.main V src_dir))
       | Runner.Exited code =>
           code = 1
           /\ Forall (fun p => Runner.exit_status V p = 0) done
           /\ (exists p rest', rest = p :: rest'
                               /\ Runner.script_exists V p = false)
           /\ ~ In Runner.EvAllDone (snd (Runner.main V src_dir))
       | Runner.Failed p code =>
           (exists before, done = before ++ [p]
                           /\ Forall (fun q => Runner.exit_status V q = 0) before)
           /\ code = Runner.exit_status V p
           /\ code <> 0
           /\ ~ In Runner.EvAllDone (snd (Runner.main V src_dir))
       end.
Proof.
  unfold Runner.main.
  destruct (run_steps_prefix V (Runner.steps src_dir) [] (fun H => H))
    as (done & rest & H).
  exists done, rest. exact H.
Qed.
